(** * postgres-backup-manager: configuration store, archive reconciliation,
      retention, local path resolution, uploads, handlers and scheduler

    A shallow embedding of [lib/config.js], [lib/storage/s3.js],
    [lib/backup.js], the file name pattern of [lib/validation.js], the
    handlers of [POST /api/backups] and [DELETE /api/backups/:filename] of
    [server.js], and [lib/scheduler.js].  Mutable module state
    ([configMode], [manualConfig], the state of the scheduler), the backup
    directory and the bucket are explicit values that are passed through
    the operations; a thrown [Error] is a value of type [Error].

    Conventions.
    - A JavaScript string is a [string] whose characters are its code
      units; the strings of the embedding are those whose code units are
      below 256.  [toLowerCase], [trim] and [parseInt] treat these code
      units as JavaScript does.
    - Sizes, dates and counts are integers ([Z]), which the numbers of
      the source hold exactly up to 2^53; [parseInt] rounds as the source
      does.  A date is the number of milliseconds since the epoch, and a
      [Date] holds such a number within [max_time] or is invalid.  A
      number that may be [NaN] is an [option Z] with [None] for [NaN].
    - The time zone of the process is part of the world ([time_zone]).
    - Paths follow Node's POSIX [path] module. *)

From Stdlib Require Import String Ascii List ZArith Lia Bool Arith.
From Stdlib Require Import Permutation Sorted DecimalString.
Import ListNotations.

Local Open Scope string_scope.
Local Open Scope list_scope.

(** ** JavaScript values and string built-ins *)

Module JS.

(** [x || d] on a possibly-undefined string: the empty string is falsy. *)
Definition truthy (s : option string) : bool :=
  match s with
  | Some (String _ _) => true
  | _ => false
  end.

Definition or_default (s : option string) (d : string) : string :=
  match s with
  | Some (String c r) => String c r
  | _ => d
  end.

(** [x || null] *)
Definition or_null (s : option string) : option string :=
  if truthy s then s else None.

Fixpoint is_prefix (p s : string) : bool :=
  match p with
  | "" => true
  | String a p' =>
      match s with
      | "" => false
      | String b s' => Ascii.eqb a b && is_prefix p' s'
      end
  end.

Definition startsWith (s p : string) : bool := is_prefix p s.

Fixpoint string_rev (s : string) : string :=
  match s with
  | "" => ""
  | String c r => string_rev r ++ String c ""
  end.

Definition endsWith (s p : string) : bool :=
  is_prefix (string_rev p) (string_rev s).

(** [s.includes(sub)] *)
Fixpoint includes (s sub : string) : bool :=
  is_prefix sub s ||
  match s with
  | "" => false
  | String _ r => includes r sub
  end.

(** The letters that [toLowerCase] changes among the code units below
    256: [A] to [Z], and the capital letters from U+00C0 to U+00DE (the
    sign U+00D7 is not a letter). *)
Definition is_upper (n : nat) : bool :=
  ((65 <=? n)%nat && (n <=? 90)%nat) ||
  ((192 <=? n)%nat && (n <=? 222)%nat && negb (n =? 215)%nat).

Definition lower_ascii (c : ascii) : ascii :=
  let n := nat_of_ascii c in
  if is_upper n then ascii_of_nat (n + 32) else c.

Fixpoint toLowerCase (s : string) : string :=
  match s with
  | "" => ""
  | String c r => String (lower_ascii c) (toLowerCase r)
  end.

(** [s.split(c)] for a one-character separator. *)
Fixpoint split (c : ascii) (s : string) : list string :=
  match s with
  | "" => [""]
  | String x r =>
      if Ascii.eqb x c then "" :: split c r
      else match split c r with
           | [] => [String x ""]
           | h :: t => String x h :: t
           end
  end.

(** [s.replace(/c/g, d)] for a one-character pattern. *)
Fixpoint replace_all (c d : ascii) (s : string) : string :=
  match s with
  | "" => ""
  | String x r => String (if Ascii.eqb x c then d else x) (replace_all c d r)
  end.

(** White space and line terminators among the code units below 256: tab
    to carriage return, the space and the no-break space U+00A0. *)
Definition is_space (c : ascii) : bool :=
  let n := nat_of_ascii c in
  (n =? 32)%nat || ((9 <=? n)%nat && (n <=? 13)%nat) || (n =? 160)%nat.

Fixpoint trim_start (s : string) : string :=
  match s with
  | String c r => if is_space c then trim_start r else s
  | "" => ""
  end.

Definition trim (s : string) : string :=
  string_rev (trim_start (string_rev (trim_start s))).

(** [s.replace(/\/$/, "")]: drops one trailing slash. *)
Fixpoint strip_trailing_slash (s : string) : string :=
  match s with
  | "" => ""
  | String c "" => if Ascii.eqb c "/" then "" else s
  | String c r => String c (strip_trailing_slash r)
  end.

(** The number value of an integer.  A number holds the integers up to
    2^53 as they are; a larger one is rounded to 53 significant bits, to
    the nearest and to the even one on a tie.  The values from 2^1024 on
    stand for [Infinity]. *)
Definition to_number (z : Z) : Z :=
  let a := Z.abs z in
  if (a <=? 9007199254740992)%Z then z
  else
    let e := (Z.log2 a - 52)%Z in
    let q := Z.shiftr a e in
    let r := Z.land a (Z.ones e) in
    let half := Z.shiftl 1 (e - 1) in
    let q' := if (half <? r)%Z || ((r =? half)%Z && Z.odd q)
              then (q + 1)%Z else q in
    (Z.sgn z * Z.shiftl q' e)%Z.

(** [parseInt(s)] without a radix: leading white space, an optional sign,
    then decimal digits, or hexadecimal digits after [0x]; the result is
    the number value of the integer that the digits denote.  [None] is
    [NaN]. *)
Definition digit_value (radix : nat) (c : ascii) : option Z :=
  let n := nat_of_ascii c in
  let v :=
    if (48 <=? n)%nat && (n <=? 57)%nat then Some (n - 48)%nat
    else if (97 <=? n)%nat && (n <=? 102)%nat then Some (n - 87)%nat
    else if (65 <=? n)%nat && (n <=? 70)%nat then Some (n - 55)%nat
    else None in
  match v with
  | Some d => if (d <? radix)%nat then Some (Z.of_nat d) else None
  | None => None
  end.

Fixpoint parse_digits (radix : nat) (s : string) (acc : option Z) : option Z :=
  match s with
  | "" => acc
  | String c r =>
      match digit_value radix c with
      | Some d =>
          parse_digits radix r
            (Some (match acc with
                   | Some a => a * Z.of_nat radix + d
                   | None => d
                   end)%Z)
      | None => acc
      end
  end.

Definition parse_unsigned (s : string) : option Z :=
  match s with
  | String "0" (String x r) =>
      if Ascii.eqb x "x" || Ascii.eqb x "X" then parse_digits 16 r None
      else parse_digits 10 s None
  | _ => parse_digits 10 s None
  end.

Definition parseInt (s : string) : option Z :=
  option_map to_number
    match trim_start s with
    | String "-" r => option_map Z.opp (parse_unsigned r)
    | String "+" r => parse_unsigned r
    | r => parse_unsigned r
    end.

(** [n || d] on a number: [NaN] and [0] are falsy. *)
Definition num_or (n : option Z) (d : Z) : Z :=
  match n with
  | Some 0%Z | None => d
  | Some v => v
  end.

End JS.

(** ** Node's POSIX [path] module *)

Module Path.

Definition sep : ascii := "/".

(** Index-free rendering of [posix.basename]: trailing slashes are
    skipped, then the characters after the last remaining slash are kept. *)
Fixpoint drop_trailing_seps (r : string) : string :=
  match r with
  | String c t => if Ascii.eqb c sep then drop_trailing_seps t else r
  | "" => ""
  end.

Fixpoint take_until_sep (r : string) : string :=
  match r with
  | String c t => if Ascii.eqb c sep then "" else String c (take_until_sep t)
  | "" => ""
  end.

Definition basename (p : string) : string :=
  JS.string_rev (take_until_sep (drop_trailing_seps (JS.string_rev p))).

(** [normalizeString]: the segments between slashes are pushed on a stack
    (kept here with its top first); empty segments and ["."] are skipped,
    [".."] pops a segment that is not itself [".."], and is kept only when
    [allowAboveRoot] holds. *)
Definition normalize_step (allowAboveRoot : bool) (stack : list string)
    (seg : string) : list string :=
  if (seg =? "") || (seg =? ".") then stack
  else if seg =? ".." then
    match stack with
    | top :: rest =>
        if top =? ".." then (if allowAboveRoot then seg :: stack else stack)
        else rest
    | [] => if allowAboveRoot then [seg] else []
    end
  else seg :: stack.

Definition normalize_segments (allowAboveRoot : bool) (p : string)
    : list string :=
  rev (fold_left (normalize_step allowAboveRoot) (JS.split sep p) []).

Definition isAbsolute (p : string) : bool := JS.startsWith p "/".

Definition segments (p : string) : list string :=
  normalize_segments (negb (isAbsolute p)) p.

Definition normalize (p : string) : string :=
  match p with
  | "" => "."
  | _ =>
      let trailingSeparator := JS.endsWith p "/" in
      let res := String.concat "/" (segments p) in
      match res with
      | "" => if isAbsolute p then "/"
              else if trailingSeparator then "./" else "."
      | _ =>
          (if isAbsolute p then "/" else "") ++ res ++
          (if trailingSeparator then "/" else "")
      end
  end.

(** [path.join(a, b)]: empty arguments are skipped. *)
Definition join (a b : string) : string :=
  match a, b with
  | "", "" => "."
  | "", _ => normalize b
  | _, "" => normalize a
  | _, _ => normalize (a ++ "/" ++ b)
  end.

(** [p] lies in the directory [dir] (or is [dir] itself): both are
    absolute or both relative, and the normalised segments of [dir] begin
    those of [p] without a [".."] after them. *)
Fixpoint strip_prefix (d p : list string) : option (list string) :=
  match d, p with
  | [], _ => Some p
  | x :: d', y :: p' => if x =? y then strip_prefix d' p' else None
  | _ :: _, [] => None
  end.

Definition inside (dir p : string) : bool :=
  Bool.eqb (isAbsolute dir) (isAbsolute p) &&
  match strip_prefix (segments dir) (segments p) with
  | Some rest => negb (existsb (String.eqb "..") rest)
  | None => false
  end.

End Path.

(** ** Errors

    The source throws [Error] objects that differ by their message only;
    each constructor stands for one message template ([SystemError] for
    the errors raised by the file system and by child processes).  The
    source writes the two mode names of [InvalidConfigMode] in double
    quotes. *)

Inductive Error : Type :=
| ManualDatabaseNotSet
| InvalidConfigMode
| CannotSetManualInEnv
| RequiredDatabaseFields
| S3KeyAndBucketRequired
| CanOnlyResetInManual
| S3NotConfigured
| SystemError (reason : string)
| S3DeleteFailed (reason : string)
| LocalDeleteFailed (reason : string)
| BackupFailed (reason : string).

Definition message (e : Error) : string :=
  match e with
  | ManualDatabaseNotSet =>
      "Manual database configuration not set. Please configure in Settings."
  | InvalidConfigMode => "Invalid config mode. Must be 'env' or 'manual'"
  | CannotSetManualInEnv =>
      "Cannot set manual config when in ENV mode. Switch to Manual mode first."
  | RequiredDatabaseFields => "Host, User, and Database are required fields."
  | S3KeyAndBucketRequired =>
      "Both Access Key ID and Bucket are required for S3 configuration."
  | CanOnlyResetInManual => "Can only reset configuration in Manual mode"
  | S3NotConfigured => "S3 is not configured"
  | SystemError r => r
  | S3DeleteFailed r => "S3 delete failed: " ++ r
  | LocalDeleteFailed r => "Failed to delete local backup: " ++ r
  | BackupFailed r => "Backup failed: " ++ r
  end.

(** The spec's names for the classes of failure. *)
Definition ConfigurationMissing (e : Error) : Prop := e = ManualDatabaseNotSet.

Definition InvalidModeOperation (e : Error) : Prop :=
  e = CannotSetManualInEnv \/ e = CanOnlyResetInManual.

Definition BackupCreationFailed (e : Error) : Prop :=
  exists diagnostic, e = BackupFailed diagnostic.

Inductive Result (A : Type) : Type :=
| Ok (a : A)
| Throw (e : Error).
Arguments Ok {A} a.
Arguments Throw {A} e.

(** ** [lib/config.js] *)

Module Config.

Record DatabaseConfig : Type := {
  host : string;
  port : option Z;
  user : string;
  password : string;
  database : string;
  schema : option string;
  excludeTables : list string
}.

Record BackupConfig : Type := {
  auto : bool;
  schedule : string;
  retentionDays : option Z;
  storage : string;
  localPath : string;
  format : string
}.

Record S3Config : Type := {
  accessKeyId : option string;
  secretAccessKey : option string;
  region : string;
  bucket : option string;
  prefix : string;
  endpoint : option string;
  s3ForcePathStyle : bool
}.

(** [manualConfig] *)
Record ManualConfig : Type := {
  manual_database : option DatabaseConfig;
  manual_backup : option BackupConfig;
  manual_s3 : option S3Config
}.

(** The module state: [configMode], [manualConfig], and [process.env],
    which the module only reads ([process_env] lists the variables that
    are set, with their values). *)
Record Store : Type := {
  configMode : string;
  manualConfig : ManualConfig;
  process_env : list (string * string)
}.

Fixpoint lookup_env (e : list (string * string)) (k : string) : option string :=
  match e with
  | [] => None
  | (k', v) :: r => if k' =? k then Some v else lookup_env r k
  end.

(** [process.env.K] *)
Definition env (st : Store) (k : string) : option string :=
  lookup_env (process_env st) k.

Definition empty_manual : ManualConfig :=
  {| manual_database := None; manual_backup := None; manual_s3 := None |}.

(** [let configMode = process.env.CONFIG_MODE || "env"] *)
Definition initial (e : list (string * string)) : Store :=
  {| configMode := JS.or_default (lookup_env e "CONFIG_MODE") "env";
     manualConfig := empty_manual;
     process_env := e |}.

Definition set_mode (m : string) (st : Store) : Store :=
  {| configMode := m; manualConfig := manualConfig st;
     process_env := process_env st |}.

Definition set_manual (m : ManualConfig) (st : Store) : Store :=
  {| configMode := configMode st; manualConfig := m;
     process_env := process_env st |}.

(** [s.split(",").map(t => t.trim()).filter(t => t)] *)
Definition parse_table_list (s : string) : list string :=
  filter (fun t => negb (t =? "")) (map JS.trim (JS.split "," s)).

Definition getDatabaseConfig (st : Store) : Result DatabaseConfig :=
  if configMode st =? "manual" then
    match manual_database (manualConfig st) with
    | None => Throw ManualDatabaseNotSet
    | Some c => Ok c
    end
  else
    let excludeTablesEnv := JS.or_default (env st "DB_EXCLUDE_TABLES") "" in
    let excludeTables :=
      if excludeTablesEnv =? "" then [] else parse_table_list excludeTablesEnv in
    Ok {| host := JS.or_default (env st "DB_HOST") "localhost";
          port := JS.parseInt (JS.or_default (env st "DB_PORT") "5432");
          user := JS.or_default (env st "DB_USER") "postgres";
          password := JS.or_default (env st "DB_PASSWORD") "";
          database := JS.or_default (env st "DB_NAME") "postgres";
          schema := JS.or_null (env st "DB_SCHEMA");
          excludeTables := excludeTables |}.

Definition default_backup : BackupConfig :=
  {| auto := false;
     schedule := "0 2 * * *";
     retentionDays := Some 7%Z;
     storage := "local";
     localPath := "./backups";
     format := "sql" |}.

Definition getBackupConfig (st : Store) : BackupConfig :=
  if configMode st =? "manual" then
    match manual_backup (manualConfig st) with
    | None => default_backup
    | Some c => c
    end
  else
    {| auto := match env st "BACKUP_AUTO" with
               | Some v => v =? "true"
               | None => false
               end;
       schedule := JS.or_default (env st "BACKUP_SCHEDULE") "0 2 * * *";
       retentionDays :=
         JS.parseInt (JS.or_default (env st "BACKUP_RETENTION_DAYS") "7");
       storage := JS.or_default (env st "BACKUP_STORAGE") "local";
       localPath := JS.or_default (env st "BACKUP_LOCAL_PATH") "./backups";
       format := JS.or_default (env st "BACKUP_FORMAT") "sql" |}.

Definition forcePathStyleServices : list string :=
  ["supabase.co"; "minio"; "localhost"; "127.0.0.1"; "digitaloceanspaces.com"].

Definition shouldForcePathStyle (endpoint : option string) : bool :=
  match endpoint with
  | Some (String c r) =>
      let endpointLower := JS.toLowerCase (String c r) in
      existsb (fun service => JS.includes endpointLower service)
              forcePathStyleServices
  | _ => false
  end.

Definition default_s3 : S3Config :=
  {| accessKeyId := None;
     secretAccessKey := None;
     region := "us-east-1";
     bucket := None;
     prefix := "";
     endpoint := None;
     s3ForcePathStyle := false |}.

Definition with_forcePathStyle (b : bool) (c : S3Config) : S3Config :=
  {| accessKeyId := accessKeyId c;
     secretAccessKey := secretAccessKey c;
     region := region c;
     bucket := bucket c;
     prefix := prefix c;
     endpoint := endpoint c;
     s3ForcePathStyle := b |}.

(** The configuration [getS3Config] starts from: the stored object in
    manual mode, a fresh object built from the environment otherwise. *)
Definition env_s3 (st : Store) : S3Config :=
  {| accessKeyId := env st "AWS_ACCESS_KEY_ID";
     secretAccessKey := env st "AWS_SECRET_ACCESS_KEY";
     region := JS.or_default (env st "AWS_REGION") "us-east-1";
     bucket := env st "AWS_S3_BUCKET";
     prefix := JS.or_default (env st "AWS_S3_PREFIX") "";
     endpoint := env st "AWS_S3_ENDPOINT";
     s3ForcePathStyle :=
       match env st "AWS_S3_FORCE_PATH_STYLE" with
       | Some v => v =? "true"
       | None => false
       end |}.

Definition auto_detect (c : S3Config) : S3Config :=
  if JS.truthy (endpoint c) && negb (s3ForcePathStyle c)
  then with_forcePathStyle (shouldForcePathStyle (endpoint c)) c
  else c.

(** [getS3Config]: in manual mode [config] is the stored object itself, so
    the assignment to [config.s3ForcePathStyle] also updates
    [manualConfig.s3]; the second component is the module state after the
    call. *)
Definition getS3Config (st : Store) : S3Config * Store :=
  if configMode st =? "manual" then
    match manual_s3 (manualConfig st) with
    | None => (default_s3, st)
    | Some c =>
        let c' := auto_detect c in
        (c', set_manual {| manual_database := manual_database (manualConfig st);
                           manual_backup := manual_backup (manualConfig st);
                           manual_s3 := Some c' |} st)
    end
  else (auto_detect (env_s3 st), st).

Definition getConfigMode (st : Store) : string := configMode st.

Definition setConfigMode (mode : string) (st : Store) : Result string * Store :=
  if negb (mode =? "env") && negb (mode =? "manual")
  then (Throw InvalidConfigMode, st)
  else (Ok mode, set_mode mode st).

(** The objects handed to the setters: a field that may be absent is an
    [option]. *)
Inductive TableList : Type :=
| NoTables
| TablesString (s : string)
| TablesArray (l : list string).

Record DatabaseInput : Type := {
  in_host : option string;
  in_port : option string;
  in_user : option string;
  in_password : option string;
  in_database : option string;
  in_schema : option string;
  in_excludeTables : TableList
}.

Record BackupInput : Type := {
  in_auto : bool;
  in_schedule : option string;
  in_retentionDays : option string;
  in_storage : option string;
  in_localPath : option string;
  in_format : option string
}.

Record S3Input : Type := {
  in_accessKeyId : option string;
  in_secretAccessKey : option string;
  in_region : option string;
  in_bucket : option string;
  in_prefix : option string;
  in_endpoint : option string;
  in_s3ForcePathStyle : bool
}.

Definition parseInt_opt (s : option string) : option Z :=
  match s with
  | Some t => JS.parseInt t
  | None => None
  end.

Definition setManualDatabaseConfig (config : DatabaseInput) (st : Store)
    : Result DatabaseConfig * Store :=
  if negb (configMode st =? "manual") then (Throw CannotSetManualInEnv, st)
  else if negb (JS.truthy (in_host config)) || negb (JS.truthy (in_user config))
          || negb (JS.truthy (in_database config))
  then (Throw RequiredDatabaseFields, st)
  else
    let excludeTables :=
      match in_excludeTables config with
      | TablesString "" | NoTables => []
      | TablesString s => parse_table_list s
      | TablesArray l => l
      end in
    let d := {| host := JS.or_default (in_host config) "";
                port := Some (JS.num_or (parseInt_opt (in_port config)) 5432);
                user := JS.or_default (in_user config) "";
                password := JS.or_default (in_password config) "";
                database := JS.or_default (in_database config) "";
                schema := JS.or_null (in_schema config);
                excludeTables := excludeTables |} in
    (Ok d, set_manual {| manual_database := Some d;
                         manual_backup := manual_backup (manualConfig st);
                         manual_s3 := manual_s3 (manualConfig st) |} st).

Definition setManualBackupConfig (config : BackupInput) (st : Store)
    : Result BackupConfig * Store :=
  if negb (configMode st =? "manual") then (Throw CannotSetManualInEnv, st)
  else
    let b := {| auto := in_auto config;
                schedule := JS.or_default (in_schedule config) "0 2 * * *";
                retentionDays :=
                  Some (JS.num_or (parseInt_opt (in_retentionDays config)) 7);
                storage := JS.or_default (in_storage config) "local";
                localPath := JS.or_default (in_localPath config) "./backups";
                format := JS.or_default (in_format config) "sql" |} in
    (Ok b, set_manual {| manual_database := manual_database (manualConfig st);
                         manual_backup := Some b;
                         manual_s3 := manual_s3 (manualConfig st) |} st).

Definition setManualS3Config (config : S3Input) (st : Store)
    : Result S3Config * Store :=
  if negb (configMode st =? "manual") then (Throw CannotSetManualInEnv, st)
  else if (JS.truthy (in_accessKeyId config) || JS.truthy (in_bucket config))
          && (negb (JS.truthy (in_accessKeyId config))
              || negb (JS.truthy (in_bucket config)))
  then (Throw S3KeyAndBucketRequired, st)
  else
    let forcePathStyle :=
      if JS.truthy (in_endpoint config) && negb (in_s3ForcePathStyle config)
      then shouldForcePathStyle (in_endpoint config)
      else in_s3ForcePathStyle config in
    let c := {| accessKeyId := JS.or_null (in_accessKeyId config);
                secretAccessKey := JS.or_null (in_secretAccessKey config);
                region := JS.or_default (in_region config) "us-east-1";
                bucket := JS.or_null (in_bucket config);
                prefix := JS.or_default (in_prefix config) "";
                endpoint := JS.or_null (in_endpoint config);
                s3ForcePathStyle := forcePathStyle |} in
    (Ok c, set_manual {| manual_database := manual_database (manualConfig st);
                         manual_backup := manual_backup (manualConfig st);
                         manual_s3 := Some c |} st).

Definition resetManualConfig (st : Store) : Result bool * Store :=
  if negb (configMode st =? "manual") then (Throw CanOnlyResetInManual, st)
  else (Ok true, set_manual empty_manual st).

Definition isLocalDatabase (h : string) : bool :=
  existsb (String.eqb h) ["localhost"; "127.0.0.1"; "postgres"; "::1"].

Definition getSSLMode (h : string) : string :=
  if isLocalDatabase h then "prefer" else "require".

End Config.

(** ** The world the engine runs in

    [files] are the entries of the configured backup directory, in the
    order [readdir] reports them; the entry [f] is the file at
    [path.join(localPath, name f)].  [objects] are the objects of the
    configured bucket in the order [listObjectsV2] reports them (no
    delimiter; a request is answered with one page, the first [MaxKeys] of
    the keys that start with the prefix).
    [s3_faults] scripts the coming requests to the object store, head
    first: [Some reason] makes the request fail with that message, [None]
    (or an exhausted script) lets it succeed.  [logs] holds what was handed
    to the logger, newest first.  [time_zone] is the time zone in which
    the process reads its clock.

    The entries of the directory are files that the process may unlink,
    and a request that the object store accepts is carried out. *)

(** A time zone, as [Date] sees it: [offset_at t] is the offset of local
    time from UTC, in milliseconds, in force at the time [t]
    ([LocalTime(t) = t + offset_at t]); [offset_of_local t] is the offset
    with which the local time [t] is read back
    ([UTC(t) = t - offset_of_local t]). *)
Record TimeZone : Type := {
  offset_at : Z -> Z;
  offset_of_local : Z -> Z
}.

Definition utc : TimeZone :=
  {| offset_at := fun _ => 0%Z; offset_of_local := fun _ => 0%Z |}.

Record LocalFile : Type := {
  name : string;
  file_size : Z;
  mtime : Z
}.

Record S3Object : Type := {
  Key : string;
  Size : Z;
  LastModified : Z
}.

Inductive LogEntry : Type :=
| info (msg : string)
| error (msg : string).

Record World : Type := {
  store : Config.Store;
  files : list LocalFile;
  objects : list S3Object;
  s3_faults : list (option string);
  logs : list LogEntry;
  time_zone : TimeZone
}.

Definition set_files (l : list LocalFile) (w : World) : World :=
  {| store := store w; files := l; objects := objects w;
     s3_faults := s3_faults w; logs := logs w; time_zone := time_zone w |}.

Definition set_objects (l : list S3Object) (w : World) : World :=
  {| store := store w; files := files w; objects := l;
     s3_faults := s3_faults w; logs := logs w; time_zone := time_zone w |}.

Definition set_faults (l : list (option string)) (w : World) : World :=
  {| store := store w; files := files w; objects := objects w;
     s3_faults := l; logs := logs w; time_zone := time_zone w |}.

Definition add_log (e : LogEntry) (w : World) : World :=
  {| store := store w; files := files w; objects := objects w;
     s3_faults := s3_faults w; logs := e :: logs w;
     time_zone := time_zone w |}.

(** Asynchronous functions: a computation takes the world and returns a
    value or a thrown error together with the world it leaves. *)
Definition M (A : Type) : Type := World -> Result A * World.

Definition ret {A} (a : A) : M A := fun w => (Ok a, w).

Definition throw {A} (e : Error) : M A := fun w => (Throw e, w).

Definition bind {A B} (m : M A) (k : A -> M B) : M B :=
  fun w =>
    match m w with
    | (Ok a, w') => k a w'
    | (Throw e, w') => (Throw e, w')
    end.

Definition try_catch {A} (m : M A) (handler : Error -> M A) : M A :=
  fun w =>
    match m w with
    | (Ok a, w') => (Ok a, w')
    | (Throw e, w') => handler e w'
    end.

Declare Scope m_scope.
Delimit Scope m_scope with M.
Notation "x <- m ;; k" := (bind m (fun x => k))
  (at level 61, m at next level, right associativity) : m_scope.
Notation "m ;;; k" := (bind m (fun _ => k))
  (at level 61, right associativity) : m_scope.
Local Open Scope m_scope.

Definition logger_info (msg : string) : M unit :=
  fun w => (Ok tt, add_log (info msg) w).

Definition logger_error (msg : string) : M unit :=
  fun w => (Ok tt, add_log (error msg) w).

(** One request to the object store: [Some reason] when it fails. *)
Definition s3_request : M (option string) :=
  fun w =>
    match s3_faults w with
    | [] => (Ok None, w)
    | r :: rest => (Ok r, set_faults rest w)
    end.

(** ** Artifacts *)

Inductive Location : Type := local | remote | both.

Definition Location_eqb (a b : Location) : bool :=
  match a, b with
  | local, local | remote, remote | both, both => true
  | _, _ => false
  end.

Record Backup : Type := {
  filename : string;
  size : Z;
  date : Z;
  location : Location;
  format : option string
}.

Definition with_location (l : Location) (b : Backup) : Backup :=
  {| filename := filename b; size := size b; date := date b;
     location := l; format := format b |}.

(** ** [lib/backup.js]: the local archive *)

Definition backupConfig (w : World) : Config.BackupConfig :=
  Config.getBackupConfig (store w).

(** The artifact that [listLocalBackups] builds for a directory entry. *)
Definition to_local (g : LocalFile) : Backup :=
  {| filename := name g;
     size := file_size g;
     date := mtime g;
     location := local;
     format := Some (if JS.endsWith (name g) ".dump" then "dump" else "sql") |}.

Definition is_backup_file (g : LocalFile) : bool :=
  JS.endsWith (name g) ".sql" || JS.endsWith (name g) ".dump".

(** [listLocalBackups]; failures of the file system are not part of the
    world, so the [catch] branch that returns [[]] is not reached. *)
Definition listLocalBackups (w : World) : list Backup :=
  map to_local (filter is_backup_file (files w)).

Definition getLocalBackupPath (w : World) (filename : string) : string :=
  Path.join (Config.localPath (backupConfig w)) (Path.basename filename).

Definition file_at (dir : string) (p : string) (f : LocalFile) : bool :=
  Path.join dir (name f) =? p.

(** The directories that the world knows of: the backup directory [dir]
    and the directories above it. *)
Definition is_directory (dir p : string) : bool :=
  Path.inside p dir ||
  (negb (Path.isAbsolute p) && forallb (String.eqb "..") (Path.segments p)).

(** The message of a failed [unlink] (on Linux, where the image of the
    repository runs). *)
Definition unlink_failure (dir p : string) : string :=
  (if is_directory dir p then "EISDIR: illegal operation on a directory"
   else "ENOENT: no such file or directory") ++ ", unlink '" ++ p ++ "'".

(** [fs.unlink]: the entry at path [p] is removed; the call fails for a
    directory, and when the backup directory has no entry at [p]. *)
Definition fs_unlink (p : string) : M unit :=
  fun w =>
    let dir := Config.localPath (backupConfig w) in
    if existsb (file_at dir p) (files w)
    then (Ok tt, set_files (filter (fun f => negb (file_at dir p f)) (files w)) w)
    else (Throw (SystemError (unlink_failure dir p)), w).

Definition deleteLocalBackup (filename : string) : M bool :=
  fun w =>
    let filepath :=
      Path.join (Config.localPath (backupConfig w)) (Path.basename filename) in
    try_catch (fs_unlink filepath ;;; ret true)
              (fun e => throw (LocalDeleteFailed (message e))) w.

(** ** [lib/storage/s3.js] *)

(** The configuration [getS3Config] returns.  In manual mode the call also
    stores the auto-detected [s3ForcePathStyle] back; no later read of the
    configuration is changed by that ([getS3Config_again] below), so the
    store is kept as it is here. *)
Definition s3Config (w : World) : Config.S3Config :=
  fst (Config.getS3Config (store w)).

Definition isS3Configured (w : World) : bool :=
  let config := s3Config w in
  JS.truthy (Config.accessKeyId config) &&
  JS.truthy (Config.secretAccessKey config) &&
  JS.truthy (Config.bucket config).

(** [config.prefix ? config.prefix.replace(/\/$/, "") + "/" : ""] *)
Definition key_prefix (w : World) : string :=
  let p := Config.prefix (s3Config w) in
  if p =? "" then "" else JS.strip_trailing_slash p ++ "/".

(** [listObjectsV2] answers a request with one page of at most [MaxKeys]
    keys, 1000 when the request names no other number (as here); the
    source does not ask for the pages after the first. *)
Definition MaxKeys : nat := 1000.

Definition first_page (l : list S3Object) : list S3Object := firstn MaxKeys l.

(** The artifact that [listS3Backups] builds for an object. *)
Definition to_remote (item : S3Object) : Backup :=
  {| filename := Path.basename (Key item);
     size := Size item;
     date := LastModified item;
     location := remote;
     format := None |}.

Definition listS3Backups : M (list Backup) :=
  fun w =>
    if negb (isS3Configured w) then (Ok [], w)
    else
      let searchPrefix := (key_prefix w ++ "backup_")%string in
      (failure <- s3_request ;;
       match failure with
       | Some _ => logger_error "Failed to list S3 backups" ;;; ret []
       | None =>
           ret (map to_remote
                    (first_page
                       (filter (fun item => JS.startsWith (Key item) searchPrefix)
                               (objects w))))
       end) w.

Definition deleteFromS3 (filename : string) : M bool :=
  fun w =>
    if negb (isS3Configured w) then (Throw S3NotConfigured, w)
    else
      let key := (key_prefix w ++ filename)%string in
      (failure <- s3_request ;;
       match failure with
       | Some reason => throw (S3DeleteFailed reason)
       | None =>
           fun w' =>
             (Ok true,
              set_objects (filter (fun o => negb (Key o =? key)) (objects w')) w')
       end) w.

(** A JavaScript [Map] from file names to artifacts keeps its keys in
    insertion order; [set] on a present key replaces the value in place. *)
Definition BackupMap : Type := list (string * Backup).

Definition map_has (k : string) (m : BackupMap) : bool :=
  existsb (fun e => fst e =? k) m.

Fixpoint map_get (k : string) (m : BackupMap) : option Backup :=
  match m with
  | [] => None
  | (k', v) :: r => if k' =? k then Some v else map_get k r
  end.

Fixpoint map_set (k : string) (v : Backup) (m : BackupMap) : BackupMap :=
  match m with
  | [] => [(k, v)]
  | (k', v') :: r => if k' =? k then (k, v) :: r else (k', v') :: map_set k v r
  end.

Definition map_values (m : BackupMap) : list Backup := map snd m.

(** [Array.prototype.sort] is stable; with the comparator
    [(a, b) => new Date(b.date) - new Date(a.date)] an element comes after
    the elements with a strictly later date and, among equal dates, stays
    in front of the elements that followed it.  [insert_by_date] puts the
    head of a list in its place among the sorted rest. *)
Fixpoint insert_by_date (x : Backup) (l : list Backup) : list Backup :=
  match l with
  | [] => [x]
  | y :: r => if (date y <=? date x)%Z then x :: y :: r
              else y :: insert_by_date x r
  end.

Definition sort_by_date_desc (l : list Backup) : list Backup :=
  fold_right insert_by_date [] l.

(** The two loops of [listAllBackups] over the listings it fetched. *)
Definition merge_local (localBackups : list Backup) (m : BackupMap) : BackupMap :=
  fold_left (fun m backup => map_set (filename backup) (with_location local backup) m)
            localBackups m.

Definition merge_remote_step (m : BackupMap) (backup : Backup) : BackupMap :=
  if map_has (filename backup) m then
    match map_get (filename backup) m with
    | Some existing => map_set (filename backup) (with_location both existing) m
    | None => m
    end
  else map_set (filename backup) (with_location remote backup) m.

Definition merge_remote (remoteBackups : list Backup) (m : BackupMap) : BackupMap :=
  fold_left merge_remote_step remoteBackups m.

Definition mergeBackups (localBackups remoteBackups : list Backup) : list Backup :=
  sort_by_date_desc
    (map_values (merge_remote remoteBackups (merge_local localBackups []))).

(** The values of [localBackups] and [remoteBackups] when the merge
    starts: an archive is asked for its listing only when the storage
    mode includes it (and, for the bucket, when S3 is configured). *)
Definition fetch_local (w : World) : list Backup :=
  let storage := Config.storage (backupConfig w) in
  if (storage =? "local") || (storage =? "both") then listLocalBackups w else [].

Definition fetch_remote : M (list Backup) :=
  fun w =>
    let storage := Config.storage (backupConfig w) in
    if ((storage =? "remote") || (storage =? "both")) && isS3Configured w
    then listS3Backups w else (Ok [], w).

Definition listAllBackups : M (list Backup) :=
  fun w =>
    let localBackups := fetch_local w in
    (remoteBackups <- fetch_remote ;;
     ret (mergeBackups localBackups remoteBackups)) w.

Record Stats : Type := {
  total : nat;
  stats_local : nat;
  stats_remote : nat;
  totalSize : Z
}.

Definition stats_step (stats : Stats) (backup : Backup) : Stats :=
  let totalSize' := (totalSize stats + size backup)%Z in
  match location backup with
  | local =>
      {| total := total stats; stats_local := S (stats_local stats);
         stats_remote := stats_remote stats; totalSize := totalSize' |}
  | remote =>
      {| total := total stats; stats_local := stats_local stats;
         stats_remote := S (stats_remote stats); totalSize := totalSize' |}
  | both =>
      {| total := total stats; stats_local := S (stats_local stats);
         stats_remote := S (stats_remote stats); totalSize := totalSize' |}
  end.

Definition stats_of (allBackups : list Backup) : Stats :=
  fold_left stats_step allBackups
    {| total := length allBackups; stats_local := 0; stats_remote := 0;
       totalSize := 0 |}.

Definition getBackupStats : M Stats :=
  allBackups <- listAllBackups ;; ret (stats_of allBackups).

(** ** [lib/backup.js]: retention *)

Definition day_ms : Z := 86400000.

(** The time values of a [Date] lie within [max_time] of the epoch;
    [TimeClip] turns every other number into [NaN], the invalid date
    ([None]). *)
Definition max_time : Z := 8640000000000000.

Definition TimeClip (t : Z) : option Z :=
  if (Z.abs t <=? max_time)%Z then Some t else None.

(** [retentionDate.setDate(retentionDate.getDate() - retentionDays)] on
    the current time [now]: the local time of [now] is moved back by
    whole days, read back as a time value and clipped.  [NaN] days give
    the invalid date. *)
Definition retentionDate (zone : TimeZone) (now : Z) (retentionDays : option Z)
    : option Z :=
  match retentionDays with
  | Some days =>
      let t := (now + offset_at zone now)%Z in
      let newDate := (t - days * day_ms)%Z in
      TimeClip (newDate - offset_of_local zone newDate)
  | None => None
  end.

(** [new Date(backup.date) < retentionDate] *)
Definition expired (cutoff : option Z) (backup : Backup) : bool :=
  match cutoff with
  | Some c => (date backup <? c)%Z
  | None => false
  end.

Definition delete_expired (backup : Backup) : M unit :=
  (if Location_eqb (location backup) local || Location_eqb (location backup) both
   then deleteLocalBackup (filename backup) ;;; ret tt else ret tt) ;;;
  (if Location_eqb (location backup) remote || Location_eqb (location backup) both
   then deleteFromS3 (filename backup) ;;; ret tt else ret tt).

Fixpoint retention_loop (cutoff : option Z) (allBackups : list Backup)
    (deletedCount : nat) : M nat :=
  match allBackups with
  | [] => ret deletedCount
  | backup :: rest =>
      if expired cutoff backup then
        deletedCount' <-
          try_catch
            (delete_expired backup ;;;
             logger_info ("Deleted old backup: " ++ filename backup) ;;;
             ret (S deletedCount))
            (fun _ =>
               logger_error ("Failed to delete old backup " ++ filename backup) ;;;
               ret deletedCount) ;;
        retention_loop cutoff rest deletedCount'
      else retention_loop cutoff rest deletedCount
  end.

Definition applyRetentionPolicy (now : Z) : M nat :=
  fun w =>
    let cutoff :=
      retentionDate (time_zone w) now (Config.retentionDays (backupConfig w)) in
    (allBackups <- listAllBackups ;; retention_loop cutoff allBackups 0) w.

(** ** [lib/backup.js]: creation *)

(** What [pg_dump] is started with, and what it answers: either the output
    file was written, or the command failed with a message, possibly
    leaving a partial output file behind. *)
Record DumpRequest : Type := {
  dump_host : string;
  dump_port : option Z;
  dump_user : string;
  dump_database : string;
  dump_schema : option string;
  dump_exclude_tables : list string;
  dump_custom_format : bool;
  dump_output : string;
  PGPASSWORD : string;
  PGSSLMODE : string
}.

Inductive DumpOutcome : Type :=
| DumpDone (written : Z)
| DumpFailed (diagnostic : string) (partial : option Z).

Record BackupResult : Type := {
  result_filename : string;
  result_path : string;
  result_size : Z;
  result_format : string
}.

(** [generateBackupFilename]; [iso] is [new Date().toISOString()]. *)
Definition generateBackupFilename (iso : string) (database : string)
    (format : string) : string :=
  let timestamp := JS.replace_all "." "-" (JS.replace_all ":" "-" iso) in
  let extension := if format =? "dump" then "dump" else "sql" in
  "backup_" ++ database ++ "_" ++ timestamp ++ "." ++ extension.

Fixpoint put_file (f : LocalFile) (l : list LocalFile) : list LocalFile :=
  match l with
  | [] => [f]
  | g :: r => if name g =? name f then f :: r else g :: put_file f r
  end.

(** A file written at path [p]: it becomes an entry of the backup
    directory when [p] is the path of an entry of that directory. *)
Definition fs_write (p : string) (written : Z) (time : Z) : M unit :=
  fun w =>
    let dir := Config.localPath (backupConfig w) in
    let entry := {| name := Path.basename p; file_size := written; mtime := time |} in
    if file_at dir p entry
    then (Ok tt, set_files (put_file entry (files w)) w)
    else (Ok tt, w).

Definition fs_stat (p : string) : M Z :=
  fun w =>
    let dir := Config.localPath (backupConfig w) in
    match find (file_at dir p) (files w) with
    | Some f => (Ok (file_size f), w)
    | None => (Throw (SystemError
                        ("ENOENT: no such file or directory, stat '" ++ p ++ "'")), w)
    end.

(** [format || backupConfig.format || "sql"] *)
Definition backup_format (format : option string) (w : World) : string :=
  JS.or_default format
    (JS.or_default (Some (Config.format (backupConfig w))) "sql").

(** The arguments and the environment of the [pg_dump] command. *)
Definition dump_request (dbConfig : Config.DatabaseConfig)
    (backupFormat filepath : string) : DumpRequest :=
  {| dump_host := Config.host dbConfig;
     dump_port := Config.port dbConfig;
     dump_user := Config.user dbConfig;
     dump_database := Config.database dbConfig;
     dump_schema := JS.or_null (Config.schema dbConfig);
     dump_exclude_tables :=
       map (fun table =>
              match JS.or_null (Config.schema dbConfig) with
              | Some s => (s ++ "." ++ table)%string
              | None => table
              end) (Config.excludeTables dbConfig);
     dump_custom_format := backupFormat =? "dump";
     dump_output := filepath;
     PGPASSWORD := Config.password dbConfig;
     PGSSLMODE := Config.getSSLMode (Config.host dbConfig) |}.

Section Creation.

Variable pg_dump : DumpRequest -> DumpOutcome.

(** [execAsync(command, ...)] *)
Definition exec_pg_dump (request : DumpRequest) (time : Z) : M unit :=
  match pg_dump request with
  | DumpDone written => fs_write (dump_output request) written time
  | DumpFailed diagnostic partial =>
      match partial with
      | Some written => fs_write (dump_output request) written time
      | None => ret tt
      end ;;; throw (SystemError diagnostic)
  end.

Definition createBackup (now : Z) (iso : string) (format : option string)
    : M BackupResult :=
  fun w =>
    match Config.getDatabaseConfig (store w) with
    | Throw e => (Throw e, w)
    | Ok dbConfig =>
        let backupFormat := backup_format format w in
        let filename :=
          generateBackupFilename iso (Config.database dbConfig) backupFormat in
        let filepath := Path.join (Config.localPath (backupConfig w)) filename in
        try_catch
          (exec_pg_dump (dump_request dbConfig backupFormat filepath) now ;;;
           written <- fs_stat filepath ;;
           ret {| result_filename := filename;
                  result_path := filepath;
                  result_size := written;
                  result_format := backupFormat |})
          (fun e =>
             try_catch (fs_unlink filepath) (fun _ => ret tt) ;;;
             throw (BackupFailed (message e))) w
    end.

End Creation.

(** ** [lib/storage/s3.js]: upload and download

    The content of a file or of an object is known by its size.  The
    message templates of the errors thrown below have no constructor of
    their own; [with_message] is the [Error] with a given message. *)

Definition with_message (msg : string) : Error := SystemError msg.

(** [fs.readFile] *)
Definition fs_readFile (p : string) : M Z :=
  fun w =>
    let dir := Config.localPath (backupConfig w) in
    match find (file_at dir p) (files w) with
    | Some f => (Ok (file_size f), w)
    | None => (Throw (SystemError
                        ("ENOENT: no such file or directory, open '" ++ p ++ "'")), w)
    end.

(** A put replaces the object stored under the key; the bucket lists its
    keys in ascending order. *)
Fixpoint insert_by_key (o : S3Object) (l : list S3Object) : list S3Object :=
  match l with
  | [] => [o]
  | x :: r => if String.ltb (Key x) (Key o) then x :: insert_by_key o r
              else o :: x :: r
  end.

Definition put_object (o : S3Object) (l : list S3Object) : list S3Object :=
  insert_by_key o (filter (fun x => negb (Key x =? Key o)) l).

(** [uploadToS3]; [time] is the time at which the store receives the
    object. *)
Definition uploadToS3 (time : Z) (filepath filename : string) : M bool :=
  fun w =>
    if negb (isS3Configured w) then (Throw S3NotConfigured, w)
    else
      (fileContent <- fs_readFile filepath ;;
       let key := (key_prefix w ++ filename)%string in
       failure <- s3_request ;;
       match failure with
       | Some reason => throw (with_message ("S3 upload failed: " ++ reason))
       | None =>
           fun w' =>
             (Ok true,
              set_objects (put_object {| Key := key; Size := fileContent;
                                         LastModified := time |} (objects w')) w')
       end) w.

(** [downloadFromS3]; the store refuses a key it does not hold. *)
Definition downloadFromS3 (time : Z) (filename destinationPath : string) : M bool :=
  fun w =>
    if negb (isS3Configured w) then (Throw S3NotConfigured, w)
    else
      let key := (key_prefix w ++ filename)%string in
      (failure <- s3_request ;;
       match failure with
       | Some reason => throw (with_message ("S3 download failed: " ++ reason))
       | None =>
           fun w' =>
             match find (fun o => Key o =? key) (objects w') with
             | Some data => (fs_write destinationPath (Size data) time ;;; ret true) w'
             | None =>
                 (Throw (with_message
                           "S3 download failed: The specified key does not exist."), w')
             end
       end) w.

(** ** [lib/validation.js]: the pattern of backup file names *)

(** The class [[\w-]]. *)
Definition is_word (c : ascii) : bool :=
  let n := nat_of_ascii c in
  ((48 <=? n)%nat && (n <=? 57)%nat) || ((65 <=? n)%nat && (n <=? 90)%nat) ||
  ((97 <=? n)%nat && (n <=? 122)%nat) || (n =? 95)%nat || (n =? 45)%nat.

Fixpoint drop_prefix (p s : string) : option string :=
  match p with
  | "" => Some s
  | String a p' =>
      match s with
      | "" => None
      | String b s' => if Ascii.eqb a b then drop_prefix p' s' else None
      end
  end.

(** [[\w-]+\.(sql|dump)$]: the dot is not in the class, so the run of
    class characters ends at the first other character, which has to be
    the dot in front of the extension; [seen] tells that the run is not
    empty. *)
Fixpoint word_run_extension (seen : bool) (s : string) : bool :=
  match s with
  | "" => false
  | String c r =>
      if is_word c then word_run_extension true r
      else seen && Ascii.eqb c "." && ((r =? "sql") || (r =? "dump"))
  end.

(** [/^backup_[\w-]+\.(sql|dump)$/] *)
Definition backup_name_pattern (s : string) : bool :=
  match drop_prefix "backup_" s with
  | Some rest => word_run_extension false rest
  | None => false
  end.

(** The chain [trim().notEmpty().matches(...)] of [validateFilename] and
    [validateRestore]. *)
Definition validateFilename (filename : string) : bool :=
  let value := JS.trim filename in
  negb (value =? "") && backup_name_pattern value.

(** ** [server.js]: the handlers of [POST /api/backups] and
       [DELETE /api/backups/:filename]

    A handler answers with a status code and a JSON body; the rate limiter
    and the validation run before it. *)

Inductive Response : Type :=
| Created (filename : string) (size : Z) (format location : string)
| Deleted (deletedLocal deletedRemote : bool)
| NotFound (message : string)
| ServerError (message : string).

Definition status (r : Response) : nat :=
  match r with
  | Created _ _ _ _ => 201
  | Deleted _ _ => 200
  | NotFound _ => 404
  | ServerError _ => 500
  end.

(** A number in a template literal. *)
Definition show_number (n : Z) : string := NilZero.string_of_int (Z.to_int n).

Definition delete_backup (param : string) : M Response :=
  try_catch
    (fun w =>
       let filename := Path.basename param in
       let storage := Config.storage (backupConfig w) in
       (deletedLocal <-
          (if (storage =? "local") || (storage =? "both")
           then try_catch (deleteLocalBackup filename ;;; ret true)
                  (fun _ => logger_error "Failed to delete local backup" ;;; ret false)
           else ret false) ;;
        deletedRemote <-
          (fun w1 =>
             if ((storage =? "remote") || (storage =? "both")) && isS3Configured w1
             then try_catch (deleteFromS3 filename ;;; ret true)
                    (fun _ => logger_error "Failed to delete remote backup" ;;; ret false)
                    w1
             else (Ok false, w1)) ;;
        ret (if deletedLocal || deletedRemote
             then Deleted deletedLocal deletedRemote
             else NotFound "Backup not found or could not be deleted")) w)
    (fun e => logger_error "Error deleting backup" ;;; ret (ServerError (message e))).

Section Jobs.

Variable pg_dump : DumpRequest -> DumpOutcome.

(** The upload that follows a creation when the storage mode includes the
    bucket. *)
Definition upload_created (storage : string) (uploaded : Z) (result : BackupResult)
    : M unit :=
  fun w =>
    if ((storage =? "remote") || (storage =? "both")) && isS3Configured w
    then (uploadToS3 uploaded (result_path result) (result_filename result) ;;;
          logger_info ("Backup uploaded to S3: " ++ result_filename result)) w
    else (Ok tt, w).

Definition post_backups (now : Z) (iso : string) (uploaded : Z)
    (format : option string) : M Response :=
  try_catch
    (fun w =>
       let storage := Config.storage (backupConfig w) in
       (result <- createBackup pg_dump now iso format ;;
        logger_info ("Backup created: " ++ result_filename result ++ " (" ++
                     show_number (result_size result) ++ " bytes)") ;;;
        upload_created storage uploaded result ;;;
        (fun w2 =>
           let location :=
             if storage =? "local" then "local"
             else if (storage =? "remote") && isS3Configured w2 then "remote"
             else if (storage =? "both") && isS3Configured w2 then "both"
             else "local" in
           (Ok (Created (result_filename result) (result_size result)
                        (result_format result) location), w2))) w)
    (fun e => logger_error "Error creating backup" ;;; ret (ServerError (message e))).

(** ** [lib/scheduler.js] *)

(** [executeBackupJob]; [now] and [iso] are the time of the creation,
    [uploaded] and [swept] the times of the upload and of the sweep. *)
Definition executeBackupJob (now : Z) (iso : string) (uploaded swept : Z) : M unit :=
  logger_info "Running scheduled backup..." ;;;
  try_catch
    (fun w =>
       let storage := Config.storage (backupConfig w) in
       (result <- createBackup pg_dump now iso None ;;
        logger_info ("Backup created: " ++ result_filename result ++ " (" ++
                     show_number (result_size result) ++ " bytes)") ;;;
        upload_created storage uploaded result ;;;
        deletedCount <- applyRetentionPolicy swept ;;
        logger_info ("Retention policy applied: " ++
                     show_number (Z.of_nat deletedCount) ++ " old backups deleted")) w)
    (fun _ => logger_error "Scheduled backup failed").

End Jobs.

(** The module state of the scheduler, and the tasks that [node-cron] has
    started and not stopped. *)
Record Task : Type := {
  task_id : nat;
  expression : string
}.

Record Scheduler : Type := {
  schedulerTask : option Task;
  isRunning : bool;
  currentSchedule : option string;
  started_tasks : list Task;
  next_task : nat
}.

Record Status : Type := {
  running : bool;
  status_schedule : option string
}.

Definition idle : Scheduler :=
  {| schedulerTask := None; isRunning := false; currentSchedule := None;
     started_tasks := []; next_task := 0 |}.

(** [task.stop()] *)
Definition stop_task (t : Task) (l : list Task) : list Task :=
  filter (fun x => negb (task_id x =? task_id t)%nat) l.

Definition stopScheduler (s : Scheduler) (w : World) : Status * (Scheduler * World) :=
  ({| running := false; status_schedule := None |},
   ({| schedulerTask := None;
       isRunning := false;
       currentSchedule := None;
       started_tasks :=
         match schedulerTask s with
         | Some t => stop_task t (started_tasks s)
         | None => started_tasks s
         end;
       next_task := next_task s |},
    add_log (info "Scheduler stopped") w)).

Section Scheduling.

(** [cron.validate] *)
Variable cron_validate : string -> bool.

Definition startScheduler (schedule : option string) (s : Scheduler) (w : World)
    : Result Status * (Scheduler * World) :=
  let '(s1, w1) := if isRunning s then snd (stopScheduler s w) else (s, w) in
  let scheduleToUse := JS.or_default schedule (Config.schedule (backupConfig w1)) in
  if negb (cron_validate scheduleToUse)
  then (Throw (with_message ("Invalid cron schedule: " ++ scheduleToUse)), (s1, w1))
  else
    let task := {| task_id := next_task s1; expression := scheduleToUse |} in
    (Ok {| running := true; status_schedule := Some scheduleToUse |},
     ({| schedulerTask := Some task;
         isRunning := true;
         currentSchedule := Some scheduleToUse;
         started_tasks := task :: started_tasks s1;
         next_task := S (next_task s1) |},
      add_log (info ("Scheduler started with schedule: " ++ scheduleToUse)) w1)).

Definition initializeScheduler (s : Scheduler) (w : World) : Scheduler * World :=
  let config := backupConfig w in
  if Config.auto config then
    match startScheduler (Some (Config.schedule config)) s w with
    | (Ok _, (s', w')) => (s', add_log (info "Auto-backup scheduler initialized") w')
    | (Throw _, (s', w')) => (s', add_log (error "Failed to initialize scheduler") w')
    end
  else (s, w).

End Scheduling.

(** * Vocabulary of the statements *)

(** ** Strings and paths *)

(** [e] contains [s] as a substring. *)
Definition contains (e s : string) : Prop :=
  exists a b, e = (a ++ s ++ b)%string.

Fixpoint has_sep (s : string) : bool :=
  match s with
  | "" => false
  | String c r => Ascii.eqb c Path.sep || has_sep r
  end.

(** The names a directory entry can have. *)
Definition valid_name (n : string) : bool :=
  negb (n =? "") && negb (n =? ".") && negb (n =? "..") && negb (has_sep n).

(** The text in front of the entry name in the path of an entry of [dir]. *)
Definition dir_base (dir : string) : string :=
  ((if Path.isAbsolute dir then "/" else "") ++
   String.concat "" (map (fun s => s ++ "/") (Path.segments dir)))%string.

(** The stacks [normalizeString] builds (top first): proper names above a
    run of [".."], which is there only when [allowAboveRoot] holds. *)
Inductive normal_stack (allow : bool) : list string -> Prop :=
| normal_nil : normal_stack allow []
| normal_name top rest :
    valid_name top = true -> normal_stack allow rest ->
    normal_stack allow (top :: rest)
| normal_up rest :
    allow = true -> Forall (eq "..") rest -> normal_stack allow (".." :: rest).

(** ** Configuration *)

(** The configuration [getS3Config] starts from, before the automatic
    detection: what the caller stored (manual mode) or put in the
    environment. *)
Definition configured_s3 (st : Config.Store) : option Config.S3Config :=
  if Config.configMode st =? "manual"
  then Config.manual_s3 (Config.manualConfig st)
  else Some (Config.env_s3 st).

(** With no manual values set. *)
Definition nothing_set (st : Config.Store) : Prop :=
  Config.configMode st = "manual" /\ Config.manualConfig st = Config.empty_manual.

(** ** Listings and the merge *)

Definition names (l : list Backup) : list string := map filename l.

Definition keys (m : BackupMap) : list string := map fst m.

Definition mem (k : string) (l : list string) : bool := existsb (String.eqb k) l.

Definition local_entry (b : Backup) : string * Backup :=
  (filename b, with_location local b).

Definition local_values (m : BackupMap) : Prop :=
  forall k v, In (k, v) m -> filename v = k /\ location v = local.

Definition mark_both (remoteNames : list string) (e : string * Backup)
    : string * Backup :=
  if mem (fst e) remoteNames then (fst e, with_location both (snd e)) else e.

Definition remote_entry (b : Backup) : string * Backup :=
  (filename b, with_location remote b).

Definition absent_from (ks : list string) (b : Backup) : bool :=
  negb (mem (filename b) ks).

(** The map that the two loops of [listAllBackups] build, before its
    values are sorted. *)
Definition merged_map (localBackups remoteBackups : list Backup) : BackupMap :=
  merge_remote remoteBackups (merge_local localBackups []).

Definition newer_first (a b : Backup) : Prop := (date b <= date a)%Z.

Definition location_of (f : string) (all : list Backup) : option Location :=
  option_map location (find (fun a => filename a =? f) all).

Definition expected_location (f : string) (localBackups remoteBackups : list Backup)
    : option Location :=
  match mem f (names localBackups), mem f (names remoteBackups) with
  | true, false => Some local
  | false, true => Some remote
  | true, true => Some both
  | false, false => None
  end.

Definition count_location (l : Location) (bs : list Backup) : nat :=
  length (filter (fun b => Location_eqb (location b) l) bs).

Definition sum_sizes (bs : list Backup) : Z :=
  fold_right (fun b acc => (size b + acc)%Z) 0%Z bs.

(** ** The sweep *)

Definition local_side (b : Backup) : bool :=
  Location_eqb (location b) local || Location_eqb (location b) both.

Definition remote_side (b : Backup) : bool :=
  Location_eqb (location b) remote || Location_eqb (location b) both.

(** The path and the key at which the sweep deletes the artifact [b]. *)
Definition local_path (w : World) (b : Backup) : string :=
  Path.join (Config.localPath (backupConfig w)) (Path.basename (filename b)).

Definition remote_key (w : World) (b : Backup) : string :=
  (key_prefix w ++ filename b)%string.

Definition has_file_at (w : World) (p : string) (u : World) : bool :=
  existsb (file_at (Config.localPath (backupConfig w)) p) (files u).

Definition has_object (k : string) (u : World) : bool :=
  existsb (fun o => Key o =? k) (objects u).

(** In the world [u] the artifact [b] is gone from the archives its
    location names. *)
Definition removed (w : World) (b : Backup) (u : World) : Prop :=
  (local_side b = true -> has_file_at w (local_path w b) u = false) /\
  (remote_side b = true -> has_object (remote_key w b) u = false).

(** What the sweep hands to the logger for an expired artifact. *)
Definition sweep_log (b : Backup) (deleted : bool) : LogEntry :=
  if deleted then info ("Deleted old backup: " ++ filename b)
  else error ("Failed to delete old backup " ++ filename b).

Definition count_true (l : list bool) : nat := length (filter (fun x => x) l).

(** The entries of the directory that the local deletions of a sweep over
    [l] remove. *)
Definition swept_file (w : World) (cutoff : option Z) (l : list Backup)
    (g : LocalFile) : bool :=
  existsb (fun b => expired cutoff b && local_side b &&
                    file_at (Config.localPath (backupConfig w)) (local_path w b) g) l.

Definition sweep_logs (l : list Backup) (outcomes : list bool) : list LogEntry :=
  rev (map (fun p => sweep_log (fst p) (snd p)) (combine l outcomes)).

Definition swept_object (w : World) (cutoff : option Z) (l : list Backup)
    (o : S3Object) : bool :=
  existsb (fun b => expired cutoff b && remote_side b && (Key o =? remote_key w b)) l.

(** ** Worlds in which every deletion succeeds *)

(** The objects that [listS3Backups] asks for. *)
Definition listed (w : World) (o : S3Object) : bool :=
  JS.startsWith (Key o) (key_prefix w ++ "backup_").

Definition local_gate (w : World) : bool :=
  (Config.storage (backupConfig w) =? "local") ||
  (Config.storage (backupConfig w) =? "both").

Definition remote_gate (w : World) : bool :=
  ((Config.storage (backupConfig w) =? "remote") ||
   (Config.storage (backupConfig w) =? "both")) && isS3Configured w.

(** What the bucket lists when the request succeeds: the first page. *)
Definition remote_listing (w : World) : list Backup :=
  if remote_gate w
  then map to_remote (first_page (filter (listed w) (objects w))) else [].

(** The keys that the listing asks for fit in one page. *)
Definition one_page (w : World) : Prop :=
  (length (filter (listed w) (objects w)) <= MaxKeys)%nat.


(** The entries of the directory have proper, pairwise distinct names; the
    keys of the bucket are pairwise distinct, and every key that the
    listing asks for is the prefix followed by the base name of the key
    (the keys [uploadToS3] writes have this form). *)
Definition flat_keys (w : World) : Prop :=
  forall o, In o (objects w) -> listed w o = true ->
            Key o = (key_prefix w ++ Path.basename (Key o))%string.

Definition well_formed (w : World) : Prop :=
  Forall (fun g => valid_name (name g) = true) (files w) /\
  NoDup (map name (files w)) /\
  NoDup (map Key (objects w)) /\
  flat_keys w.

(** No file or object of [w] is dated between the two cutoffs. *)
Definition none_newly_expired (w : World) (cutoff1 cutoff2 : option Z) : Prop :=
  forall b, In (date b) (map mtime (files w) ++ map LastModified (objects w)) ->
            expired cutoff2 b = true -> expired cutoff1 b = true.

(** The merged list of a world in which the listing request succeeds. *)
Definition listing (w : World) : list Backup :=
  mergeBackups (fetch_local w) (remote_listing w).

(** ** Example configurations and worlds

    In the example worlds the environment configures S3 and the storage
    mode; the retention is the default of 7 days and the process runs in
    UTC. *)

Definition supabase_env : list (string * string) :=
  [("AWS_ACCESS_KEY_ID", "key"); ("AWS_S3_BUCKET", "backups");
   ("AWS_S3_ENDPOINT", "https://abc.supabase.co/storage/v1/s3")].

Definition manual_store : Config.Store :=
  Config.initial [("CONFIG_MODE", "manual")].

(** A store whose mode is neither of the two names. *)
Definition static_store : Config.Store :=
  Config.initial [("CONFIG_MODE", "static")].

Definition s3_env : list (string * string) :=
  [("AWS_ACCESS_KEY_ID", "AKIAEXAMPLE"); ("AWS_SECRET_ACCESS_KEY", "secret");
   ("AWS_S3_BUCKET", "backups")].

Definition world_of (storage : string) (fs : list LocalFile) (os : list S3Object)
    (faults : list (option string)) : World :=
  {| store := Config.initial (("BACKUP_STORAGE", storage) :: s3_env);
     files := fs; objects := os; s3_faults := faults; logs := [];
     time_zone := utc |}.

Definition file_a : LocalFile :=
  {| name := "backup_a.sql"; file_size := 10; mtime := 1000 |}.
Definition file_b : LocalFile :=
  {| name := "backup_b.sql"; file_size := 20; mtime := 3000 |}.
Definition object_a : S3Object :=
  {| Key := "backup_a.sql"; Size := 10; LastModified := 1500 |}.
Definition object_b : S3Object :=
  {| Key := "backup_b.sql"; Size := 20; LastModified := 3500 |}.
Definition object_c : S3Object :=
  {| Key := "backup_c.dump"; Size := 30; LastModified := 2000 |}.

Definition both_world : World :=
  world_of "both" [file_a; file_b] [object_b; object_c] [].

Definition both_world_remote : list Backup :=
  [{| filename := "backup_b.sql"; size := 20; date := 3500;
      location := remote; format := None |};
   {| filename := "backup_c.dump"; size := 30; date := 2000;
      location := remote; format := None |}].

Definition failing_pg_dump (request : DumpRequest) : DumpOutcome :=
  DumpFailed "Command failed: pg_dump: error: connection to server failed"
             (Some 512%Z).

(** A time zone that moves its clocks forward by an hour at the time
    1000000000000. *)
Definition summer_zone : TimeZone :=
  {| offset_at := fun t => if (t <? 1000000000000)%Z then 3600000%Z else 7200000%Z;
     offset_of_local :=
       fun t => if (t <? 1000003600000)%Z then 3600000%Z else 7200000%Z |}.

(** A [pg_dump] that cannot connect and writes nothing, and the backup
    of an earlier run. *)
Definition refused_pg_dump (request : DumpRequest) : DumpOutcome :=
  DumpFailed "Command failed: pg_dump: error: connection refused" None.

Definition earlier_backup : LocalFile :=
  {| name := "backup_postgres_2024-01-01T02-00-00-000Z.sql";
     file_size := 2048; mtime := 5000 |}.

(** The object of a numbered backup. *)
Definition numbered_object (n : nat) : S3Object :=
  {| Key := "backup_" ++ show_number (Z.of_nat n) ++ ".sql";
     Size := 1; LastModified := Z.of_nat n |}.

Definition nested_a : S3Object :=
  {| Key := "backup_2023/backup_a.sql"; Size := 10; LastModified := 900 |}.

Definition transient_world : World :=
  world_of "remote" [] [object_a] [None; Some "RequestTimeout"].

Definition file_new : LocalFile :=
  {| name := "backup_new.dump"; file_size := 40; mtime := 999000000 |}.

Definition steady_world : World :=
  world_of "both" [file_a; file_b; file_new] [object_b; object_c] [].

(** ** Example inputs of the manual setters *)

Definition database_input : Config.DatabaseInput :=
  {| Config.in_host := Some "db.example.com";
     Config.in_port := Some "abc";
     Config.in_user := Some "admin";
     Config.in_password := None;
     Config.in_database := Some "app";
     Config.in_schema := Some "";
     Config.in_excludeTables := Config.TablesString "logs, ,sessions" |}.

Definition backup_input : Config.BackupInput :=
  {| Config.in_auto := true;
     Config.in_schedule := None;
     Config.in_retentionDays := Some "0";
     Config.in_storage := Some "both";
     Config.in_localPath := Some "";
     Config.in_format := Some "dump" |}.

Definition s3_input : Config.S3Input :=
  {| Config.in_accessKeyId := Some "key";
     Config.in_secretAccessKey := None;
     Config.in_region := None;
     Config.in_bucket := Some "backups";
     Config.in_prefix := Some "nightly/";
     Config.in_endpoint := Some "http://MinIO.internal:9000";
     Config.in_s3ForcePathStyle := false |}.

(** ** Further vocabulary of the configuration and of the merge *)

(** The store with another environment. *)
Definition set_env (e : list (string * string)) (st : Config.Store) : Config.Store :=
  {| Config.configMode := Config.configMode st;
     Config.manualConfig := Config.manualConfig st;
     Config.process_env := e |}.

(** Two code units that are one letter, in either case, and two strings
    that differ by the case of their letters only.  The capital letters
    among the code units below 256 are [A] to [Z] and U+00C0 to U+00DE
    without the sign U+00D7; the small letter is 32 further. *)
Definition capital (n : nat) : bool :=
  ((65 <=? n)%nat && (n <=? 90)%nat) ||
  ((192 <=? n)%nat && (n <=? 222)%nat && negb (n =? 215)%nat).

Definition same_letter (c d : ascii) : bool :=
  let m := nat_of_ascii c in
  let n := nat_of_ascii d in
  (m =? n)%nat || (capital m && (n =? m + 32)%nat)
               || (capital n && (m =? n + 32)%nat).

Fixpoint same_text (a b : string) : bool :=
  match a, b with
  | "", "" => true
  | String c a', String d b' => same_letter c d && same_text a' b'
  | _, _ => false
  end.

(** Every value of the map is stored under its own file name. *)
Definition keyed (m : BackupMap) : Prop :=
  forall k v, In (k, v) m -> filename v = k.

(** The artifacts of [l] whose file name is in [ks]. *)
Definition present_in (ks : list string) (b : Backup) : bool :=
  mem (filename b) ks.

(** ** Further example worlds *)

(** S3 is given a key and a bucket, but no secret. *)
Definition no_secret_world : World :=
  {| store := Config.initial [("BACKUP_STORAGE", "both"); ("AWS_ACCESS_KEY_ID", "key");
                              ("AWS_S3_BUCKET", "backups")];
     files := [file_a]; objects := [object_a; object_c];
     s3_faults := [Some "AccessDenied"]; logs := []; time_zone := utc |}.

(** The retention is not a number. *)
Definition no_retention_world : World :=
  {| store := Config.initial (("BACKUP_STORAGE", "both") ::
                              ("BACKUP_RETENTION_DAYS", "never") :: s3_env);
     files := [file_a]; objects := [object_a; object_c];
     s3_faults := []; logs := []; time_zone := utc |}.

(** ** The sweep of the directory *)

(** The file that the sweep of a directory removes: a listed backup file
    older than the cutoff. *)
Definition expired_file (w : World) (cutoff : option Z) (g : LocalFile) : bool :=
  local_gate w && is_backup_file g && expired cutoff (to_local g).

(** ** File names *)

Fixpoint all_chars (p : ascii -> bool) (s : string) : bool :=
  match s with
  | "" => true
  | String c r => p c && all_chars p r
  end.

(** The characters of [toISOString]: digits, letters, [-], [:] and [.]. *)
Definition iso_char (c : ascii) : bool :=
  is_word c || Ascii.eqb c ":" || Ascii.eqb c ".".

(** ** Creation: an example *)

(** A [pg_dump] that writes 2048 bytes. *)
Definition done_pg_dump (request : DumpRequest) : DumpOutcome := DumpDone 2048.

(** ** Handlers and jobs *)

(** The head of the fault script lets the next request through. *)
Definition next_request_succeeds (w : World) : bool :=
  match s3_faults w with
  | Some _ :: _ => false
  | _ => true
  end.

(** The [location] that [POST /api/backups] puts in its answer. *)
Definition answered_location (w : World) : string :=
  let storage := Config.storage (backupConfig w) in
  if storage =? "local" then "local"
  else if (storage =? "remote") && isS3Configured w then "remote"
  else if (storage =? "both") && isS3Configured w then "both"
  else "local".

(** ** The scheduler *)

(** The tasks started and not stopped are the task the module holds, if
    any; the flag and the schedule of the module agree with it. *)
Definition one_task (s : Scheduler) : Prop :=
  started_tasks s = match schedulerTask s with Some t => [t] | None => [] end /\
  isRunning s = match schedulerTask s with Some _ => true | None => false end /\
  currentSchedule s = option_map expression (schedulerTask s).

(** A validator that accepts the expressions of five fields. *)
Definition five_fields (expression : string) : bool :=
  (length (JS.split " " expression) =? 5)%nat.

(** A scheduler that runs the default schedule. *)
Definition nightly : Scheduler :=
  {| schedulerTask := Some {| task_id := 0; expression := "0 2 * * *" |};
     isRunning := true;
     currentSchedule := Some "0 2 * * *";
     started_tasks := [{| task_id := 0; expression := "0 2 * * *" |}];
     next_task := 1 |}.

(** ** After a sweep *)

Definition unexpired (cutoff : option Z) (b : Backup) : bool :=
  negb (expired cutoff b).

(** The entry whose date decides for the remote entry [y]: the local
    entry of the same file name, if there is one. *)
Definition decides (l : list Backup) (y : Backup) : Backup :=
  match find (fun x => filename x =? filename y) l with
  | Some x => x
  | None => y
  end.

(** * Properties *)

Local Arguments Ascii.eqb : simpl never.

(** ** Paths: examples *)

Example basename_traversal : Path.basename "../../etc/passwd" = "passwd".
Proof. reflexivity. Qed.

Example basename_dotdot : Path.basename ".." = "..".
Proof. reflexivity. Qed.

Example basename_trailing : Path.basename "a/b//" = "b".
Proof. reflexivity. Qed.

Example join_traversal : Path.join "./backups" "passwd" = "backups/passwd".
Proof. reflexivity. Qed.

Example join_dotdot : Path.join "./backups" ".." = ".".
Proof. reflexivity. Qed.

Example join_abs : Path.join "/var/lib//backups/" "x.sql" = "/var/lib/backups/x.sql".
Proof. reflexivity. Qed.

Example parseInt_ex :
  JS.parseInt " 42px" = Some 42%Z /\ JS.parseInt "abc" = None /\
  JS.parseInt "-7" = Some (-7)%Z /\ JS.parseInt "0x1f" = Some 31%Z /\
  JS.parseInt "9007199254740993" = Some 9007199254740992%Z /\
  JS.parseInt "-9007199254740995" = Some (-9007199254740996)%Z /\
  JS.parseInt "123456789012345678901234567890"
    = Some 123456789012345677877719597056%Z.
Proof. repeat split; vm_compute; reflexivity. Qed.

(** ** Strings *)

Lemma prefix_app (s t : string) : JS.is_prefix s (s ++ t) = true.
Proof.
  induction s as [|c s IH]; simpl; [reflexivity|].
  now rewrite Ascii.eqb_refl, IH.
Qed.

Lemma includes_prefix (s sub : string) :
  JS.is_prefix sub s = true -> JS.includes s sub = true.
Proof. intros H. destruct s; cbn [JS.includes]; rewrite H; reflexivity. Qed.

Lemma includes_app (a s b : string) : JS.includes (a ++ s ++ b) s = true.
Proof.
  induction a as [|c a IH].
  - change ("" ++ s ++ b)%string with (s ++ b)%string.
    apply includes_prefix, prefix_app.
  - cbn [JS.includes append]. fold append. rewrite IH. apply orb_true_r.
Qed.

Lemma toLowerCase_app (a b : string) :
  JS.toLowerCase (a ++ b) = (JS.toLowerCase a ++ JS.toLowerCase b)%string.
Proof.
  induction a as [|c a IH]; simpl; [reflexivity | now rewrite IH].
Qed.

Lemma includes_lower (e s : string) :
  JS.toLowerCase s = s -> contains e s -> JS.includes (JS.toLowerCase e) s = true.
Proof.
  intros Hs (a & b & ->).
  rewrite !toLowerCase_app, Hs. apply includes_app.
Qed.

(** ** Configuration store *)

Lemma services_lower :
  Forall (fun s => JS.toLowerCase s = s) Config.forcePathStyleServices.
Proof. repeat constructor. Qed.

Lemma shouldForcePathStyle_contains (e service : string) :
  In service Config.forcePathStyleServices ->
  contains e service ->
  Config.shouldForcePathStyle (Some e) = true.
Proof.
  intros Hin Hc.
  assert (Hl : JS.toLowerCase service = service).
  { pose proof services_lower as F. rewrite Forall_forall in F. now apply F. }
  assert (Hne : exists c r, e = String c r).
  { destruct Hc as (a & b & ->).
    destruct a as [|c a]; simpl; [|now eauto].
    destruct service as [|c s]; simpl; [|now eauto].
    simpl in Hin. repeat (destruct Hin as [Hin|Hin]; [discriminate Hin|]).
    contradiction. }
  destruct Hne as (c & r & ->).
  unfold Config.shouldForcePathStyle.
  apply existsb_exists. exists service. split; [exact Hin|].
  now apply includes_lower.
Qed.

Lemma getS3Config_configured (st : Config.Store) (c : Config.S3Config) :
  configured_s3 st = Some c ->
  fst (Config.getS3Config st) = Config.auto_detect c.
Proof.
  unfold configured_s3, Config.getS3Config.
  destruct (Config.configMode st =? "manual").
  - intros ->. reflexivity.
  - intros [= <-]. reflexivity.
Qed.

Lemma auto_detect_idempotent (c : Config.S3Config) :
  Config.auto_detect (Config.auto_detect c) = Config.auto_detect c.
Proof.
  destruct c as [k s r b p e f]. unfold Config.auto_detect.
  cbn [Config.endpoint Config.s3ForcePathStyle].
  remember (Config.shouldForcePathStyle e) as detected.
  destruct (JS.truthy e) eqn:Et, f; cbn [andb negb];
    cbn [Config.endpoint Config.s3ForcePathStyle Config.with_forcePathStyle];
    rewrite ?Et; cbn [andb negb]; try reflexivity.
  rewrite <- Heqdetected. destruct detected; reflexivity.
Qed.

(** The write of [getS3Config] into the stored object changes nothing
    that a later read returns: the same S3 configuration, the same backup
    and database configuration. *)
Lemma getS3Config_again (st : Config.Store) :
  let st' := snd (Config.getS3Config st) in
  fst (Config.getS3Config st') = fst (Config.getS3Config st) /\
  Config.getBackupConfig st' = Config.getBackupConfig st /\
  Config.getDatabaseConfig st' = Config.getDatabaseConfig st /\
  Config.configMode st' = Config.configMode st.
Proof.
  cbv zeta. unfold Config.getS3Config.
  destruct (Config.configMode st =? "manual") eqn:Em.
  - destruct (Config.manual_s3 (Config.manualConfig st)) as [c|] eqn:Ec.
    + cbn [fst snd].
      unfold Config.getBackupConfig, Config.getDatabaseConfig, Config.set_manual.
      cbn [Config.configMode Config.manualConfig Config.manual_s3
           Config.manual_backup Config.manual_database Config.process_env].
      rewrite Em. cbn [fst]. rewrite auto_detect_idempotent. repeat split.
    + cbn [fst snd]. rewrite Em, Ec. repeat split.
  - cbn [fst snd]. rewrite Em. repeat split.
Qed.

(** C7: when the configured endpoint contains one of the five provider
    names, [getS3Config] returns [s3ForcePathStyle = true]; with the
    endpoint ["https://s3.amazonaws.com"] and the flag not set by the
    caller it returns [false]. *)
Theorem getS3Config_forcePathStyle (st : Config.Store) (c : Config.S3Config)
    (e : string) :
  configured_s3 st = Some c ->
  Config.s3ForcePathStyle c = false ->
  Config.endpoint c = Some e ->
  ((exists service,
      In service ["supabase.co"; "minio"; "localhost"; "127.0.0.1";
                  "digitaloceanspaces.com"] /\ contains e service) ->
   Config.s3ForcePathStyle (fst (Config.getS3Config st)) = true) /\
  (e = "https://s3.amazonaws.com" ->
   Config.s3ForcePathStyle (fst (Config.getS3Config st)) = false).
Proof.
  intros Hc Hflag He.
  rewrite (getS3Config_configured _ _ Hc).
  unfold Config.auto_detect. rewrite Hflag, He. split.
  - intros (service & Hin & Hcont).
    pose proof (shouldForcePathStyle_contains e service Hin Hcont) as H.
    assert (Ht : JS.truthy (Some e) = true).
    { unfold Config.shouldForcePathStyle in H. destruct e; [discriminate H | reflexivity]. }
    rewrite Ht. simpl. exact H.
  - intros ->. reflexivity.
Qed.

Lemma getS3Config_forcePathStyle_witness :
  Config.s3ForcePathStyle (fst (Config.getS3Config (Config.initial supabase_env)))
  = true.
Proof.
  refine (proj1 (getS3Config_forcePathStyle (Config.initial supabase_env)
                   (Config.env_s3 (Config.initial supabase_env))
                   "https://abc.supabase.co/storage/v1/s3"
                   eq_refl eq_refl eq_refl) _).
  exists "supabase.co". split.
  - simpl. tauto.
  - exists "https://abc.", "/storage/v1/s3". reflexivity.
Defined.

(** The setter performs the same detection when it stores the object. *)
Lemma setManualS3Config_forcePathStyle (config : Config.S3Input)
    (st st' : Config.Store) (c : Config.S3Config) (e service : string) :
  Config.setManualS3Config config st = (Ok c, st') ->
  Config.in_endpoint config = Some e ->
  In service Config.forcePathStyleServices ->
  contains e service ->
  Config.s3ForcePathStyle c = true /\
  Config.s3ForcePathStyle (fst (Config.getS3Config st')) = true.
Proof.
  intros Hset He Hin Hcont.
  pose proof (shouldForcePathStyle_contains e service Hin Hcont) as H.
  assert (Ht : JS.truthy (Some e) = true).
  { unfold Config.shouldForcePathStyle in H. destruct e; [discriminate H | reflexivity]. }
  unfold Config.setManualS3Config in Hset.
  destruct (Config.configMode st =? "manual") eqn:Hm; simpl in Hset; [|discriminate Hset].
  match type of Hset with (if ?b then _ else _) = _ => destruct b end;
    [discriminate Hset|].
  injection Hset as Hc Hst. rewrite Hc in Hst. rewrite He, Ht in Hc.
  assert (Hflag : Config.s3ForcePathStyle c = true).
  { rewrite <- Hc. simpl.
    destruct (Config.in_s3ForcePathStyle config); simpl; [reflexivity | exact H]. }
  split; [exact Hflag|].
  rewrite <- Hst. unfold Config.getS3Config. simpl. rewrite Hm. simpl.
  unfold Config.auto_detect. rewrite Hflag, andb_false_r. exact Hflag.
Qed.

Lemma resetManualConfig_clears (st : Config.Store) :
  Config.configMode st = "manual" ->
  fst (Config.resetManualConfig st) = Ok true /\
  nothing_set (snd (Config.resetManualConfig st)).
Proof.
  intros Hm. unfold Config.resetManualConfig. rewrite Hm. simpl.
  split; [reflexivity | split; [exact Hm | reflexivity]].
Qed.

(** C6: in manual mode with no values set, and right after
    [resetManualConfig], [getDatabaseConfig] throws the
    configuration-missing error while [getBackupConfig] returns the
    defaults: schedule ["0 2 * * *"], 7 retention days, storage
    ["local"], format ["sql"]. *)
Theorem manual_mode_unset_config (st st' : Config.Store) :
  Config.configMode st = "manual" ->
  (st' = st /\ Config.manualConfig st = Config.empty_manual) \/
  st' = snd (Config.resetManualConfig st) ->
  (exists e, Config.getDatabaseConfig st' = Throw e /\ ConfigurationMissing e) /\
  Config.schedule (Config.getBackupConfig st') = "0 2 * * *" /\
  Config.retentionDays (Config.getBackupConfig st') = Some 7%Z /\
  Config.storage (Config.getBackupConfig st') = "local" /\
  Config.format (Config.getBackupConfig st') = "sql".
Proof.
  intros Hm Hst.
  assert (Hn : nothing_set st').
  { destruct Hst as [[-> He] | ->].
    - now split.
    - now apply resetManualConfig_clears. }
  destruct Hn as [Hm' He'].
  unfold Config.getDatabaseConfig, Config.getBackupConfig.
  rewrite Hm', He'. simpl.
  split; [exists ManualDatabaseNotSet; split; reflexivity | repeat split].
Qed.

Lemma manual_mode_unset_config_witness :
  (exists e, Config.getDatabaseConfig manual_store = Throw e /\
             ConfigurationMissing e) /\
  Config.schedule (Config.getBackupConfig manual_store) = "0 2 * * *" /\
  Config.retentionDays (Config.getBackupConfig manual_store) = Some 7%Z /\
  Config.storage (Config.getBackupConfig manual_store) = "local" /\
  Config.format (Config.getBackupConfig manual_store) = "sql".
Proof.
  apply (manual_mode_unset_config manual_store manual_store).
  - reflexivity.
  - left. split; reflexivity.
Defined.

(** C8, the claim as stated (for [setMode]): a call in static mode fails
    and leaves the store unchanged.  It does not hold: [setConfigMode] is
    the switch between the modes and does not look at the current one. *)
Lemma setConfigMode_succeeds_in_env_mode :
  let st := Config.initial [] in
  Config.configMode st = "env" /\
  fst (Config.setConfigMode "manual" st) = Ok "manual" /\
  Config.configMode (snd (Config.setConfigMode "manual" st)) = "manual" /\
  ~ (exists e, Config.setConfigMode "manual" st = (Throw e, st) /\
               InvalidModeOperation e).
Proof.
  simpl. repeat split. intros (e & H & _). discriminate H.
Qed.

(** C8, amended: whenever the mode is not ["manual"] (the static mode
    ["env"], or any other value that [CONFIG_MODE] gave), the three manual
    setters and [resetManualConfig] throw the invalid-mode error and leave
    the store unchanged, and in the mode ["manual"] none of them throws
    that error.  [setConfigMode] does not look at the current mode: in
    every mode it accepts ["env"] and ["manual"] and switches to it, and
    it rejects any other name, with another error, without changing the
    store. *)
Theorem manual_setters_need_manual_mode (st : Config.Store) :
  (Config.configMode st <> "manual" ->
   (forall config, exists e,
       Config.setManualDatabaseConfig config st = (Throw e, st) /\
       InvalidModeOperation e) /\
   (forall config, exists e,
       Config.setManualBackupConfig config st = (Throw e, st) /\
       InvalidModeOperation e) /\
   (forall config, exists e,
       Config.setManualS3Config config st = (Throw e, st) /\
       InvalidModeOperation e) /\
   (exists e, Config.resetManualConfig st = (Throw e, st) /\
              InvalidModeOperation e)) /\
  (Config.configMode st = "manual" ->
   (forall config e, fst (Config.setManualDatabaseConfig config st) = Throw e ->
                     ~ InvalidModeOperation e) /\
   (forall config, exists b, fst (Config.setManualBackupConfig config st) = Ok b) /\
   (forall config e, fst (Config.setManualS3Config config st) = Throw e ->
                     ~ InvalidModeOperation e) /\
   fst (Config.resetManualConfig st) = Ok true) /\
  (forall mode, mode = "env" \/ mode = "manual" ->
      Config.setConfigMode mode st = (Ok mode, Config.set_mode mode st) /\
      Config.getConfigMode (Config.set_mode mode st) = mode) /\
  (forall mode, mode <> "env" -> mode <> "manual" ->
      Config.setConfigMode mode st = (Throw InvalidConfigMode, st) /\
      ~ InvalidModeOperation InvalidConfigMode).
Proof.
  unfold Config.setManualDatabaseConfig, Config.setManualBackupConfig,
    Config.setManualS3Config, Config.resetManualConfig, Config.setConfigMode.
  split; [|split; [|split]].
  - intros Hm. apply String.eqb_neq in Hm. rewrite Hm. cbn [negb].
    repeat split.
    + intros _. exists CannotSetManualInEnv. split; [reflexivity | now left].
    + intros _. exists CannotSetManualInEnv. split; [reflexivity | now left].
    + intros _. exists CannotSetManualInEnv. split; [reflexivity | now left].
    + exists CanOnlyResetInManual. split; [reflexivity | now right].
  - intros Hm. rewrite Hm. change ("manual" =? "manual") with true. cbn [negb].
    repeat split.
    + intros config e. destruct (_ || _); cbn [fst]; intros [= <-].
      intros [H|H]; discriminate H.
    + intros config. eexists. reflexivity.
    + intros config e. destruct (_ && _); cbn [fst]; intros [= <-].
      intros [H|H]; discriminate H.
  - intros mode [-> | ->]; split; reflexivity.
  - intros mode H1 H2.
    apply String.eqb_neq in H1. apply String.eqb_neq in H2.
    rewrite H1, H2. split; [reflexivity|]. intros [H|H]; discriminate H.
Qed.

(** The setters in a store that started with [CONFIG_MODE=static], and in
    the same store after the switch to the manual mode. *)
Lemma manual_setters_need_manual_mode_witness :
  Config.configMode static_store = "static" /\
  (exists e, Config.setManualBackupConfig backup_input static_store
             = (Throw e, static_store) /\ InvalidModeOperation e) /\
  (exists e, Config.resetManualConfig static_store = (Throw e, static_store) /\
             InvalidModeOperation e) /\
  Config.setConfigMode "manual" static_store =
    (Ok "manual", Config.set_mode "manual" static_store) /\
  fst (Config.resetManualConfig (Config.set_mode "manual" static_store)) = Ok true.
Proof.
  unfold static_store.
  pose proof (manual_setters_need_manual_mode
                (Config.initial [("CONFIG_MODE", "static")])) as (Hstatic & _ & Hset & _).
  pose proof (manual_setters_need_manual_mode
                (Config.set_mode "manual" (Config.initial [("CONFIG_MODE", "static")])))
    as (_ & Hmanual & _).
  assert (Hne : Config.configMode (Config.initial [("CONFIG_MODE", "static")])
                <> "manual") by discriminate.
  destruct (Hstatic Hne) as (_ & Hbackup & _ & Hreset).
  split; [reflexivity|]. split; [exact (Hbackup backup_input)|].
  split; [exact Hreset|].
  split; [exact (proj1 (Hset "manual" (or_intror eq_refl)))|].
  exact (proj2 (proj2 (proj2 (Hmanual eq_refl)))).
Defined.

(** ** Statistics *)

Lemma stats_fold (bs : list Backup) (s : Stats) :
  let r := fold_left stats_step bs s in
  total r = total s /\
  stats_local r = stats_local s + count_location local bs + count_location both bs /\
  stats_remote r = stats_remote s + count_location remote bs + count_location both bs /\
  totalSize r = (totalSize s + sum_sizes bs)%Z.
Proof.
  revert s. induction bs as [|b bs IH]; intros s; cbn zeta.
  - unfold count_location; simpl. repeat split; lia.
  - simpl fold_left. specialize (IH (stats_step s b)). cbn zeta in IH.
    destruct IH as (Ht & Hl & Hr & Hs).
    rewrite Ht, Hl, Hr, Hs. clear Ht Hl Hr Hs.
    unfold count_location, stats_step. simpl.
    destruct (location b); simpl; repeat split; lia.
Qed.

Ltac unfold_m :=
  unfold bind, ret, throw, try_catch, logger_info, logger_error, s3_request.

Lemma listS3Backups_returns (w : World) :
  exists l w', listS3Backups w = (Ok l, w').
Proof.
  unfold listS3Backups.
  destruct (isS3Configured w); simpl; [|now eauto].
  unfold_m.
  destruct (s3_faults w) as [|[r|] rest]; simpl; eauto.
Qed.

Lemma listAllBackups_returns (w : World) :
  exists l w', listAllBackups w = (Ok l, w').
Proof.
  unfold listAllBackups, bind, fetch_remote.
  match goal with |- context [if ?c then listS3Backups w else _] => destruct c end.
  - destruct (listS3Backups_returns w) as (l & w' & ->). unfold ret. eauto.
  - unfold ret. eauto.
Qed.


(** C4: the statistics computed over the merged list count an artifact
    once for each side it is on (one at [both] counts for the local and
    for the remote counter), add each size once, and [total] is the
    number of merged artifacts. *)
Theorem getBackupStats_counts (w : World) :
  exists allBackups w' stats,
    listAllBackups w = (Ok allBackups, w') /\
    getBackupStats w = (Ok stats, w') /\
    total stats = length allBackups /\
    stats_local stats =
      count_location local allBackups + count_location both allBackups /\
    stats_remote stats =
      count_location remote allBackups + count_location both allBackups /\
    totalSize stats = sum_sizes allBackups.
Proof.
  destruct (listAllBackups_returns w) as (l & w' & Hl).
  exists l, w', (stats_of l).
  split; [exact Hl|].
  split; [unfold getBackupStats, bind; rewrite Hl; reflexivity|].
  unfold stats_of.
  pose proof (stats_fold l {| total := length l; stats_local := 0;
                              stats_remote := 0; totalSize := 0 |}) as H.
  cbn zeta in H. simpl in H. exact H.
Qed.

(** ** Paths *)

Lemma append_empty_r (s : string) : (s ++ "")%string = s.
Proof. induction s; simpl; congruence. Qed.

Lemma append_assoc (a b c : string) :
  ((a ++ b) ++ c)%string = (a ++ b ++ c)%string.
Proof. induction a; simpl; congruence. Qed.

Lemma append_inv_head (a n m : string) :
  (a ++ n)%string = (a ++ m)%string -> n = m.
Proof. induction a; simpl; intros H; [exact H | injection H; auto]. Qed.

Lemma string_rev_app (a b : string) :
  JS.string_rev (a ++ b) = (JS.string_rev b ++ JS.string_rev a)%string.
Proof.
  induction a as [|c a IH]; simpl.
  - now rewrite append_empty_r.
  - now rewrite IH, append_assoc.
Qed.

Lemma string_rev_involutive (s : string) : JS.string_rev (JS.string_rev s) = s.
Proof.
  induction s as [|c s IH]; simpl; [reflexivity|].
  rewrite string_rev_app, IH. reflexivity.
Qed.

Lemma has_sep_app (a b : string) :
  has_sep (a ++ b) = has_sep a || has_sep b.
Proof.
  induction a as [|c a IH]; simpl; [reflexivity|].
  now rewrite IH, orb_assoc.
Qed.

Lemma has_sep_rev (s : string) : has_sep (JS.string_rev s) = has_sep s.
Proof.
  induction s as [|c s IH]; simpl; [reflexivity|].
  rewrite has_sep_app, IH. simpl. rewrite orb_false_r. apply orb_comm.
Qed.

Lemma drop_trailing_seps_no_sep (s : string) :
  has_sep s = false -> Path.drop_trailing_seps s = s.
Proof.
  destruct s as [|c s]; simpl; [reflexivity|].
  intros H. apply orb_false_iff in H as [-> _]. reflexivity.
Qed.

Lemma take_until_sep_no_sep (s : string) :
  has_sep s = false -> Path.take_until_sep s = s.
Proof.
  induction s as [|c s IH]; simpl; [reflexivity|].
  intros H. apply orb_false_iff in H as [-> H]. now rewrite IH.
Qed.

Lemma has_sep_take_until_sep (s : string) :
  has_sep (Path.take_until_sep s) = false.
Proof.
  induction s as [|c s IH]; simpl; [reflexivity|].
  destruct (Ascii.eqb c Path.sep) eqn:E; simpl; [reflexivity|].
  now rewrite E, IH.
Qed.

Lemma basename_no_sep (n : string) : has_sep n = false -> Path.basename n = n.
Proof.
  intros H. unfold Path.basename.
  rewrite drop_trailing_seps_no_sep, take_until_sep_no_sep
    by now rewrite has_sep_rev.
  apply string_rev_involutive.
Qed.

Lemma has_sep_basename (p : string) : has_sep (Path.basename p) = false.
Proof.
  unfold Path.basename. rewrite has_sep_rev. apply has_sep_take_until_sep.
Qed.

Lemma basename_idempotent (p : string) :
  Path.basename (Path.basename p) = Path.basename p.
Proof. apply basename_no_sep, has_sep_basename. Qed.

Lemma valid_name_no_sep (n : string) : valid_name n = true -> has_sep n = false.
Proof.
  unfold valid_name. intros H.
  apply andb_true_iff in H as [_ H]. now apply negb_true_iff in H.
Qed.

Lemma split_not_nil (c : ascii) (s : string) : JS.split c s <> [].
Proof.
  induction s as [|x s IH]; simpl; [discriminate|].
  destruct (Ascii.eqb x c); [discriminate|].
  destruct (JS.split c s); [contradiction | discriminate].
Qed.

Lemma split_no_sep (n : string) :
  has_sep n = false -> JS.split Path.sep n = [n].
Proof.
  induction n as [|x n IH]; simpl; [reflexivity|].
  intros H. apply orb_false_iff in H as [-> H]. now rewrite IH.
Qed.

Lemma split_app_sep (c : ascii) (a b : string) :
  JS.split c (a ++ String c b) = JS.split c a ++ JS.split c b.
Proof.
  induction a as [|x a IH]; simpl.
  - now rewrite Ascii.eqb_refl.
  - destruct (Ascii.eqb x c); [now rewrite IH|].
    rewrite IH. pose proof (split_not_nil c a) as Hn.
    destruct (JS.split c a); [contradiction | reflexivity].
Qed.

Lemma concat_cons (sp x : string) (xs : list string) :
  xs <> [] -> String.concat sp (x :: xs) = (x ++ sp ++ String.concat sp xs)%string.
Proof. destruct xs; [contradiction | reflexivity]. Qed.

Lemma concat_empty_cons (x : string) (xs : list string) :
  String.concat "" (x :: xs) = (x ++ String.concat "" xs)%string.
Proof. destruct xs; simpl; [now rewrite append_empty_r | reflexivity]. Qed.

Lemma concat_snoc (l : list string) (n : string) :
  String.concat "/" (l ++ [n]) =
  (String.concat "" (map (fun s => s ++ "/") l) ++ n)%string.
Proof.
  induction l as [|x l IH]; [reflexivity|].
  change ((x :: l) ++ [n]) with (x :: (l ++ [n])).
  rewrite concat_cons by (destruct l; discriminate).
  rewrite IH. cbn [map]. rewrite concat_empty_cons.
  now rewrite !append_assoc.
Qed.

Lemma rev_last_char (n : string) :
  n <> "" -> has_sep n = false ->
  exists c r, JS.string_rev n = String c r /\ Ascii.eqb c Path.sep = false.
Proof.
  intros Hne Hs. rewrite <- has_sep_rev in Hs.
  destruct (JS.string_rev n) as [|c r] eqn:E.
  - apply (f_equal JS.string_rev) in E. rewrite string_rev_involutive in E.
    now elim Hne.
  - simpl in Hs. apply orb_false_iff in Hs as [Hc _]. eauto.
Qed.

Lemma endsWith_sep_app (a n : string) :
  n <> "" -> has_sep n = false -> JS.endsWith (a ++ n) "/" = false.
Proof.
  intros Hne Hs. unfold JS.endsWith. rewrite string_rev_app.
  destruct (rev_last_char n Hne Hs) as (c & r & -> & Hc).
  simpl. rewrite Ascii.eqb_sym. fold Path.sep. now rewrite Hc.
Qed.

Lemma valid_name_step (allow : bool) (stack : list string) (n : string) :
  valid_name n = true -> Path.normalize_step allow stack n = n :: stack.
Proof.
  unfold valid_name, Path.normalize_step. intros H.
  apply andb_true_iff in H as [H _].
  apply andb_true_iff in H as [H H3].
  apply andb_true_iff in H as [H1 H2].
  apply negb_true_iff in H1, H2, H3.
  now rewrite H1, H2, H3.
Qed.

Lemma valid_name_not_empty (n : string) : valid_name n = true -> n <> "".
Proof. intros H ->. discriminate H. Qed.

(** The path of the entry [n] of the directory [dir]. *)
Lemma join_valid_name (dir n : string) :
  valid_name n = true -> Path.join dir n = (dir_base dir ++ n)%string.
Proof.
  intros Hv.
  pose proof (valid_name_no_sep n Hv) as Hs.
  pose proof (valid_name_not_empty n Hv) as Hne.
  assert (Hrel : Path.isAbsolute n = false).
  { destruct n as [|c n]; [reflexivity|]. simpl in Hs.
    apply orb_false_iff in Hs as [Hc _]. unfold Path.isAbsolute, JS.startsWith.
    simpl. unfold Path.sep in Hc. rewrite Ascii.eqb_sym, Hc. reflexivity. }
  assert (Hnorm : forall p, p <> "" ->
            Path.segments p = Path.segments dir ++ [n] ->
            Path.isAbsolute p = Path.isAbsolute dir ->
            JS.endsWith p "/" = false ->
            Path.normalize p = (dir_base dir ++ n)%string).
  { intros p Hp Hseg Habs Hend. unfold Path.normalize.
    destruct p as [|c p]; [now elim Hp|].
    rewrite Hseg, Habs, Hend, concat_snoc.
    unfold dir_base.
    set (q := String.concat "" _).
    destruct (q ++ n)%string eqn:E.
    - destruct q; [simpl in E; now elim Hne | discriminate E].
    - rewrite append_empty_r. now rewrite append_assoc, E. }
  unfold Path.join.
  destruct dir as [|d dir].
  - destruct n as [|c n]; [now elim Hne|].
    apply Hnorm; try discriminate.
    + unfold Path.segments, Path.normalize_segments.
      rewrite Hrel, split_no_sep by exact Hs. simpl fold_left.
      rewrite valid_name_step by exact Hv. reflexivity.
    + exact Hrel.
    + apply (endsWith_sep_app "" (String c n) Hne Hs).
  - destruct n as [|c n]; [now elim Hne|].
    apply Hnorm; try discriminate.
    + unfold Path.segments, Path.normalize_segments.
      assert (Ha : Path.isAbsolute (String d dir ++ "/" ++ String c n) =
                   Path.isAbsolute (String d dir)) by reflexivity.
      rewrite Ha.
      change ("/" ++ String c n)%string with (String Path.sep (String c n)).
      rewrite split_app_sep, fold_left_app, split_no_sep by exact Hs.
      simpl fold_left at 1.
      rewrite valid_name_step by exact Hv. reflexivity.
    + reflexivity.
    + rewrite <- append_assoc. apply endsWith_sep_app; assumption.
Qed.

Lemma join_valid_name_inj (dir n m : string) :
  valid_name n = true -> valid_name m = true ->
  Path.join dir n = Path.join dir m -> n = m.
Proof.
  intros Hn Hm. rewrite !join_valid_name by assumption. apply append_inv_head.
Qed.

(** ** The merge of two listings *)

Lemma mem_In (k : string) (l : list string) : mem k l = true <-> In k l.
Proof.
  unfold mem. rewrite existsb_exists. split.
  - intros (x & Hx & E). apply String.eqb_eq in E. now subst.
  - intros H. exists k. split; [exact H | apply String.eqb_refl].
Qed.

Lemma mem_not_In (k : string) (l : list string) : mem k l = false <-> ~ In k l.
Proof.
  rewrite <- mem_In. destruct (mem k l); intuition congruence.
Qed.

Lemma map_has_mem (k : string) (m : BackupMap) : map_has k m = mem k (keys m).
Proof.
  unfold map_has, mem, keys. induction m as [|[k' v] m IH]; simpl; [reflexivity|].
  now rewrite IH, (String.eqb_sym k k').
Qed.

Lemma map_set_absent (k : string) (v : Backup) (m : BackupMap) :
  ~ In k (keys m) -> map_set k v m = m ++ [(k, v)].
Proof.
  induction m as [|[k' v'] m IH]; simpl; intros H; [reflexivity|].
  destruct (k' =? k) eqn:E.
  - apply String.eqb_eq in E. elim H. now left.
  - rewrite IH; [reflexivity | tauto].
Qed.

(** [set] on a present key, when no key occurs twice. *)
Lemma map_set_present (k : string) (v : Backup) (m : BackupMap) :
  NoDup (keys m) -> In k (keys m) ->
  map_set k v m = map (fun e => if fst e =? k then (k, v) else e) m.
Proof.
  induction m as [|[k' v'] m IH]; simpl; intros Hnd Hin; [contradiction|].
  inversion Hnd as [|? ? Hn Hnd']; subst.
  destruct (k' =? k) eqn:E.
  - apply String.eqb_eq in E. subst k'. f_equal.
    rewrite <- (map_id m) at 1. apply map_ext_in.
    intros [k2 v2] Hi. simpl.
    destruct (k2 =? k) eqn:E2; [|reflexivity].
    apply String.eqb_eq in E2. subst k2. elim Hn.
    change k with (fst (k, v2)). now apply in_map.
  - f_equal. apply IH; [exact Hnd'|].
    destruct Hin as [Hin|Hin]; [|exact Hin].
    apply String.eqb_neq in E. now elim E.
Qed.

Lemma keys_map_set (k : string) (v : Backup) (m : BackupMap) :
  keys (map_set k v m) = if mem k (keys m) then keys m else keys m ++ [k].
Proof.
  induction m as [|[k' v'] m IH]; simpl; [reflexivity|].
  unfold mem in *. simpl. rewrite (String.eqb_sym k k').
  destruct (k' =? k) eqn:E; simpl.
  - apply String.eqb_eq in E. now subst.
  - unfold keys in *. rewrite IH. now destruct (existsb (String.eqb k) (map fst m)).
Qed.

Lemma NoDup_snoc (k : string) (l : list string) :
  NoDup l -> ~ In k l -> NoDup (l ++ [k]).
Proof.
  intros Hl Hk. apply NoDup_rev in Hl.
  rewrite <- (rev_involutive (l ++ [k])). apply NoDup_rev.
  rewrite rev_app_distr. simpl. constructor; [|exact Hl].
  now rewrite <- in_rev.
Qed.

Lemma NoDup_keys_map_set (k : string) (v : Backup) (m : BackupMap) :
  NoDup (keys m) -> NoDup (keys (map_set k v m)).
Proof.
  intros H. rewrite keys_map_set. destruct (mem k (keys m)) eqn:E; [exact H|].
  apply NoDup_snoc; [exact H | now apply mem_not_In].
Qed.

Lemma map_get_In (k : string) (m : BackupMap) :
  In k (keys m) -> exists v, map_get k m = Some v /\ In (k, v) m.
Proof.
  induction m as [|[k' v'] m IH]; simpl; intros H; [contradiction|].
  destruct (k' =? k) eqn:E.
  - apply String.eqb_eq in E. subst. eauto.
  - destruct H as [H|H]; [apply String.eqb_neq in E; now elim E|].
    destruct (IH H) as (v & Hv & Hi). eauto.
Qed.

Lemma NoDup_keys_functional (m : BackupMap) (k : string) (v v' : Backup) :
  NoDup (keys m) -> In (k, v) m -> In (k, v') m -> v = v'.
Proof.
  induction m as [|[k0 v0] m IH]; simpl; intros Hnd H1 H2; [contradiction|].
  inversion Hnd as [|? ? Hn Hnd']; subst.
  assert (Hk : forall u, In (k0, u) m -> False).
  { intros u Hu. apply Hn. change k0 with (fst (k0, u)). now apply in_map. }
  destruct H1 as [[= -> ->]|H1], H2 as [[= E2]|H2]; subst.
  - congruence.
  - now apply Hk in H2.
  - now apply Hk in H1.
  - now apply IH.
Qed.

(** *** The first loop *)

Lemma merge_local_NoDup (l : list Backup) (m : BackupMap) :
  NoDup (keys m) -> NoDup (keys (merge_local l m)).
Proof.
  revert m. induction l as [|b l IH]; intros m H; simpl; [exact H|].
  apply IH, NoDup_keys_map_set, H.
Qed.

Lemma merge_local_keys (l : list Backup) (m : BackupMap) (k : string) :
  In k (keys (merge_local l m)) <-> In k (keys m) \/ In k (names l).
Proof.
  revert m. induction l as [|b l IH]; intros m; simpl; [tauto|].
  unfold merge_local in IH. rewrite IH, keys_map_set.
  destruct (mem (filename b) (keys m)) eqn:E.
  - apply mem_In in E. intuition (subst; auto).
  - rewrite in_app_iff. simpl. intuition (subst; auto).
Qed.

Lemma map_set_In (k : string) (v : Backup) (m : BackupMap) (e : string * Backup) :
  In e (map_set k v m) -> e = (k, v) \/ In e m.
Proof.
  induction m as [|[k' v'] m IH]; simpl.
  - intros [<-|[]]. now left.
  - destruct (k' =? k); simpl; intros [<-|H]; auto.
    destruct (IH H); auto.
Qed.

Lemma merge_local_values (l : list Backup) (m : BackupMap) :
  local_values m -> local_values (merge_local l m).
Proof.
  revert m. induction l as [|b l IH]; intros m H; simpl; [exact H|].
  apply IH. intros k v Hin. apply map_set_In in Hin as [[= -> ->]|Hin].
  - split; reflexivity.
  - now apply H.
Qed.

Lemma merge_local_distinct (l : list Backup) (m : BackupMap) :
  NoDup (keys m ++ names l) -> merge_local l m = m ++ map local_entry l.
Proof.
  revert m. induction l as [|b l IH]; intros m H; simpl.
  - now rewrite app_nil_r.
  - assert (Hb : ~ In (filename b) (keys m)).
    { intros Hin. apply NoDup_remove_2 in H. apply H.
      apply in_or_app. now left. }
    rewrite map_set_absent by exact Hb.
    unfold merge_local in IH. rewrite IH.
    + now rewrite <- app_assoc.
    + unfold keys. rewrite map_app. simpl. fold (keys m).
      rewrite <- app_assoc. exact H.
Qed.

(** *** The second loop *)

Lemma mark_both_nil (m : BackupMap) : map (mark_both []) m = m.
Proof. rewrite <- (map_id m) at 2. apply map_ext. now intros [k v]. Qed.

Lemma keys_mark_both (ns : list string) (m : BackupMap) :
  keys (map (mark_both ns) m) = keys m.
Proof.
  unfold keys. rewrite map_map. apply map_ext.
  intros e. unfold mark_both. now destruct (mem (fst e) ns).
Qed.

Lemma filter_absent_ext (ks ks' : list string) (l : list Backup) :
  (forall b, In b l -> mem (filename b) ks = mem (filename b) ks') ->
  filter (absent_from ks) l = filter (absent_from ks') l.
Proof.
  intros H. apply filter_ext_in. intros b Hb. unfold absent_from. now rewrite H.
Qed.

(** With pairwise distinct file names in the remote listing, the second
    loop marks the entries that the remote listing names as [both], in
    place, and appends the other remote entries as [remote]. *)
Lemma merge_remote_distinct (r : list Backup) (m : BackupMap) :
  NoDup (keys m) -> NoDup (names r) ->
  merge_remote r m =
  map (mark_both (names r)) m ++ map remote_entry (filter (absent_from (keys m)) r).
Proof.
  revert m. induction r as [|b r IH]; intros m Hm Hr.
  - simpl. now rewrite mark_both_nil, app_nil_r.
  - inversion Hr as [|? ? Hb Hr']; subst.
    change (merge_remote (b :: r) m) with (merge_remote r (merge_remote_step m b)).
    unfold merge_remote_step. rewrite map_has_mem.
    destruct (mem (filename b) (keys m)) eqn:E.
    + pose proof E as Hin. apply mem_In in Hin.
      destruct (map_get_In _ _ Hin) as (existing & -> & Hex).
      rewrite IH by (try apply NoDup_keys_map_set; assumption).
      rewrite keys_map_set, E.
      rewrite map_set_present by assumption.
      rewrite map_map. f_equal.
      * apply map_ext_in. intros [k v] Hkv. unfold mark_both. simpl.
        destruct (k =? filename b) eqn:Ek.
        -- apply String.eqb_eq in Ek. subst k. simpl.
           assert (Hn : mem (filename b) (names r) = false) by now apply mem_not_In.
           rewrite Hn. unfold mem. simpl. rewrite ?String.eqb_refl. simpl.
           now rewrite (NoDup_keys_functional m _ _ _ Hm Hex Hkv).
        -- reflexivity.
      * cbn [filter]. unfold absent_from at 2. now rewrite E.
    + apply mem_not_In in E as Hnin.
      rewrite map_set_absent by exact Hnin.
      rewrite IH.
      * rewrite map_app. simpl. rewrite <- app_assoc. f_equal.
        -- apply map_ext_in. intros [k v] Hi. unfold mark_both, mem. simpl.
           destruct (k =? filename b) eqn:Ek; [|reflexivity].
           apply String.eqb_eq in Ek. subst k. elim Hnin.
           change (filename b) with (fst (filename b, v)). now apply in_map.
        -- assert (Ha : absent_from (keys m) b = true)
             by (unfold absent_from; now rewrite E).
           rewrite Ha. unfold mark_both at 1. simpl.
           assert (Hn : mem (filename b) (names r) = false) by now apply mem_not_In.
           rewrite Hn. f_equal. f_equal.
           apply filter_ext_in. intros b' Hb'. unfold absent_from. f_equal.
           unfold keys. rewrite map_app. simpl. unfold mem.
           rewrite existsb_app. simpl. rewrite orb_false_r.
           destruct (filename b' =? filename b) eqn:Eb; [|now rewrite orb_false_r].
           apply String.eqb_eq in Eb. elim Hb. rewrite <- Eb.
           now apply in_map.
      * unfold keys. rewrite map_app. simpl. apply NoDup_snoc; assumption.
      * exact Hr'.
Qed.

(** *** Sorting *)

Lemma insert_by_date_perm (x : Backup) (l : list Backup) :
  Permutation (insert_by_date x l) (x :: l).
Proof.
  induction l as [|y l IH]; simpl; [reflexivity|].
  destruct (date y <=? date x)%Z; [reflexivity|].
  rewrite IH. apply perm_swap.
Qed.

Lemma sort_by_date_desc_perm (l : list Backup) :
  Permutation (sort_by_date_desc l) l.
Proof.
  induction l as [|x l IH]; simpl; [reflexivity|].
  rewrite insert_by_date_perm. now constructor.
Qed.

Lemma insert_by_date_sorted (x : Backup) (l : list Backup) :
  Sorted newer_first l -> Sorted newer_first (insert_by_date x l).
Proof.
  induction l as [|y l IH]; simpl; intros H.
  - repeat constructor.
  - inversion H as [|? ? Hs Hh]; subst.
    destruct (date y <=? date x)%Z eqn:E.
    + constructor; [exact H|]. constructor.
      unfold newer_first. now apply Z.leb_le in E.
    + constructor; [now apply IH|].
      apply Z.leb_gt in E.
      destruct l as [|z l]; simpl.
      * constructor. unfold newer_first. lia.
      * inversion Hh; subst.
        destruct (date z <=? date x)%Z; constructor;
          [unfold newer_first; lia | assumption].
Qed.

(** The sort is stable: the artifacts of one date keep their order. *)
Lemma insert_by_date_same_date (d : Z) (x : Backup) (l : list Backup) :
  filter (fun b => (date b =? d)%Z) (insert_by_date x l) =
  filter (fun b => (date b =? d)%Z) (x :: l).
Proof.
  induction l as [|y l IH]; [reflexivity|].
  cbn [insert_by_date]. destruct (date y <=? date x)%Z eqn:E; [reflexivity|].
  apply Z.leb_gt in E. cbn [filter] in *. rewrite IH.
  destruct (date x =? d)%Z eqn:Ex; [|reflexivity].
  apply Z.eqb_eq in Ex.
  assert (Hy : (date y =? d)%Z = false) by (apply Z.eqb_neq; lia).
  now rewrite Hy.
Qed.

Lemma sort_by_date_desc_stable (d : Z) (l : list Backup) :
  filter (fun b => (date b =? d)%Z) (sort_by_date_desc l) =
  filter (fun b => (date b =? d)%Z) l.
Proof.
  induction l as [|x l IH]; [reflexivity|].
  cbn [sort_by_date_desc fold_right]. rewrite insert_by_date_same_date.
  cbn [filter]. fold (sort_by_date_desc l). now rewrite IH.
Qed.

Lemma sort_by_date_desc_sorted (l : list Backup) :
  StronglySorted newer_first (sort_by_date_desc l).
Proof.
  apply Sorted_StronglySorted.
  - intros a b c. unfold newer_first. lia.
  - induction l as [|x l IH]; simpl; [constructor|].
    now apply insert_by_date_sorted.
Qed.

Lemma sort_by_date_desc_In (l : list Backup) (a : Backup) :
  In a (sort_by_date_desc l) <-> In a l.
Proof.
  split; apply Permutation_in;
    [|symmetry]; apply sort_by_date_desc_perm.
Qed.

(** *** Locations in the merged list *)

Lemma find_by_name (f : string) (l : list Backup) (a : Backup) :
  NoDup (names l) -> In a l -> filename a = f ->
  find (fun a => filename a =? f) l = Some a.
Proof.
  induction l as [|x l IH]; simpl; intros Hnd Hin Hf; [contradiction|].
  inversion Hnd as [|? ? Hn Hnd']; subst.
  destruct Hin as [->|Hin].
  - now rewrite String.eqb_refl.
  - destruct (filename x =? filename a) eqn:E.
    + apply String.eqb_eq in E. elim Hn. rewrite E. now apply in_map.
    + now apply IH.
Qed.

Lemma find_by_name_none (f : string) (l : list Backup) :
  ~ In f (names l) -> find (fun a => filename a =? f) l = None.
Proof.
  induction l as [|x l IH]; simpl; intros H; [reflexivity|].
  destruct (filename x =? f) eqn:E.
  - apply String.eqb_eq in E. elim H. now left.
  - apply IH. tauto.
Qed.

Lemma merged_map_distinct (l r : list Backup) :
  NoDup (names r) ->
  merged_map l r =
  map (mark_both (names r)) (merge_local l []) ++
  map remote_entry (filter (absent_from (keys (merge_local l []))) r).
Proof.
  intros Hr. apply merge_remote_distinct; [|exact Hr].
  apply merge_local_NoDup. constructor.
Qed.

Lemma merge_local_nil_values (l : list Backup) : local_values (merge_local l []).
Proof. apply merge_local_values. intros k v []. Qed.

Lemma merge_local_nil_keys (l : list Backup) (k : string) :
  In k (keys (merge_local l [])) <-> In k (names l).
Proof. rewrite merge_local_keys. simpl. tauto. Qed.

Lemma names_merged (l r : list Backup) :
  NoDup (names r) ->
  names (map_values (merged_map l r)) =
  keys (merge_local l []) ++ names (filter (absent_from (keys (merge_local l []))) r).
Proof.
  intros Hr. rewrite merged_map_distinct by exact Hr.
  unfold names, map_values, keys. rewrite !map_app, !map_map. f_equal.
  apply map_ext_in. intros [k v] Hin. unfold mark_both.
  destruct (merge_local_nil_values l k v Hin) as [Hf _].
  destruct (mem (fst (k, v)) (map filename r)); simpl; exact Hf.
Qed.

Lemma NoDup_names_filter (p : Backup -> bool) (r : list Backup) :
  NoDup (names r) -> NoDup (names (filter p r)).
Proof.
  induction r as [|b r IH]; simpl; intros H; [constructor|].
  inversion H as [|? ? Hn Hr]; subst.
  destruct (p b); simpl; [constructor|]; auto.
  intros Hin. apply Hn. unfold names in *. apply in_map_iff in Hin as (x & Hx & Hi).
  apply filter_In in Hi as [Hi _]. rewrite <- Hx. now apply in_map.
Qed.

Lemma NoDup_app_disjoint (a b : list string) :
  NoDup a -> NoDup b -> (forall x, In x a -> In x b -> False) -> NoDup (a ++ b).
Proof.
  induction a as [|x a IH]; simpl; intros Ha Hb Hd; [exact Hb|].
  inversion Ha as [|? ? Hn Ha']; subst. constructor.
  - rewrite in_app_iff. intros [H|H]; [now apply Hn | exact (Hd x (or_introl eq_refl) H)].
  - apply IH; auto. intros y Hy. apply Hd. now right.
Qed.

Lemma NoDup_names_merged (l r : list Backup) :
  NoDup (names r) -> NoDup (names (map_values (merged_map l r))).
Proof.
  intros Hr. rewrite names_merged by exact Hr.
  apply NoDup_app_disjoint.
  - apply merge_local_NoDup. constructor.
  - now apply NoDup_names_filter.
  - intros x Hx Hin. unfold names in Hin.
    apply in_map_iff in Hin as (b & <- & Hb).
    apply filter_In in Hb as [_ Hb]. unfold absent_from in Hb.
    apply negb_true_iff, mem_not_In in Hb. now apply Hb.
Qed.

Lemma merged_entry (l r : list Backup) (f : string) (loc : Location) :
  NoDup (names r) ->
  expected_location f l r = Some loc ->
  exists a, In a (map_values (merged_map l r)) /\ filename a = f /\ location a = loc.
Proof.
  intros Hr He. rewrite merged_map_distinct by exact Hr.
  unfold expected_location in He. unfold map_values. 
  destruct (mem f (names l)) eqn:El.
  - apply mem_In, merge_local_nil_keys in El.
    unfold keys in El. apply in_map_iff in El as ([k v] & Hk & Hin).
    simpl in Hk. subst k.
    destruct (merge_local_nil_values l f v Hin) as [Hf Hloc].
    exists (snd (mark_both (names r) (f, v))). split.
    + rewrite map_app, in_app_iff. left. rewrite map_map.
      apply in_map_iff. exists (f, v). now split.
    + unfold mark_both. simpl.
      destruct (mem f (names r)); injection He as <-; simpl; auto.
  - destruct (mem f (names r)) eqn:Er; [|discriminate He].
    injection He as <-.
    apply mem_In in Er. unfold names in Er. apply in_map_iff in Er as (b & Hb & Hin).
    exists (with_location remote b). split; [|now split].
    rewrite map_app, in_app_iff. right. rewrite map_map.
    apply in_map_iff. exists b. split; [reflexivity|].
    apply filter_In. split; [exact Hin|]. unfold absent_from.
    apply negb_true_iff, mem_not_In. rewrite merge_local_nil_keys, Hb.
    now apply mem_not_In.
Qed.

Lemma merged_names_subset (l r : list Backup) (f : string) :
  NoDup (names r) ->
  In f (names (map_values (merged_map l r))) ->
  In f (names l) \/ In f (names r).
Proof.
  intros Hr. rewrite names_merged by exact Hr.
  rewrite in_app_iff, merge_local_nil_keys. intros [H|H]; [now left|right].
  unfold names in *. apply in_map_iff in H as (b & <- & Hb).
  apply filter_In in Hb as [Hb _]. now apply in_map.
Qed.

Lemma location_of_mergeBackups (l r : list Backup) (f : string) :
  NoDup (names r) ->
  location_of f (mergeBackups l r) = expected_location f l r.
Proof.
  intros Hr. unfold location_of, mergeBackups. fold (merged_map l r).
  assert (Hnd : NoDup (names (sort_by_date_desc (map_values (merged_map l r))))).
  { eapply Permutation_NoDup; [|apply NoDup_names_merged, Hr].
    symmetry. apply Permutation_map, sort_by_date_desc_perm. }
  destruct (expected_location f l r) as [loc|] eqn:He.
  - destruct (merged_entry l r f loc Hr He) as (a & Hin & Hf & Hloc).
    rewrite (find_by_name f _ a Hnd); [simpl; now rewrite Hloc | | exact Hf].
    now apply sort_by_date_desc_In.
  - rewrite find_by_name_none; [reflexivity|].
    intros Hin.
    assert (Hin' : In f (names (map_values (merged_map l r)))).
    { unfold names in *. apply in_map_iff in Hin as (a & Ha & Hi).
      apply in_map_iff. exists a. split; [exact Ha|].
      now apply sort_by_date_desc_In. }
    apply merged_names_subset in Hin'; [|exact Hr].
    unfold expected_location in He.
    destruct Hin' as [H|H]; apply mem_In in H; rewrite H in He;
      destruct (mem f (names l)), (mem f (names r)); discriminate.
Qed.

(** C1, the claim as stated: a file name that both archives list is
    reported as [both].  It does not hold: with the storage mode ["local"]
    the bucket is not asked for its listing, and the file is reported as
    [local]. *)
Lemma listAllBackups_local_mode_ignores_bucket :
  let w := world_of "local" [file_a] [object_a] [] in
  exists localListing remoteListing all,
    listLocalBackups w = localListing /\
    fst (listS3Backups w) = Ok remoteListing /\
    fst (listAllBackups w) = Ok all /\
    In "backup_a.sql" (names localListing) /\
    In "backup_a.sql" (names remoteListing) /\
    expected_location "backup_a.sql" localListing remoteListing = Some both /\
    location_of "backup_a.sql" all = Some local.
Proof.
  cbv zeta. eexists _, _, _.
  split; [reflexivity|]. split; [vm_compute; reflexivity|].
  split; [vm_compute; reflexivity|].
  split; [left; reflexivity|]. split; [left; reflexivity|].
  split; reflexivity.
Qed.

Lemma fetch_remote_returns (w : World) :
  exists r w', fetch_remote w = (Ok r, w').
Proof.
  unfold fetch_remote.
  match goal with |- context [if ?c then _ else _] => destruct c end.
  - apply listS3Backups_returns.
  - eauto.
Qed.

(** C1, amended: [listAllBackups] merges the listings of the archives that
    the storage mode includes (the directory for ["local"] and ["both"];
    the bucket for ["remote"] and ["both"], when S3 is configured), an
    archive left out counting as empty.  When the file names of the remote
    listing are pairwise distinct, a name only in the local listing is
    reported once as [local], a name only in the remote listing once as
    [remote], a name in both once as [both], no other name is reported,
    and the result is in descending order of date. *)
Theorem listAllBackups_reconciles (w : World) (remoteBackups : list Backup)
    (w' : World) :
  fetch_remote w = (Ok remoteBackups, w') ->
  NoDup (names remoteBackups) ->
  let storage := Config.storage (backupConfig w) in
  let localBackups := fetch_local w in
  (localBackups =
     if (storage =? "local") || (storage =? "both")
     then listLocalBackups w else []) /\
  (if ((storage =? "remote") || (storage =? "both")) && isS3Configured w
   then listS3Backups w = (Ok remoteBackups, w')
   else remoteBackups = [] /\ w' = w) /\
  exists all,
    listAllBackups w = (Ok all, w') /\
    (forall f, location_of f all = expected_location f localBackups remoteBackups) /\
    NoDup (names all) /\
    StronglySorted newer_first all.
Proof.
  intros Hfetch Hnd. cbv zeta. split; [reflexivity|]. split.
  - unfold fetch_remote in Hfetch.
    destruct ((_ || _) && isS3Configured w); [exact Hfetch|].
    injection Hfetch as <- <-. now split.
  - exists (mergeBackups (fetch_local w) remoteBackups). split; [|split; [|split]].
    + unfold listAllBackups, bind. now rewrite Hfetch.
    + intros f. now apply location_of_mergeBackups.
    + unfold mergeBackups. fold (merged_map (fetch_local w) remoteBackups).
      eapply Permutation_NoDup; [|apply NoDup_names_merged, Hnd].
      symmetry. apply Permutation_map, sort_by_date_desc_perm.
    + apply sort_by_date_desc_sorted.
Qed.

Lemma listAllBackups_reconciles_witness :
  exists all,
    listAllBackups both_world = (Ok all, both_world) /\
    location_of "backup_a.sql" all = Some local /\
    location_of "backup_b.sql" all = Some both /\
    location_of "backup_c.dump" all = Some remote.
Proof.
  assert (Hf : fetch_remote both_world = (Ok both_world_remote, both_world)).
  { vm_compute. reflexivity. }
  assert (Hnd : NoDup (names both_world_remote)).
  { unfold both_world_remote, names. simpl.
    apply NoDup_cons; [intros [H|[]]; discriminate H|].
    apply NoDup_cons; [intros []|apply NoDup_nil]. }
  pose proof (listAllBackups_reconciles both_world _ both_world Hf Hnd) as H.
  cbv zeta in H. destruct H as (_ & _ & all & Hall & Hloc & _).
  exists all. split; [exact Hall|].
  rewrite !Hloc. vm_compute. repeat split.
Defined.

(** ** Creation *)

Lemma put_file_filter (dir p : string) (entry : LocalFile) (l : list LocalFile) :
  file_at dir p entry = true ->
  (forall g, name g = name entry -> file_at dir p g = true) ->
  filter (fun f => negb (file_at dir p f)) (put_file entry l) =
  filter (fun f => negb (file_at dir p f)) l.
Proof.
  intros He Hsame. induction l as [|g l IH]; simpl.
  - now rewrite He.
  - destruct (name g =? name entry) eqn:E; simpl.
    + apply String.eqb_eq in E. now rewrite He, (Hsame g E).
    + now rewrite IH.
Qed.

Lemma put_file_exists (dir p : string) (entry : LocalFile) (l : list LocalFile) :
  file_at dir p entry = true -> existsb (file_at dir p) (put_file entry l) = true.
Proof.
  intros He. induction l as [|g l IH]; simpl.
  - now rewrite He.
  - destruct (name g =? name entry); simpl; [now rewrite He|].
    rewrite IH. apply orb_true_r.
Qed.

Lemma existsb_false_filter (dir p : string) (l : list LocalFile) :
  existsb (file_at dir p) l = false ->
  filter (fun f => negb (file_at dir p f)) l = l.
Proof.
  induction l as [|g l IH]; simpl; [reflexivity|].
  intros H. apply orb_false_iff in H as [-> H]. simpl. now rewrite IH.
Qed.

Lemma existsb_filter_out (dir p : string) (l : list LocalFile) :
  existsb (file_at dir p) (filter (fun f => negb (file_at dir p f)) l) = false.
Proof.
  induction l as [|g l IH]; simpl; [reflexivity|].
  destruct (file_at dir p g) eqn:E; simpl; [exact IH|]. now rewrite E.
Qed.

Lemma World_ext (u w : World) :
  store u = store w -> files u = files w -> objects u = objects w ->
  s3_faults u = s3_faults w -> logs u = logs w -> time_zone u = time_zone w ->
  u = w.
Proof. destruct u, w. simpl. now intros -> -> -> -> -> ->. Qed.

(** What the cleanup of [createBackup] leaves: no entry at [p]. *)
Lemma unlink_ignoring_errors (p : string) (w : World) :
  exists w',
    try_catch (fs_unlink p) (fun _ => ret tt) w = (Ok tt, w') /\
    files w' =
      filter (fun f => negb (file_at (Config.localPath (backupConfig w)) p f)) (files w) /\
    store w' = store w /\ objects w' = objects w /\
    s3_faults w' = s3_faults w /\ logs w' = logs w /\
    time_zone w' = time_zone w.
Proof.
  unfold try_catch, fs_unlink, ret.
  destruct (existsb _ (files w)) eqn:E.
  - eexists. split; [reflexivity|]. simpl. repeat split.
  - exists w. split; [reflexivity|].
    rewrite existsb_false_filter by exact E. repeat split.
Qed.

Lemma filter_shorter {A} (p : A -> bool) (l : list A) :
  existsb (fun x => negb (p x)) l = true -> filter p l <> l.
Proof.
  intros H Heq.
  apply existsb_exists in H as (x & Hx & Hp).
  rewrite <- Heq in Hx. apply filter_In in Hx as [_ Hx].
  rewrite Hx in Hp. discriminate Hp.
Qed.

(** C9, the claim as stated: a failed creation leaves the state
    unchanged.  It does not hold: the cleanup unlinks whatever is at the
    output path, and that is an earlier backup when the generated name is
    one that the directory already has (the same database, format and
    millisecond).  Here [pg_dump] fails before it writes anything. *)
Lemma createBackup_failure_removes_earlier_backup :
  let w := world_of "local" [earlier_backup] [] [] in
  generateBackupFilename "2024-01-01T02:00:00.000Z" "postgres" "sql"
    = name earlier_backup /\
  fst (createBackup refused_pg_dump 5000 "2024-01-01T02:00:00.000Z" None w) =
    Throw (BackupFailed "Command failed: pg_dump: error: connection refused") /\
  files w = [earlier_backup] /\
  files (snd (createBackup refused_pg_dump 5000 "2024-01-01T02:00:00.000Z" None w))
    = [] /\
  snd (createBackup refused_pg_dump 5000 "2024-01-01T02:00:00.000Z" None w) <> w.
Proof.
  cbv zeta. repeat split; try (vm_compute; reflexivity).
  intros H. apply (f_equal files) in H. vm_compute in H. discriminate H.
Qed.

(** C9, amended: when [pg_dump] fails, [createBackup] unlinks the output
    path and throws the creation error that carries the diagnostic of the
    tool.  The directory then has no entry at the output path, so none
    with the file name of the failed backup; every other entry, the
    bucket, the configuration, the pending requests and the log are as
    before.  The state is as before the call exactly when the directory
    had no entry at the output path: an entry that was there already is
    removed with the partial output. *)
Theorem createBackup_failure_cleans_up
    (pg_dump : DumpRequest -> DumpOutcome) (now : Z) (iso : string)
    (format : option string) (w : World) (dbConfig : Config.DatabaseConfig)
    (diagnostic : string) (partial : option Z) :
  let backupFormat := backup_format format w in
  let dir := Config.localPath (backupConfig w) in
  let filename := generateBackupFilename iso (Config.database dbConfig) backupFormat in
  let filepath := Path.join dir filename in
  Config.getDatabaseConfig (store w) = Ok dbConfig ->
  pg_dump (dump_request dbConfig backupFormat filepath) = DumpFailed diagnostic partial ->
  exists w',
    createBackup pg_dump now iso format w = (Throw (BackupFailed diagnostic), w') /\
    BackupCreationFailed (BackupFailed diagnostic) /\
    message (BackupFailed diagnostic) = ("Backup failed: " ++ diagnostic)%string /\
    files w' = filter (fun f => negb (file_at dir filepath f)) (files w) /\
    existsb (file_at dir filepath) (files w') = false /\
    ~ In filename (map name (files w')) /\
    store w' = store w /\ objects w' = objects w /\
    s3_faults w' = s3_faults w /\ logs w' = logs w /\
    (w' = w <-> existsb (file_at dir filepath) (files w) = false).
Proof.
  intros backupFormat dir filename filepath Hdb Hdump.
  unfold createBackup. rewrite Hdb.
  fold backupFormat. fold filename. fold dir. fold filepath.
  unfold try_catch at 1. unfold bind at 1. unfold bind at 1.
  unfold exec_pg_dump. rewrite Hdump.
  change (dump_output (dump_request dbConfig backupFormat filepath)) with filepath.
  set (pre := match partial with
              | Some written => fs_write filepath written now
              | None => ret tt
              end).
  assert (Hpre : exists w1, pre w = (Ok tt, w1) /\
            store w1 = store w /\ objects w1 = objects w /\
            s3_faults w1 = s3_faults w /\ logs w1 = logs w /\
            time_zone w1 = time_zone w /\
            filter (fun f => negb (file_at dir filepath f)) (files w1) =
            filter (fun f => negb (file_at dir filepath f)) (files w)).
  { unfold pre. destruct partial as [written|].
    - unfold fs_write. fold dir.
      destruct (file_at dir filepath _) eqn:E.
      + eexists. split; [reflexivity|]. simpl. repeat split.
        apply put_file_filter; [exact E|].
        intros g Hg. unfold file_at in *. simpl in *. now rewrite Hg.
      + exists w. repeat split.
    - exists w. repeat split. }
  destruct Hpre as (w1 & Hw1 & Hst & Hob & Hfa & Hlo & Htz & Hfil).
  unfold bind at 1. rewrite Hw1. unfold throw at 1. unfold bind at 1.
  destruct (unlink_ignoring_errors filepath w1)
    as (w' & Hun & Hfiles & Hst' & Hob' & Hfa' & Hlo' & Htz').
  rewrite Hun. unfold throw. simpl message.
  assert (Hdir : Config.localPath (backupConfig w1) = dir).
  { unfold dir, backupConfig. now rewrite Hst. }
  rewrite Hdir, Hfil in Hfiles.
  exists w'. split; [reflexivity|].
  split; [now exists diagnostic|].
  split; [reflexivity|].
  split; [exact Hfiles|].
  split; [rewrite Hfiles; apply existsb_filter_out|].
  split.
  - rewrite Hfiles. intros Hin. apply in_map_iff in Hin as (g & Hg & Hi).
    apply filter_In in Hi as [_ Hi]. unfold file_at in Hi. rewrite Hg in Hi.
    fold filepath in Hi. now rewrite String.eqb_refl in Hi.
  - repeat (split; [congruence|]).
    split.
    + intros Heq. rewrite Heq in Hfiles.
      destruct (existsb (file_at dir filepath) (files w)) eqn:E; [|reflexivity].
      exfalso. symmetry in Hfiles. revert Hfiles. apply filter_shorter.
      apply existsb_exists in E as (g & Hg & Hat).
      apply existsb_exists. exists g. split; [exact Hg|].
      now rewrite Hat.
    + intros H. apply World_ext; try congruence.
      rewrite Hfiles. now apply existsb_false_filter.
Qed.

Lemma createBackup_failure_cleans_up_witness :
  exists w',
    createBackup failing_pg_dump 5000 "2024-01-01T02:00:00.000Z" None
      (world_of "local" [file_a] [] []) =
      (Throw (BackupFailed
                "Command failed: pg_dump: error: connection to server failed"), w') /\
    files w' = [file_a].
Proof.
  destruct (createBackup_failure_cleans_up failing_pg_dump 5000
              "2024-01-01T02:00:00.000Z" None (world_of "local" [file_a] [] [])
              _ _ (Some 512%Z) eq_refl eq_refl)
    as (w' & Hr & _ & _ & _ & _ & _ & _ & _ & _ & _ & Hsame).
  exists w'. split; [exact Hr|]. rewrite (proj2 Hsame); vm_compute; reflexivity.
Defined.

(** ** Normalised paths *)

Lemma no_sep_cases (s : string) :
  has_sep s = false -> s = "" \/ s = "." \/ s = ".." \/ valid_name s = true.
Proof.
  intros H. unfold valid_name. rewrite H.
  destruct (s =? "") eqn:E1; [apply String.eqb_eq in E1; auto|].
  destruct (s =? ".") eqn:E2; [apply String.eqb_eq in E2; auto|].
  destruct (s =? "..") eqn:E3; [apply String.eqb_eq in E3; auto|].
  right. right. right. reflexivity.
Qed.

Lemma normalize_step_normal (allow : bool) (stack : list string) (seg : string) :
  has_sep seg = false -> normal_stack allow stack ->
  normal_stack allow (Path.normalize_step allow stack seg).
Proof.
  intros Hs Hn.
  destruct (no_sep_cases seg Hs) as [->|[->|[->|Hv]]].
  - exact Hn.
  - exact Hn.
  - unfold Path.normalize_step. simpl.
    inversion Hn as [|top rest Hv Hr|rest Ha Hf]; subst.
    + destruct allow; [apply normal_up; auto | constructor].
    + destruct (top =? "..") eqn:E; [|exact Hr].
      apply String.eqb_eq in E. subst top. discriminate Hv.
    + simpl. apply normal_up; [reflexivity | now constructor].
  - rewrite valid_name_step by exact Hv. now apply normal_name.
Qed.

Lemma split_no_seps (s : string) :
  Forall (fun x => has_sep x = false) (JS.split Path.sep s).
Proof.
  induction s as [|c s IH]; simpl; [repeat constructor|].
  destruct (Ascii.eqb c Path.sep) eqn:E; [now constructor|].
  destruct (JS.split Path.sep s) as [|h t]; [repeat constructor; simpl; now rewrite E|].
  inversion IH; subst. constructor; [simpl; now rewrite E | assumption].
Qed.

Lemma fold_normalize_normal (allow : bool) (segs stack : list string) :
  Forall (fun x => has_sep x = false) segs -> normal_stack allow stack ->
  normal_stack allow (fold_left (Path.normalize_step allow) segs stack).
Proof.
  revert stack. induction segs as [|x segs IH]; intros stack Hf Hn; simpl; [exact Hn|].
  inversion Hf; subst. apply IH; [assumption|]. now apply normalize_step_normal.
Qed.

Lemma replay_dots (rest : list string) :
  Forall (eq "..") rest ->
  fold_left (Path.normalize_step true) (rev rest) [] = rest.
Proof.
  induction rest as [|x rest IH]; intros H; [reflexivity|].
  inversion H; subst. simpl. rewrite fold_left_app, IH by assumption. simpl.
  unfold Path.normalize_step. simpl. destruct rest as [|y rest]; [reflexivity|].
  inversion H3; subst. reflexivity.
Qed.

(** Normalising the segments of a normal stack again gives the stack. *)
Lemma replay_normal (allow : bool) (stack : list string) :
  normal_stack allow stack ->
  fold_left (Path.normalize_step allow) (rev stack) [] = stack.
Proof.
  induction 1 as [|top rest Hv Hn IH|rest Ha Hf].
  - reflexivity.
  - simpl. rewrite fold_left_app, IH. simpl. now apply valid_name_step.
  - subst allow. apply (replay_dots (".." :: rest)). now constructor.
Qed.

Lemma normal_stack_no_sep (allow : bool) (stack : list string) :
  normal_stack allow stack -> Forall (fun x => has_sep x = false /\ x <> "") stack.
Proof.
  induction 1 as [|top rest Hv Hn IH|rest Ha Hf].
  - constructor.
  - constructor; [|exact IH].
    split; [now apply valid_name_no_sep | now apply valid_name_not_empty].
  - constructor; [split; [reflexivity | discriminate]|].
    rewrite Forall_forall in *. intros x Hx. rewrite <- (Hf x Hx).
    split; [reflexivity | discriminate].
Qed.

Lemma split_concat (l : list string) :
  l <> [] -> Forall (fun x => has_sep x = false /\ x <> "") l ->
  JS.split Path.sep (String.concat "/" l) = l.
Proof.
  induction l as [|x l IH]; intros Hne Hf; [now elim Hne|].
  inversion Hf as [|? ? [Hx _] Hl]; subst.
  destruct l as [|y l].
  - simpl. now apply split_no_sep.
  - rewrite concat_cons by discriminate.
    change ("/" ++ String.concat "/" (y :: l))%string
      with (String Path.sep (String.concat "/" (y :: l))).
    rewrite split_app_sep, split_no_sep by exact Hx.
    rewrite IH by (auto; discriminate). reflexivity.
Qed.

Lemma concat_not_empty (l : list string) :
  l <> [] -> Forall (fun x => has_sep x = false /\ x <> "") l ->
  exists c r, String.concat "/" l = String c r /\ Ascii.eqb c Path.sep = false.
Proof.
  intros Hne Hf. destruct l as [|x l]; [now elim Hne|].
  inversion Hf as [|? ? [Hx Hxe] Hl]; subst.
  destruct x as [|c x]; [now elim Hxe|].
  simpl in Hx. apply orb_false_iff in Hx as [Hc _].
  exists c. destruct l; simpl; eauto.
Qed.

Lemma isAbsolute_cons (c : ascii) (r : string) :
  Path.isAbsolute (String c r) = Ascii.eqb c Path.sep.
Proof.
  unfold Path.isAbsolute, JS.startsWith. simpl.
  rewrite andb_true_r. apply Ascii.eqb_sym.
Qed.

Lemma split_trailing (c : ascii) (s : string) :
  JS.split c (s ++ String c "") = JS.split c s ++ [""].
Proof. apply (split_app_sep c s ""). Qed.

Lemma fold_skip_empty (allow : bool) (l stack : list string) :
  fold_left (Path.normalize_step allow) (l ++ [""]) stack =
  fold_left (Path.normalize_step allow) l stack.
Proof. now rewrite fold_left_app. Qed.

Lemma normalize_no_segments (q : string) :
  q <> "" -> Path.segments q = [] ->
  Path.normalize q =
  if Path.isAbsolute q then "/" else if JS.endsWith q "/" then "./" else ".".
Proof.
  intros Hq Hs. unfold Path.normalize. destruct q; [now elim Hq|].
  now rewrite Hs.
Qed.

Lemma normalize_some_segments (q : string) (segs : list string) :
  q <> "" -> Path.segments q = segs -> segs <> [] ->
  Forall (fun x => has_sep x = false /\ x <> "") segs ->
  Path.normalize q =
  ((if Path.isAbsolute q then "/" else "") ++ String.concat "/" segs ++
   (if JS.endsWith q "/" then "/" else ""))%string.
Proof.
  intros Hq Hs Hne Hf. unfold Path.normalize. destruct q; [now elim Hq|].
  rewrite Hs. destruct (concat_not_empty segs Hne Hf) as (c & r & Hc & _).
  now rewrite Hc.
Qed.

(** [normalize] keeps the segments and the kind of path. *)
Lemma segments_normalize (q : string) :
  Path.segments (Path.normalize q) = Path.segments q /\
  Path.isAbsolute (Path.normalize q) = Path.isAbsolute q.
Proof.
  destruct (string_dec q "") as [->|Hq]; [split; reflexivity|].
  set (allow := negb (Path.isAbsolute q)).
  set (stack := fold_left (Path.normalize_step allow) (JS.split Path.sep q) []).
  assert (Hn : normal_stack allow stack).
  { apply fold_normalize_normal; [apply split_no_seps | constructor]. }
  assert (Hseg : Path.segments q = rev stack) by reflexivity.
  pose proof (normal_stack_no_sep _ _ Hn) as Hf.
  apply Forall_rev in Hf.
  destruct (rev stack) as [|x l] eqn:El.
  - rewrite (normalize_no_segments q Hq Hseg), Hseg.
    destruct (Path.isAbsolute q) eqn:Ea; [split; reflexivity|].
    destruct (JS.endsWith q "/"); split; reflexivity.
  - rewrite (normalize_some_segments q (x :: l) Hq Hseg ltac:(discriminate) Hf), Hseg.
    destruct (concat_not_empty (x :: l) ltac:(discriminate) Hf) as (c & r & Hc & Hcs).
    assert (Habs : Path.isAbsolute
              ((if Path.isAbsolute q then "/" else "") ++ String.concat "/" (x :: l) ++
               (if JS.endsWith q "/" then "/" else ""))%string = Path.isAbsolute q).
    { destruct (Path.isAbsolute q); [reflexivity|].
      rewrite Hc. simpl. now rewrite isAbsolute_cons. }
    split; [|exact Habs].
    unfold Path.segments. rewrite Habs. fold allow.
    unfold Path.normalize_segments.
    assert (Hmid : fold_left (Path.normalize_step allow) (x :: l) [] = stack).
    { rewrite <- El. now apply replay_normal. }
    assert (Hpre : fold_left (Path.normalize_step allow) ("" :: x :: l) [] = stack)
      by exact Hmid.
    destruct (Path.isAbsolute q), (JS.endsWith q "/").
    + change ("/" ++ String.concat "/" (x :: l) ++ "/")%string
        with ("" ++ String Path.sep (String.concat "/" (x :: l) ++ String Path.sep ""))%string.
      rewrite split_app_sep, split_trailing, split_concat by (assumption || discriminate).
      change (JS.split Path.sep "" ++ (x :: l) ++ [""]) with (("" :: x :: l) ++ [""]).
      now rewrite fold_skip_empty, Hpre.
    + change ("/" ++ String.concat "/" (x :: l) ++ "")%string
        with ("" ++ String Path.sep (String.concat "/" (x :: l) ++ ""))%string.
      rewrite split_app_sep, append_empty_r, split_concat by (assumption || discriminate).
      change (JS.split Path.sep "" ++ (x :: l)) with ("" :: x :: l).
      now rewrite Hpre.
    + change ("" ++ String.concat "/" (x :: l) ++ "/")%string
        with (String.concat "/" (x :: l) ++ String Path.sep "")%string.
      rewrite split_trailing, split_concat by (assumption || discriminate).
      now rewrite fold_skip_empty, Hmid.
    + change ("" ++ String.concat "/" (x :: l) ++ "")%string
        with (String.concat "/" (x :: l) ++ "")%string.
      rewrite append_empty_r, split_concat by (assumption || discriminate).
      now rewrite Hmid.
Qed.

(** ** Local path resolution *)

Lemma strip_prefix_app (l r : list string) : Path.strip_prefix l (l ++ r) = Some r.
Proof.
  induction l as [|x l IH]; simpl; [reflexivity|].
  now rewrite String.eqb_refl.
Qed.

Lemma isAbsolute_no_sep (b : string) : has_sep b = false -> Path.isAbsolute b = false.
Proof.
  destruct b as [|c b]; [reflexivity|]. simpl. intros H.
  apply orb_false_iff in H as [Hc _]. now rewrite isAbsolute_cons.
Qed.

(** The segments of [path.join(dir, b)] for a [b] without a slash: those
    of [dir], after one more step of the normalisation. *)
Lemma segments_join (dir b : string) :
  has_sep b = false ->
  Path.isAbsolute (Path.join dir b) = Path.isAbsolute dir /\
  Path.segments (Path.join dir b) =
    rev (Path.normalize_step (negb (Path.isAbsolute dir)) (rev (Path.segments dir)) b).
Proof.
  intros Hb. unfold Path.join.
  destruct dir as [|d dir], b as [|c b].
  - split; reflexivity.
  - destruct (segments_normalize (String c b)) as [-> ->].
    rewrite (isAbsolute_no_sep _ Hb). split; [reflexivity|].
    unfold Path.segments, Path.normalize_segments.
    rewrite (isAbsolute_no_sep _ Hb), split_no_sep by exact Hb. reflexivity.
  - destruct (segments_normalize (String d dir)) as [-> ->].
    split; [reflexivity|].
    unfold Path.normalize_step. simpl. now rewrite rev_involutive.
  - destruct (segments_normalize (String d dir ++ "/" ++ String c b)) as [-> ->].
    assert (Ha : Path.isAbsolute (String d dir ++ "/" ++ String c b) =
                 Path.isAbsolute (String d dir)) by reflexivity.
    split; [exact Ha|].
    unfold Path.segments, Path.normalize_segments. rewrite Ha.
    change ("/" ++ String c b)%string with (String Path.sep (String c b)).
    rewrite split_app_sep, fold_left_app, split_no_sep by exact Hb.
    rewrite rev_involutive. reflexivity.
Qed.

(** Whenever the base name of the input is not [".."], the resolved path
    is the backup directory or lies inside it. *)
Lemma getLocalBackupPath_inside (w : World) (filename : string) :
  Path.basename filename <> ".." ->
  getLocalBackupPath w filename =
    Path.join (Config.localPath (backupConfig w)) (Path.basename filename) /\
  Path.inside (Config.localPath (backupConfig w)) (getLocalBackupPath w filename) = true.
Proof.
  intros Hdd. split; [reflexivity|].
  unfold getLocalBackupPath, Path.inside.
  set (dir := Config.localPath (backupConfig w)).
  set (b := Path.basename filename) in *.
  pose proof (has_sep_basename filename) as Hb. fold b in Hb.
  destruct (segments_join dir b Hb) as [-> ->].
  rewrite Bool.eqb_reflx. simpl andb.
  destruct (no_sep_cases b Hb) as [->|[->|[Hx|Hv]]].
  - unfold Path.normalize_step. simpl. rewrite rev_involutive.
    rewrite <- (app_nil_r (Path.segments dir)) at 2.
    now rewrite strip_prefix_app.
  - unfold Path.normalize_step. simpl. rewrite rev_involutive.
    rewrite <- (app_nil_r (Path.segments dir)) at 2.
    now rewrite strip_prefix_app.
  - now elim Hdd.
  - rewrite valid_name_step by exact Hv.
    change (rev (b :: rev (Path.segments dir)))
      with (rev (rev (Path.segments dir)) ++ [b]).
    rewrite rev_involutive, strip_prefix_app.
    change (negb ((".." =? b) || false) = true).
    rewrite orb_false_r, String.eqb_sym.
    unfold valid_name in Hv.
    apply andb_true_iff in Hv as [Hv _]. now apply andb_true_iff in Hv as [_ Hv].
Qed.

Lemma getLocalBackupPath_traversal (w : World) :
  Config.localPath (backupConfig w) = "./backups" ->
  getLocalBackupPath w "../../etc/passwd" = "backups/passwd".
Proof. intros H. unfold getLocalBackupPath. now rewrite H. Qed.

(** C10, evaluated at the input [".."]: [path.basename] returns [".."]
    unchanged, so the path that [getLocalBackupPath] and
    [deleteLocalBackup] resolve is the parent of the configured backup
    directory, outside that directory ([unlink] then refuses it as a
    directory). *)
Theorem getLocalBackupPath_dotdot_escapes :
  let w := world_of "local" [file_a] [] [] in
  Config.localPath (backupConfig w) = "./backups" /\
  Path.basename ".." = ".." /\
  getLocalBackupPath w ".." = Path.join "./backups" (Path.basename "..") /\
  getLocalBackupPath w ".." = "." /\
  Path.inside "./backups" (getLocalBackupPath w "..") = false /\
  fst (deleteLocalBackup ".." w) =
    Throw (LocalDeleteFailed
             "EISDIR: illegal operation on a directory, unlink '.'").
Proof. cbv zeta. repeat split; vm_compute; reflexivity. Qed.

(** ** Retention *)

Lemma store_config (u w : World) :
  store u = store w ->
  backupConfig u = backupConfig w /\ key_prefix u = key_prefix w /\
  isS3Configured u = isS3Configured w.
Proof.
  intros H. unfold backupConfig, key_prefix, isS3Configured, s3Config.
  now rewrite H.
Qed.

Lemma deleteLocalBackup_spec (f : string) (u : World) :
  let dir := Config.localPath (backupConfig u) in
  let p := Path.join dir (Path.basename f) in
  deleteLocalBackup f u =
  if existsb (file_at dir p) (files u)
  then (Ok true, set_files (filter (fun g => negb (file_at dir p g)) (files u)) u)
  else (Throw (LocalDeleteFailed (unlink_failure dir p)), u).
Proof.
  cbv zeta. unfold deleteLocalBackup, try_catch, bind, fs_unlink, ret, throw.
  destruct (existsb _ (files u)); reflexivity.
Qed.

Lemma deleteFromS3_spec (f : string) (u : World) :
  deleteFromS3 f u =
  if negb (isS3Configured u) then (Throw S3NotConfigured, u)
  else match s3_faults u with
       | Some reason :: rest => (Throw (S3DeleteFailed reason), set_faults rest u)
       | None :: rest =>
           (Ok true,
            set_objects (filter (fun o => negb (Key o =? key_prefix u ++ f))
                                (objects u)) (set_faults rest u))
       | [] =>
           (Ok true,
            set_objects (filter (fun o => negb (Key o =? key_prefix u ++ f))
                                (objects u)) u)
       end.
Proof.
  unfold deleteFromS3. destruct (isS3Configured u); simpl; [|reflexivity].
  unfold_m. destruct (s3_faults u) as [|[r|] rest]; reflexivity.
Qed.

Lemma existsb_incl {A} (p : A -> bool) (l l' : list A) :
  incl l' l -> existsb p l = false -> existsb p l' = false.
Proof.
  intros Hi H. destruct (existsb p l') eqn:E; [|reflexivity].
  apply existsb_exists in E as (x & Hx & Hp).
  assert (Ht : existsb p l = true) by (apply existsb_exists; eauto).
  congruence.
Qed.

Lemma existsb_filter_negb {A} (p : A -> bool) (l : list A) :
  existsb p (filter (fun x => negb (p x)) l) = false.
Proof.
  induction l as [|x l IH]; simpl; [reflexivity|].
  destruct (p x) eqn:E; simpl; [exact IH | now rewrite E].
Qed.

Lemma incl_filter {A} (p : A -> bool) (l : list A) : incl (filter p l) l.
Proof. intros x Hx. now apply filter_In in Hx. Qed.

(** One pass through the body of the [try] block. *)
Lemma delete_expired_spec (w : World) (b : Backup) (u : World) :
  store u = store w ->
  exists r u',
    delete_expired b u = (r, u') /\
    store u' = store w /\
    logs u' = logs u /\
    files u' =
      (if local_side b
       then filter (fun g => negb (file_at (Config.localPath (backupConfig w))
                                            (local_path w b) g)) (files u)
       else files u) /\
    incl (objects u') (objects u) /\
    (r = Ok tt -> removed w b u') /\
    (r = Ok tt ->
     objects u' =
       if remote_side b
       then filter (fun o => negb (Key o =? remote_key w b)) (objects u)
       else objects u) /\
    (s3_faults u = [] -> s3_faults u' = []) /\
    (s3_faults u = [] ->
     (local_side b = true -> has_file_at w (local_path w b) u = true) ->
     (remote_side b = true -> isS3Configured w = true) ->
     r = Ok tt).
Proof.
  intros Hst.
  destruct (store_config u w Hst) as (Hbc & Hkp & Hconf).
  unfold delete_expired, removed, has_file_at, has_object, local_path, remote_key.
  fold (local_side b). fold (remote_side b).
  unfold bind at 1. unfold bind at 1.
  destruct (local_side b) eqn:El.
  - unfold bind at 1. rewrite deleteLocalBackup_spec. cbv zeta. rewrite Hbc.
    set (dir := Config.localPath (backupConfig w)).
    set (p := Path.join dir (Path.basename (filename b))).
    destruct (existsb (file_at dir p) (files u)) eqn:Ex.
    + unfold ret at 1.
      set (u1 := set_files _ u).
      assert (Hst1 : store u1 = store w) by exact Hst.
      destruct (store_config u1 w Hst1) as (_ & Hkp1 & Hconf1).
      destruct (remote_side b) eqn:Er.
      * unfold bind. rewrite deleteFromS3_spec, Hconf1, Hkp1.
        destruct (isS3Configured w) eqn:Ec; simpl negb; cbv iota.
        -- change (s3_faults u1) with (s3_faults u). change (objects u1) with (objects u).
           destruct (s3_faults u) as [|[reason|] rest] eqn:Ef.
           ++ unfold ret. eexists _, _. split; [reflexivity|]. simpl.
              repeat split; auto using incl_filter.
              ** intros _. apply existsb_filter_negb.
              ** intros _. apply (existsb_filter_negb (fun o => Key o =? key_prefix w ++ filename b)).
           ++ eexists _, _. split; [reflexivity|]. simpl.
              repeat split; auto using incl_refl; try discriminate.
           ++ unfold ret. eexists _, _. split; [reflexivity|]. simpl.
              repeat split; auto using incl_filter; try discriminate.
              ** intros _. apply existsb_filter_negb.
              ** intros _. apply (existsb_filter_negb (fun o => Key o =? key_prefix w ++ filename b)).
        -- eexists _, _. split; [reflexivity|]. simpl.
           repeat split; auto using incl_refl; try discriminate.
           intros _ _ H. discriminate (H eq_refl).
      * unfold ret. eexists _, _. split; [reflexivity|]. simpl.
        repeat split; auto using incl_refl; try discriminate.
        intros _. apply existsb_filter_negb.
    + eexists _, _. split; [reflexivity|].
      rewrite (existsb_false_filter dir p (files u) Ex).
      repeat split; auto using incl_refl; try discriminate.
      intros _ H. discriminate (H eq_refl).
  - unfold ret at 1.
    destruct (remote_side b) eqn:Er.
    + unfold bind. rewrite deleteFromS3_spec, Hconf, Hkp.
      destruct (isS3Configured w) eqn:Ec; simpl negb; cbv iota.
      * destruct (s3_faults u) as [|[reason|] rest] eqn:Ef.
        -- unfold ret. eexists _, _. split; [reflexivity|]. simpl.
           repeat split; auto using incl_filter; try discriminate.
           intros _. apply (existsb_filter_negb (fun o => Key o =? key_prefix w ++ filename b)).
        -- eexists _, _. split; [reflexivity|]. simpl.
           repeat split; auto using incl_refl; try discriminate.
        -- unfold ret. eexists _, _. split; [reflexivity|]. simpl.
           repeat split; auto using incl_filter; try discriminate.
           intros _. apply (existsb_filter_negb (fun o => Key o =? key_prefix w ++ filename b)).
      * eexists _, _. split; [reflexivity|]. simpl.
        repeat split; auto using incl_refl; try discriminate.
        intros _ _ H. discriminate (H eq_refl).
    + unfold ret. eexists _, _. split; [reflexivity|].
      repeat split; auto using incl_refl; discriminate.
Qed.

Lemma removed_mono (w : World) (b : Backup) (u u' : World) :
  incl (files u') (files u) -> incl (objects u') (objects u) ->
  removed w b u -> removed w b u'.
Proof.
  intros Hf Ho [Hl Hr]. unfold removed, has_file_at, has_object in *.
  split; intros H; eapply existsb_incl; eauto.
Qed.

Lemma filter_filter {A} (p q : A -> bool) (l : list A) :
  filter p (filter q l) = filter (fun x => q x && p x) l.
Proof.
  induction l as [|x l IH]; simpl; [reflexivity|].
  destruct (q x); simpl; [destruct (p x)|]; now rewrite IH.
Qed.

Lemma filter_all {A} (p : A -> bool) (l : list A) :
  (forall x, In x l -> p x = true) -> filter p l = l.
Proof.
  induction l as [|x l IH]; simpl; intros H; [reflexivity|].
  rewrite (H x (or_introl eq_refl)), IH; auto.
Qed.

(** The loop of [applyRetentionPolicy]: every expired artifact has one
    outcome, which is logged; the count grows by one for each artifact that
    was deleted, whatever the number of archives. *)
Lemma retention_loop_spec (w : World) (cutoff : option Z) (l : list Backup) :
  forall (c : nat) (u : World),
    store u = store w ->
    exists n u' outcomes,
      retention_loop cutoff l c u = (Ok n, u') /\
      store u' = store w /\
      length outcomes = length (filter (expired cutoff) l) /\
      n = c + count_true outcomes /\
      logs u' = sweep_logs (filter (expired cutoff) l) outcomes ++ logs u /\
      files u' = filter (fun g => negb (swept_file w cutoff l g)) (files u) /\
      incl (objects u') (objects u) /\
      Forall2 (fun b ok => ok = true -> removed w b u')
              (filter (expired cutoff) l) outcomes.
Proof.
  induction l as [|b l IH]; intros c u Hst.
  - exists c, u, []. simpl. unfold ret, count_true. simpl.
    repeat split; auto using incl_refl.
    symmetry. now apply filter_all.
  - cbn [retention_loop filter].
    destruct (expired cutoff b) eqn:Ex.
    + unfold bind at 1. unfold try_catch. unfold bind at 1.
      destruct (delete_expired_spec w b u Hst)
        as (r & u1 & Hrun & Hst1 & Hlog1 & Hfiles1 & Hobj1 & Hrem & _).
      rewrite Hrun.
      assert (Hfilt :
                filter (fun g => negb (swept_file w cutoff l g))
                  (if local_side b
                   then filter (fun g => negb (file_at (Config.localPath (backupConfig w))
                                                        (local_path w b) g)) (files u)
                   else files u) =
                filter (fun g => negb (swept_file w cutoff (b :: l) g)) (files u)).
      { unfold swept_file. cbn [existsb]. rewrite Ex.
        destruct (local_side b); simpl.
        - rewrite filter_filter. apply filter_ext. intros g.
          now rewrite negb_orb.
        - reflexivity. }
      destruct r as [[]|e].
      * unfold bind at 1. unfold logger_info at 1. unfold ret at 1.
        set (u2 := add_log _ u1).
        destruct (IH (S c) u2 Hst1) as (n & u' & outs & Hl & Hs & Hlen & Hn & Hlogs & Hf & Ho & Hall).
        exists n, u', (true :: outs). rewrite Hl.
        split; [reflexivity|]. split; [exact Hs|].
        split; [simpl; now rewrite Hlen|].
        split; [unfold count_true in *; simpl; lia|].
        split; [|split; [|split]].
        -- rewrite Hlogs. unfold sweep_logs. simpl.
           rewrite <- app_assoc, Hlog1. reflexivity.
        -- rewrite Hf. simpl files. rewrite Hfiles1. exact Hfilt.
        -- intros o Hin. apply Hobj1, Ho, Hin.
        -- constructor; [|exact Hall].
           intros _. apply (removed_mono w b u1); [| |now apply Hrem].
           ++ rewrite Hf. apply incl_filter.
           ++ exact Ho.
      * unfold bind at 1. unfold logger_error at 1. unfold ret at 1.
        set (u2 := add_log _ u1).
        destruct (IH c u2 Hst1) as (n & u' & outs & Hl & Hs & Hlen & Hn & Hlogs & Hf & Ho & Hall).
        exists n, u', (false :: outs). rewrite Hl.
        split; [reflexivity|]. split; [exact Hs|].
        split; [simpl; now rewrite Hlen|].
        split; [unfold count_true in *; simpl; lia|].
        split; [|split; [|split]].
        -- rewrite Hlogs. unfold sweep_logs. simpl.
           rewrite <- app_assoc, Hlog1. reflexivity.
        -- rewrite Hf. simpl files. rewrite Hfiles1. exact Hfilt.
        -- intros o Hin. apply Hobj1, Ho, Hin.
        -- constructor; [discriminate | exact Hall].
    + destruct (IH c u Hst) as (n & u' & outs & Hl & Hs & Hlen & Hn & Hlogs & Hf & Ho & Hall).
      exists n, u', outs. rewrite Hl.
      repeat split; auto.
      rewrite Hf. apply filter_ext. intros g. unfold swept_file.
      cbn [existsb]. now rewrite Ex.
Qed.

Lemma TimeClip_in_range (t : Z) :
  (Z.abs t <= 8640000000000000)%Z -> TimeClip t = Some t.
Proof.
  intros H. unfold TimeClip, max_time.
  destruct (Z.abs t <=? 8640000000000000)%Z eqn:E; [reflexivity|].
  apply Z.leb_gt in E. lia.
Qed.


(** In a zone whose offset is the same at both ends the cutoff is [now]
    minus the days, as long as a [Date] can hold it. *)
Lemma retentionDate_days (zone : TimeZone) (now d : Z) :
  offset_of_local zone (now + offset_at zone now - d * 86400000)
    = offset_at zone now ->
  (Z.abs (now - d * 86400000) <= 8640000000000000)%Z ->
  retentionDate zone now (Some d) = Some (now - d * 86400000)%Z.
Proof.
  intros Hz Hr. unfold retentionDate, day_ms. cbv zeta. rewrite Hz.
  replace (now + offset_at zone now - d * 86400000 - offset_at zone now)%Z
    with (now - d * 86400000)%Z by lia.
  now apply TimeClip_in_range.
Qed.




(** Days are days of the local calendar: a week back from a day after
    the clocks moved forward is an hour less than seven times 24 hours. *)
Lemma retentionDate_across_offset_change :
  let now := 1000100000000%Z in
  retentionDate summer_zone now (Some 7%Z)
    = Some (now - 7 * 86400000 + 3600000)%Z /\
  retentionDate utc now (Some 7%Z) = Some (now - 7 * 86400000)%Z.
Proof. split; reflexivity. Qed.

(** A retention that moves the cutoff out of the range of [Date] switches
    the sweep off, like one that is not a number. *)
Lemma applyRetentionPolicy_out_of_range :
  let w := {| store := Config.initial [("BACKUP_RETENTION_DAYS", "-200000000")];
              files := [file_a]; objects := []; s3_faults := []; logs := [];
              time_zone := utc |} in
  let now := 1000000000%Z in
  Config.retentionDays (backupConfig w) = Some (-200000000)%Z /\
  retentionDate (time_zone w) now (Config.retentionDays (backupConfig w)) = None /\
  applyRetentionPolicy now w = (Ok 0, w).
Proof. cbv zeta. repeat split; vm_compute; reflexivity. Qed.

(** ** The storage mode and the sweep *)

Lemma delete_expired_local_only (b : Backup) (u : World) :
  remote_side b = false ->
  exists r u', delete_expired b u = (r, u') /\
               objects u' = objects u /\ s3_faults u' = s3_faults u.
Proof.
  intros Hr. unfold delete_expired. fold (local_side b). fold (remote_side b).
  rewrite Hr. unfold bind at 1. unfold bind at 1.
  destruct (local_side b).
  - unfold bind. rewrite deleteLocalBackup_spec. cbv zeta.
    destruct (existsb _ (files u)); unfold ret; eexists _, _; repeat split.
  - unfold ret. eexists _, _. repeat split.
Qed.

Lemma retention_loop_local_only (cutoff : option Z) (l : list Backup) :
  (forall b, In b l -> expired cutoff b = true -> remote_side b = false) ->
  forall (c : nat) (u : World),
    exists n u', retention_loop cutoff l c u = (Ok n, u') /\
                 objects u' = objects u /\ s3_faults u' = s3_faults u.
Proof.
  induction l as [|b l IH]; intros H c u.
  - exists c, u. repeat split.
  - assert (Hl : forall b', In b' l -> expired cutoff b' = true -> remote_side b' = false)
      by (intros b' Hb'; apply H; now right).
    cbn [retention_loop]. destruct (expired cutoff b) eqn:Ex.
    + destruct (delete_expired_local_only b u (H b (or_introl eq_refl) Ex))
        as (r & u1 & Hrun & Ho & Hf).
      unfold bind at 1. unfold try_catch. unfold bind at 1. rewrite Hrun.
      destruct r as [[]|e].
      * unfold bind at 1. unfold logger_info at 1. unfold ret at 1.
        destruct (IH Hl (S c) (add_log (info ("Deleted old backup: " ++ filename b)) u1))
          as (n & u' & Hrun' & Ho' & Hf').
        exists n, u'. rewrite Hrun'. simpl in Ho', Hf'. repeat split; congruence.
      * unfold bind at 1. unfold logger_error at 1. unfold ret at 1.
        destruct (IH Hl c (add_log (error ("Failed to delete old backup " ++ filename b)) u1))
          as (n & u' & Hrun' & Ho' & Hf').
        exists n, u'. rewrite Hrun'. simpl in Ho', Hf'. repeat split; congruence.
    + apply IH, Hl.
Qed.

Lemma mergeBackups_no_remote (l : list Backup) (a : Backup) :
  In a (mergeBackups l []) -> location a = local.
Proof.
  unfold mergeBackups. rewrite sort_by_date_desc_In. simpl.
  unfold map_values. rewrite in_map_iff. intros ([k v] & <- & Hin).
  now apply (merge_local_nil_values l k v).
Qed.

Lemma filter_absent_nil (r : list Backup) : filter (absent_from []) r = r.
Proof. apply filter_all. reflexivity. Qed.

Lemma mergeBackups_no_local (r : list Backup) (a : Backup) :
  NoDup (names r) -> In a (mergeBackups [] r) -> location a = remote.
Proof.
  intros Hr. unfold mergeBackups. rewrite sort_by_date_desc_In.
  fold (merged_map [] r). rewrite merged_map_distinct by exact Hr.
  simpl. rewrite filter_absent_nil. unfold map_values. rewrite map_map.
  rewrite in_map_iff. now intros (b & <- & _).
Qed.

(** With the storage mode ["local"] the bucket is not asked for its
    listing, every artifact is reported as [local], and the sweep sends no
    request to the object store and leaves the bucket as it is. *)
Lemma local_mode_leaves_bucket (w : World) (now : Z) :
  Config.storage (backupConfig w) = "local" ->
  exists all n w2,
    listAllBackups w = (Ok all, w) /\
    (forall a, In a all -> location a = local) /\
    applyRetentionPolicy now w = (Ok n, w2) /\
    objects w2 = objects w /\ s3_faults w2 = s3_faults w.
Proof.
  intros Hs.
  assert (Hall : listAllBackups w = (Ok (mergeBackups (fetch_local w) []), w)).
  { unfold listAllBackups, bind, fetch_remote. rewrite Hs. reflexivity. }
  destruct (retention_loop_local_only
              (retentionDate (time_zone w) now (Config.retentionDays (backupConfig w)))
              (mergeBackups (fetch_local w) [])) with (c := 0) (u := w)
    as (n & w2 & Hrun & Ho & Hf).
  { intros b Hb _. apply mergeBackups_no_remote in Hb.
    unfold remote_side. now rewrite Hb. }
  exists (mergeBackups (fetch_local w) []), n, w2.
  split; [exact Hall|].
  split; [intros a; apply mergeBackups_no_remote|].
  split; [unfold applyRetentionPolicy, bind; now rewrite Hall|].
  now split.
Qed.

(** With the storage mode ["remote"] the directory is not listed; when the
    file names of the remote listing are pairwise distinct every artifact
    is reported as [remote] and the sweep leaves the directory as it is. *)
Lemma remote_mode_leaves_directory (w : World) (now : Z)
    (remoteBackups : list Backup) (w1 : World) :
  Config.storage (backupConfig w) = "remote" ->
  fetch_remote w = (Ok remoteBackups, w1) ->
  NoDup (names remoteBackups) ->
  exists all n w2,
    listAllBackups w = (Ok all, w1) /\
    (forall a, In a all -> location a = remote) /\
    applyRetentionPolicy now w = (Ok n, w2) /\
    files w2 = files w.
Proof.
  intros Hs Hfetch Hnd.
  assert (Hloc : fetch_local w = []).
  { unfold fetch_local. now rewrite Hs. }
  assert (Hall : listAllBackups w = (Ok (mergeBackups [] remoteBackups), w1)).
  { unfold listAllBackups, bind. now rewrite Hfetch, Hloc. }
  assert (Hst : store w1 = store w /\ files w1 = files w).
  { unfold fetch_remote, listS3Backups in Hfetch. revert Hfetch. unfold_m.
    destruct (_ && isS3Configured w); [|now intros [= _ <-]].
    destruct (negb (isS3Configured w)); [now intros [= _ <-]|].
    destruct (s3_faults w) as [|[r|] rest]; now intros [= _ <-]. }
  destruct Hst as [Hst Hfiles].
  destruct (retention_loop_spec w
              (retentionDate (time_zone w) now (Config.retentionDays (backupConfig w)))
              (mergeBackups [] remoteBackups) 0 w1 Hst)
    as (n & w2 & outs & Hl & _ & _ & _ & _ & Hf & _).
  exists (mergeBackups [] remoteBackups), n, w2.
  split; [exact Hall|].
  split; [intros a; now apply mergeBackups_no_local|].
  split; [unfold applyRetentionPolicy, bind; now rewrite Hall|].
  rewrite Hf, Hfiles. apply filter_all. intros g _.
  apply negb_true_iff. unfold swept_file.
  destruct (existsb _ _) eqn:E; [|reflexivity].
  apply existsb_exists in E as (b & Hb & Hp).
  apply mergeBackups_no_local in Hb; [|exact Hnd].
  unfold local_side in Hp. rewrite Hb in Hp. simpl in Hp.
  now rewrite andb_false_r in Hp.
Qed.

(** C5, evaluated in the storage mode ["remote"] on a bucket where two
    keys have the base name [backup_a.sql]: the second one takes the
    branch for a name already in the map, the artifact is reported as
    [both] although the directory was not listed, and the sweep deletes the
    local file of that name. *)
Theorem remote_mode_sweep_deletes_local_file :
  let w := world_of "remote" [file_a] [nested_a; object_a] [] in
  let now := 1000000000%Z in
  Config.storage (backupConfig w) = "remote" /\
  fetch_local w = [] /\
  fst (listAllBackups w) =
    Ok [{| filename := "backup_a.sql"; size := 10; date := 900;
           location := both; format := None |}] /\
  fst (applyRetentionPolicy now w) = Ok 1 /\
  files w = [file_a] /\
  files (snd (applyRetentionPolicy now w)) = [] /\
  objects (snd (applyRetentionPolicy now w)) = [nested_a].
Proof. cbv zeta. repeat split; vm_compute; reflexivity. Qed.

(** ** A sweep in which nothing fails *)

Lemma has_file_at_filter (w : World) (p p' : string) (l : list LocalFile) :
  p <> p' ->
  existsb (file_at (Config.localPath (backupConfig w)) p') l = true ->
  existsb (file_at (Config.localPath (backupConfig w)) p')
    (filter (fun g => negb (file_at (Config.localPath (backupConfig w)) p g)) l) = true.
Proof.
  intros Hne H. apply existsb_exists in H as (g & Hg & Hat).
  apply existsb_exists. exists g. split; [|exact Hat].
  apply filter_In. split; [exact Hg|].
  apply negb_true_iff. unfold file_at in *.
  apply String.eqb_eq in Hat. apply String.eqb_neq. congruence.
Qed.

Lemma retention_loop_all_succeed (w : World) (cutoff : option Z) (l : list Backup) :
  forall (c : nat) (u : World),
    store u = store w ->
    s3_faults u = [] ->
    (forall b, In b l -> expired cutoff b = true -> local_side b = true ->
               has_file_at w (local_path w b) u = true) ->
    NoDup (map (local_path w) (filter (fun b => expired cutoff b && local_side b) l)) ->
    (forall b, In b l -> expired cutoff b = true -> remote_side b = true ->
               isS3Configured w = true) ->
    exists u',
      retention_loop cutoff l c u =
        (Ok (c + length (filter (expired cutoff) l)), u') /\
      store u' = store w /\
      s3_faults u' = [] /\
      files u' = filter (fun g => negb (swept_file w cutoff l g)) (files u) /\
      objects u' = filter (fun o => negb (swept_object w cutoff l o)) (objects u).
Proof.
  induction l as [|b l IH]; intros c u Hst Hfl Hfile Hnd Hconf.
  - exists u. simpl. unfold ret. rewrite Nat.add_0_r.
    repeat split; auto; symmetry; now apply filter_all.
  - cbn [retention_loop filter].
    assert (Hconf' : forall b', In b' l -> expired cutoff b' = true ->
                       remote_side b' = true -> isS3Configured w = true)
      by (intros b' Hb'; apply Hconf; now right).
    destruct (expired cutoff b) eqn:Ex.
    + destruct (delete_expired_spec w b u Hst)
        as (r & u1 & Hrun & Hst1 & Hlog1 & Hfiles1 & _ & _ & Hobj1 & Hfl1 & Hok).
      assert (Hr : r = Ok tt).
      { apply Hok; [exact Hfl | |].
        - intros Hls. apply Hfile; auto. now left.
        - intros Hrs. apply (Hconf b); auto. now left. }
      subst r. specialize (Hobj1 eq_refl). specialize (Hfl1 Hfl).
      unfold bind at 1. unfold try_catch. unfold bind at 1. rewrite Hrun.
      unfold bind at 1. unfold logger_info at 1. unfold ret at 1.
      set (u2 := add_log _ u1).
      destruct (IH (S c) u2) as (u' & Hl & Hs & Hf' & Hfiles & Hobjs).
      * exact Hst1.
      * exact Hfl1.
      * intros b' Hb' Hex' Hls'. unfold has_file_at. simpl files. rewrite Hfiles1.
        pose proof (Hfile b' (or_intror Hb') Hex' Hls') as Hat.
        destruct (local_side b) eqn:Els; [|exact Hat].
        apply has_file_at_filter; [|exact Hat].
        simpl in Hnd. rewrite Ex, Els in Hnd. simpl in Hnd.
        inversion Hnd as [|? ? Hnin _]; subst.
        intros Heq. apply Hnin. rewrite Heq. apply in_map.
        apply filter_In. split; [exact Hb'|]. now rewrite Hex', Hls'.
      * simpl in Hnd. rewrite Ex in Hnd.
        destruct (local_side b); simpl in Hnd; [now inversion Hnd | exact Hnd].
      * exact Hconf'.
      * exists u'. rewrite Hl. split; [f_equal; f_equal; simpl; lia|].
        split; [exact Hs|]. split; [exact Hf'|]. split.
        -- rewrite Hfiles. simpl files. rewrite Hfiles1.
           unfold swept_file. cbn [existsb]. rewrite Ex.
           destruct (local_side b); simpl; [|reflexivity].
           rewrite filter_filter. apply filter_ext. intros g. now rewrite negb_orb.
        -- rewrite Hobjs. simpl objects. rewrite Hobj1.
           unfold swept_object. cbn [existsb]. rewrite Ex.
           destruct (remote_side b); simpl; [|reflexivity].
           rewrite filter_filter. apply filter_ext. intros o. now rewrite negb_orb.
    + destruct (IH c u) as (u' & Hl & Hs & Hf' & Hfiles & Hobjs); auto.
      * intros b' Hb'. apply Hfile. now right.
      * simpl in Hnd. now rewrite Ex in Hnd.
      * exists u'. rewrite Hl. repeat split; auto.
        -- rewrite Hfiles. apply filter_ext. intros g. unfold swept_file.
           cbn [existsb]. now rewrite Ex.
        -- rewrite Hobjs. apply filter_ext. intros o. unfold swept_object.
           cbn [existsb]. now rewrite Ex.
Qed.

Lemma retention_loop_nothing_expired (cutoff : option Z) (l : list Backup) :
  (forall b, In b l -> expired cutoff b = false) ->
  forall (c : nat) (u : World), retention_loop cutoff l c u = (Ok c, u).
Proof.
  induction l as [|b l IH]; intros H c u; [reflexivity|].
  cbn [retention_loop]. rewrite (H b (or_introl eq_refl)).
  apply IH. intros b' Hb'. apply H. now right.
Qed.

(** The merged list when no name occurs twice in either listing. *)
Lemma with_location_twice (l1 l2 : Location) (b : Backup) :
  with_location l1 (with_location l2 b) = with_location l1 b.
Proof. reflexivity. Qed.

Lemma keys_local_entries (l : list Backup) : keys (map local_entry l) = names l.
Proof. unfold keys, names. rewrite map_map. reflexivity. Qed.

Lemma mergeBackups_elements (l r : list Backup) (a : Backup) :
  NoDup (names l) -> NoDup (names r) ->
  In a (mergeBackups l r) <->
  (exists x, In x l /\
             a = with_location (if mem (filename x) (names r) then both else local) x) \/
  (exists y, In y r /\ mem (filename y) (names l) = false /\
             a = with_location remote y).
Proof.
  intros Hl Hr. unfold mergeBackups. rewrite sort_by_date_desc_In.
  fold (merged_map l r). rewrite merged_map_distinct by exact Hr.
  rewrite (merge_local_distinct l []) by exact Hl. simpl app.
  rewrite keys_local_entries. unfold map_values.
  rewrite map_app, in_app_iff, !map_map, !in_map_iff.
  split.
  - intros [(x & <- & Hx)|(y & <- & Hy)].
    + left. exists x. split; [exact Hx|].
      unfold mark_both, local_entry. simpl. now destruct (mem (filename x) (names r)).
    + right. apply filter_In in Hy as [Hy Ha]. exists y.
      unfold absent_from in Ha. apply negb_true_iff in Ha. auto.
  - intros [(x & Hx & ->)|(y & Hy & Hm & ->)].
    + left. exists x. split; [|exact Hx].
      unfold mark_both, local_entry. simpl. now destruct (mem (filename x) (names r)).
    + right. exists y. split; [reflexivity|].
      apply filter_In. split; [exact Hy|]. unfold absent_from. now rewrite Hm.
Qed.

Lemma NoDup_names_mergeBackups (l r : list Backup) :
  NoDup (names r) -> NoDup (names (mergeBackups l r)).
Proof.
  intros Hr. unfold mergeBackups. fold (merged_map l r).
  eapply Permutation_NoDup; [|apply NoDup_names_merged, Hr].
  symmetry. apply Permutation_map, sort_by_date_desc_perm.
Qed.

(** ** Two sweeps in succession *)

Lemma fetch_local_eq (w : World) :
  fetch_local w =
  if local_gate w then map to_local (filter is_backup_file (files w)) else [].
Proof. reflexivity. Qed.

Lemma fetch_remote_no_faults (w : World) :
  s3_faults w = [] -> fetch_remote w = (Ok (remote_listing w), w).
Proof.
  intros Hf. unfold fetch_remote, remote_listing, remote_gate.
  destruct (_ || _); simpl andb; [|reflexivity].
  unfold listS3Backups.
  destruct (isS3Configured w); simpl; [|reflexivity].
  unfold_m. now rewrite Hf.
Qed.

Lemma In_fetch_local (w : World) (x : Backup) :
  In x (fetch_local w) <->
  local_gate w = true /\
  exists g, In g (files w) /\ is_backup_file g = true /\ x = to_local g.
Proof.
  rewrite fetch_local_eq. destruct (local_gate w).
  - rewrite in_map_iff. split.
    + intros (g & <- & Hg). apply filter_In in Hg as [Hg Hb]. eauto 6.
    + intros (_ & g & Hg & Hb & ->). exists g. split; [reflexivity|].
      now apply filter_In.
  - simpl. split; [contradiction | now intros [H _]].
Qed.

(** The first page is a part of the answer, and all of it when the
    answer fits in a page. *)
Lemma first_page_incl (l : list S3Object) : incl (first_page l) l.
Proof.
  intros o Ho. unfold first_page in Ho.
  rewrite <- (firstn_skipn MaxKeys l). apply in_or_app. now left.
Qed.

Lemma first_page_all (l : list S3Object) :
  (length l <= MaxKeys)%nat -> first_page l = l.
Proof. apply firstn_all2. Qed.

Lemma NoDup_map_first_page {B} (key : S3Object -> B) (l : list S3Object) :
  NoDup (map key l) -> NoDup (map key (first_page l)).
Proof.
  intros H. unfold first_page.
  rewrite <- (firstn_skipn MaxKeys l), map_app in H.
  now apply NoDup_app_remove_r in H.
Qed.

Lemma remote_listing_one_page (w : World) :
  one_page w ->
  remote_listing w =
  if remote_gate w then map to_remote (filter (listed w) (objects w)) else [].
Proof.
  intros H. unfold remote_listing. now rewrite (first_page_all _ H).
Qed.

Lemma remote_listing_objects (w : World) (y : Backup) :
  In y (remote_listing w) ->
  remote_gate w = true /\
  exists o, In o (objects w) /\ listed w o = true /\ y = to_remote o.
Proof.
  unfold remote_listing. destruct (remote_gate w); [|contradiction].
  rewrite in_map_iff. intros (o & <- & Ho).
  apply first_page_incl, filter_In in Ho as [Ho Hl]. eauto 6.
Qed.

Lemma In_remote_listing (w : World) (y : Backup) :
  one_page w ->
  In y (remote_listing w) <->
  remote_gate w = true /\
  exists o, In o (objects w) /\ listed w o = true /\ y = to_remote o.
Proof.
  intros Hp. split; [apply remote_listing_objects|].
  rewrite (remote_listing_one_page w Hp). destruct (remote_gate w).
  - rewrite in_map_iff.
    intros (_ & o & Ho & Hl & ->). exists o. split; [reflexivity|].
    now apply filter_In.
  - now intros [H _].
Qed.

Lemma NoDup_map_transfer {A B C} (f : A -> B) (g : A -> C) (l : list A) :
  NoDup (map f l) ->
  (forall x y, In x l -> In y l -> g x = g y -> f x = f y) ->
  NoDup (map g l).
Proof.
  induction l as [|a l IH]; simpl; intros Hnd Hinj; [constructor|].
  inversion Hnd as [|? ? Hn Hnd']; subst. constructor.
  - intros Hin. apply in_map_iff in Hin as (y & Hy & Hyl).
    apply Hn. rewrite <- (Hinj y a (or_intror Hyl) (or_introl eq_refl) Hy).
    now apply in_map.
  - apply IH; [exact Hnd'|]. intros x y Hx Hy. apply Hinj; now right.
Qed.

Lemma NoDup_map_filter {A B} (key : A -> B) (keep : A -> bool) (xs : list A) :
  NoDup (map key xs) -> NoDup (map key (filter keep xs)).
Proof.
  induction xs as [|a xs IH]; simpl; intros Hnd; [constructor|].
  inversion Hnd as [|? ? Hn Hnd']; subst.
  destruct (keep a); simpl; [constructor|]; auto.
  intros Hin. apply Hn. apply in_map_iff in Hin as (y & Hy & Hyl).
  apply filter_In in Hyl as [Hyl _]. rewrite <- Hy. now apply in_map.
Qed.

Lemma NoDup_map_eq {A B} (f : A -> B) (l : list A) (x y : A) :
  NoDup (map f l) -> In x l -> In y l -> f x = f y -> x = y.
Proof.
  induction l as [|a l IH]; simpl; intros Hnd Hx Hy Hf; [contradiction|].
  inversion Hnd as [|? ? Hn Hnd']; subst.
  destruct Hx as [->|Hx], Hy as [->|Hy]; auto.
  - elim Hn. rewrite Hf. now apply in_map.
  - elim Hn. rewrite <- Hf. now apply in_map.
Qed.

Lemma NoDup_names_fetch_local (w : World) :
  NoDup (map name (files w)) -> NoDup (names (fetch_local w)).
Proof.
  intros H. rewrite fetch_local_eq. destruct (local_gate w); [|constructor].
  unfold names. rewrite map_map. simpl.
  now apply (NoDup_map_filter name).
Qed.

Lemma NoDup_names_remote_listing (w : World) :
  NoDup (map Key (objects w)) -> flat_keys w -> NoDup (names (remote_listing w)).
Proof.
  intros Hk Hflat. unfold remote_listing. destruct (remote_gate w); [|constructor].
  unfold names. rewrite map_map. simpl.
  apply (NoDup_map_transfer Key).
  - now apply NoDup_map_first_page, NoDup_map_filter.
  - intros x y Hx Hy Hb.
    apply first_page_incl, filter_In in Hx as [Hx Hlx].
    apply first_page_incl, filter_In in Hy as [Hy Hly].
    rewrite (Hflat x Hx Hlx), (Hflat y Hy Hly). now rewrite Hb.
Qed.

Lemma expired_same_date (cutoff : option Z) (a b : Backup) :
  date a = date b -> expired cutoff a = expired cutoff b.
Proof. intros H. unfold expired. now rewrite H. Qed.

Lemma file_at_own_path (w : World) (g : LocalFile) (b : Backup) :
  valid_name (name g) = true -> filename b = name g ->
  file_at (Config.localPath (backupConfig w)) (local_path w b) g = true.
Proof.
  intros Hv Hf. unfold file_at, local_path. rewrite Hf.
  rewrite basename_no_sep by now apply valid_name_no_sep.
  apply String.eqb_refl.
Qed.

(** The sweep keeps the shape of the archives. *)
Lemma well_formed_filter (w u : World) (p : LocalFile -> bool) (q : S3Object -> bool) :
  store u = store w ->
  files u = filter p (files w) -> objects u = filter q (objects w) ->
  well_formed w -> well_formed u.
Proof.
  intros Hst Hf Ho (Hv & Hn & Hk & Hflat).
  destruct (store_config u w Hst) as (_ & Hkp & _).
  unfold well_formed. rewrite Hf, Ho. repeat split.
  - rewrite Forall_forall in *. intros g Hg. apply Hv.
    now apply filter_In in Hg.
  - now apply NoDup_map_filter.
  - now apply NoDup_map_filter.
  - intros o Hin Hl. rewrite Ho in Hin. apply filter_In in Hin as [Hin _].
    unfold listed in *. rewrite Hkp in *. now apply Hflat.
Qed.

Lemma listAllBackups_no_faults (w : World) :
  s3_faults w = [] -> listAllBackups w = (Ok (listing w), w).
Proof.
  intros Hf. unfold listAllBackups, bind.
  now rewrite (fetch_remote_no_faults w Hf).
Qed.

Lemma listing_local_side (w : World) (a : Backup) :
  well_formed w -> In a (listing w) -> local_side a = true ->
  local_gate w = true /\
  exists g, In g (files w) /\ is_backup_file g = true /\
            filename a = name g /\ date a = mtime g.
Proof.
  intros (Hv & Hn & Hk & Hflat) Hin Hls. unfold listing in Hin.
  apply mergeBackups_elements in Hin;
    [|now apply NoDup_names_fetch_local|now apply NoDup_names_remote_listing].
  destruct Hin as [(x & Hx & ->)|(y & _ & _ & ->)]; [|discriminate Hls].
  apply In_fetch_local in Hx as (Hg & g & Hgin & Hb & ->).
  split; [exact Hg|]. exists g. auto.
Qed.

Lemma listing_remote_side (w : World) (a : Backup) :
  well_formed w -> In a (listing w) -> remote_side a = true ->
  remote_gate w = true /\
  exists o, In o (objects w) /\ listed w o = true /\
            filename a = Path.basename (Key o).
Proof.
  intros (Hv & Hn & Hk & Hflat) Hin Hrs. unfold listing in Hin.
  apply mergeBackups_elements in Hin;
    [|now apply NoDup_names_fetch_local|now apply NoDup_names_remote_listing].
  destruct Hin as [(x & Hx & ->)|(y & Hy & _ & ->)].
  - destruct (mem (filename x) (names (remote_listing w))) eqn:E; [|discriminate Hrs].
    apply mem_In in E. unfold names in E. apply in_map_iff in E as (y & Hy & Hyin).
    apply remote_listing_objects in Hyin as (Hg & o & Ho & Hl & ->).
    split; [exact Hg|]. exists o. simpl in *. auto.
  - apply remote_listing_objects in Hy as (Hg & o & Ho & Hl & ->).
    split; [exact Hg|]. exists o. auto.
Qed.

Lemma local_path_inj (w : World) (a b : Backup) :
  well_formed w -> In a (listing w) -> In b (listing w) ->
  local_side a = true -> local_side b = true ->
  local_path w a = local_path w b -> filename a = filename b.
Proof.
  intros Hwf Ha Hb Hla Hlb Hp.
  destruct (listing_local_side w a Hwf Ha Hla) as (_ & g & Hg & _ & Hfa & _).
  destruct (listing_local_side w b Hwf Hb Hlb) as (_ & g' & Hg' & _ & Hfb & _).
  destruct Hwf as (Hv & _). rewrite Forall_forall in Hv.
  pose proof (Hv g Hg) as Hvg. pose proof (Hv g' Hg') as Hvg'.
  unfold local_path in Hp. rewrite Hfa, Hfb in *.
  rewrite !basename_no_sep in Hp by now apply valid_name_no_sep.
  now apply (join_valid_name_inj (Config.localPath (backupConfig w))).
Qed.

Lemma NoDup_names_listing (w : World) :
  well_formed w -> NoDup (names (listing w)).
Proof.
  intros (_ & _ & Hk & Hflat). apply NoDup_names_mergeBackups.
  now apply NoDup_names_remote_listing.
Qed.

(** The sweep leaves the time zone alone. *)
Lemma delete_expired_time_zone (b : Backup) (u : World) :
  time_zone (snd (delete_expired b u)) = time_zone u.
Proof.
  unfold delete_expired. unfold bind at 1. unfold bind at 1.
  destruct (_ || _).
  - unfold bind at 1. rewrite deleteLocalBackup_spec. cbv zeta.
    destruct (existsb _ (files u)); [|reflexivity].
    unfold ret at 1. destruct (_ || _); [|reflexivity].
    unfold bind. rewrite deleteFromS3_spec.
    destruct (negb _); [reflexivity|].
    cbn [s3_faults set_files].
    destruct (s3_faults u) as [|[reason|] rest]; reflexivity.
  - unfold ret at 1. destruct (_ || _); [|reflexivity].
    unfold bind. rewrite deleteFromS3_spec.
    destruct (negb _); [reflexivity|].
    destruct (s3_faults u) as [|[reason|] rest]; reflexivity.
Qed.

Lemma retention_loop_time_zone (cutoff : option Z) (l : list Backup) :
  forall (c : nat) (u : World),
    time_zone (snd (retention_loop cutoff l c u)) = time_zone u.
Proof.
  induction l as [|b l IH]; intros c u; [reflexivity|].
  cbn [retention_loop]. destruct (expired cutoff b); [|apply IH].
  unfold bind at 1. unfold try_catch. unfold bind at 1.
  pose proof (delete_expired_time_zone b u) as Hd.
  destruct (delete_expired b u) as [[[]|e] u1]; cbn [snd] in Hd.
  - unfold bind at 1. unfold logger_info at 1. unfold ret at 1.
    rewrite IH. exact Hd.
  - unfold bind at 1. unfold logger_error at 1. unfold ret at 1.
    rewrite IH. exact Hd.
Qed.

(** When no request fails in a well-formed world, every deletion of the
    sweep succeeds: the count is the number of expired artifacts. *)
Lemma sweep_without_failure (w : World) (now : Z) :
  well_formed w -> s3_faults w = [] ->
  let cutoff := retentionDate (time_zone w) now (Config.retentionDays (backupConfig w)) in
  exists w1,
    applyRetentionPolicy now w =
      (Ok (length (filter (expired cutoff) (listing w))), w1) /\
    store w1 = store w /\
    s3_faults w1 = [] /\
    files w1 = filter (fun g => negb (swept_file w cutoff (listing w) g)) (files w) /\
    objects w1 = filter (fun o => negb (swept_object w cutoff (listing w) o)) (objects w) /\
    time_zone w1 = time_zone w.
Proof.
  intros Hwf Hf cutoff.
  destruct (retention_loop_all_succeed w cutoff (listing w) 0 w eq_refl Hf)
    as (w1 & Hrun & Hrest).
  - intros b Hb _ Hls.
    destruct (listing_local_side w b Hwf Hb Hls) as (_ & g & Hg & _ & Hfn & _).
    unfold has_file_at. apply existsb_exists. exists g. split; [exact Hg|].
    apply file_at_own_path; [|exact Hfn].
    destruct Hwf as (Hv & _). rewrite Forall_forall in Hv. now apply Hv.
  - apply (NoDup_map_transfer filename).
    + apply NoDup_map_filter. now apply NoDup_names_listing.
    + intros x y Hx Hy. apply filter_In in Hx as [Hx Hpx], Hy as [Hy Hpy].
      apply andb_true_iff in Hpx as [_ Hlx], Hpy as [_ Hly].
      now apply local_path_inj.
  - intros b Hb _ Hrs.
    destruct (listing_remote_side w b Hwf Hb Hrs) as (Hg & _).
    unfold remote_gate in Hg. now apply andb_true_iff in Hg as [_ Hg].
  - exists w1. split; [|split; [|split; [|split; [|split]]]]; try apply Hrest.
    + unfold applyRetentionPolicy, bind.
      rewrite (listAllBackups_no_faults w Hf). exact Hrun.
    + pose proof (retention_loop_time_zone cutoff (listing w) 0 w) as Hz.
      now rewrite Hrun in Hz.
Qed.

(** After a sweep without failure, no artifact of the new merged list is
    past the cutoff of that sweep. *)
Lemma remaining_not_expired (w w1 : World) (cutoff : option Z) :
  well_formed w -> one_page w -> store w1 = store w ->
  files w1 = filter (fun g => negb (swept_file w cutoff (listing w) g)) (files w) ->
  objects w1 = filter (fun o => negb (swept_object w cutoff (listing w) o)) (objects w) ->
  forall b, In b (listing w1) ->
    expired cutoff b = false /\
    In (date b) (map mtime (files w) ++ map LastModified (objects w)).
Proof.
  intros Hwf Hpage Hst Hfiles Hobjs b Hin.
  assert (Hwf1 : well_formed w1) by (eapply well_formed_filter; eauto).
  destruct (store_config w1 w Hst) as (Hbc & Hkp & Hconf).
  assert (Hlg : local_gate w1 = local_gate w) by (unfold local_gate; now rewrite Hbc).
  assert (Hrg : remote_gate w1 = remote_gate w)
    by (unfold remote_gate; now rewrite Hbc, Hconf).
  assert (Hlisted : forall o, listed w1 o = listed w o)
    by (intros; unfold listed; now rewrite Hkp).
  assert (HndL : NoDup (names (fetch_local w)))
    by (apply NoDup_names_fetch_local, Hwf).
  assert (HndR : NoDup (names (remote_listing w)))
    by (apply NoDup_names_remote_listing; apply Hwf).
  pose proof (NoDup_names_listing w Hwf) as HndA.
  assert (Hvalid : forall g, In g (files w) -> valid_name (name g) = true).
  { destruct Hwf as (Hv & _). now rewrite Forall_forall in Hv. }
  assert (Hflat : flat_keys w) by apply Hwf.
  unfold listing in Hin.
  apply mergeBackups_elements in Hin;
    [|apply NoDup_names_fetch_local, Hwf1
     |apply NoDup_names_remote_listing; apply Hwf1].
  destruct Hin as [(x & Hx & ->)|(y & Hy & Hmem & ->)].
  - (* an artifact with a local file that the sweep left *)
    apply In_fetch_local in Hx as (Hg1 & g & Hg & Hb & ->).
    rewrite Hfiles in Hg. apply filter_In in Hg as [Hg Hsw].
    apply negb_true_iff in Hsw.
    split; [|apply in_or_app; left; now apply (in_map mtime)].
    match goal with |- expired cutoff ?b2 = false => destruct (expired cutoff b2) eqn:Ex end;
      [exfalso|reflexivity].
    set (a := with_location
                (if mem (filename (to_local g)) (names (remote_listing w))
                 then both else local) (to_local g)).
    assert (Ha : In a (listing w)).
    { unfold listing. apply mergeBackups_elements; [assumption..|].
      left. exists (to_local g). split; [|reflexivity].
      apply In_fetch_local. split; [congruence|eauto]. }
    assert (Hswept : swept_file w cutoff (listing w) g = true).
    { unfold swept_file. apply existsb_exists. exists a. split; [exact Ha|].
      assert (Hexa : expired cutoff a = true) by exact Ex.
      rewrite Hexa. rewrite file_at_own_path by (auto; reflexivity).
      unfold a, local_side. simpl.
      now destruct (mem (name g) (names (remote_listing w))). }
    congruence.
  - (* an artifact that only the bucket lists after the sweep *)
    apply remote_listing_objects in Hy as (Hg1 & o & Ho & Hl & ->).
    rewrite Hobjs in Ho. apply filter_In in Ho as [Ho Hsw].
    apply negb_true_iff in Hsw. rewrite Hlisted in Hl.
    pose proof (Hflat o Ho Hl) as Hkey.
    assert (Hy : In (to_remote o) (remote_listing w)).
    { apply In_remote_listing; [exact Hpage|]. split; [congruence|eauto]. }
    simpl filename in Hmem.
    destruct (mem (Path.basename (Key o)) (names (fetch_local w))) eqn:EL.
    + exfalso. apply mem_In in EL. unfold names in EL.
      apply in_map_iff in EL as (x & Hxf & Hx).
      apply In_fetch_local in Hx as (Hgate & g & Hg & Hb & ->).
      simpl in Hxf.
      set (a := with_location both (to_local g)).
      assert (Ha : In a (listing w)).
      { unfold listing. apply mergeBackups_elements; [assumption..|].
        left. exists (to_local g). split.
        - apply In_fetch_local. eauto.
        - assert (Hm : mem (filename (to_local g)) (names (remote_listing w)) = true).
          { apply mem_In. simpl. rewrite Hxf.
            change (Path.basename (Key o)) with (filename (to_remote o)).
            now apply in_map. }
          now rewrite Hm. }
      destruct (expired cutoff a) eqn:Exa.
      * assert (Hswept : swept_object w cutoff (listing w) o = true).
        { unfold swept_object. apply existsb_exists. exists a. split; [exact Ha|].
          rewrite Exa. simpl. unfold remote_key. simpl. rewrite Hxf, <- Hkey.
          apply String.eqb_refl. }
        congruence.
      * assert (Hkept : swept_file w cutoff (listing w) g = false).
        { destruct (swept_file w cutoff (listing w) g) eqn:E; [|reflexivity].
          exfalso. unfold swept_file in E.
          apply existsb_exists in E as (a' & Ha' & Hp).
          apply andb_true_iff in Hp as [Hp Hat].
          apply andb_true_iff in Hp as [Hex' Hls'].
          pose proof (file_at_own_path w g a (Hvalid g Hg) eq_refl) as Hat2.
          unfold file_at in Hat, Hat2.
          apply String.eqb_eq in Hat, Hat2.
          assert (Hfn : filename a' = filename a).
          { apply (local_path_inj w); auto. congruence. }
          assert (a' = a) by (eapply (NoDup_map_eq filename); eauto).
          congruence. }
        assert (Hin1 : In (to_local g) (fetch_local w1)).
        { apply In_fetch_local. split; [congruence|].
          exists g. repeat split; [|exact Hb].
          rewrite Hfiles. apply filter_In. split; [exact Hg|]. now rewrite Hkept. }
        apply mem_not_In in Hmem. apply Hmem.
        rewrite <- Hxf. change (name g) with (filename (to_local g)).
        now apply in_map.
    + split; [|apply in_or_app; right; now apply (in_map LastModified)].
      match goal with |- expired cutoff ?b2 = false => destruct (expired cutoff b2) eqn:Ex end;
        [exfalso|reflexivity].
      set (a := with_location remote (to_remote o)) in *.
      assert (Ha : In a (listing w)).
      { unfold listing. apply mergeBackups_elements; [assumption..|].
        right. exists (to_remote o). auto. }
      assert (Hswept : swept_object w cutoff (listing w) o = true).
      { unfold swept_object. apply existsb_exists. exists a. split; [exact Ha|].
        rewrite Ex. simpl. unfold remote_key. simpl. rewrite <- Hkey.
        apply String.eqb_refl. }
      congruence.
Qed.

(** C3, the claim as stated: the second of two sweeps in succession
    returns 0.  It does not hold when a deletion of the first sweep
    failed: the artifact was logged and kept, and the second sweep deletes
    and counts it. *)
Lemma second_sweep_deletes_after_failure :
  let now := 1000000000%Z in
  fst (applyRetentionPolicy now transient_world) = Ok 0 /\
  logs (snd (applyRetentionPolicy now transient_world)) =
    [error "Failed to delete old backup backup_a.sql"] /\
  objects (snd (applyRetentionPolicy now transient_world)) = [object_a] /\
  fst (applyRetentionPolicy now (snd (applyRetentionPolicy now transient_world)))
    = Ok 1 /\
  fst (applyRetentionPolicy now (snd (applyRetentionPolicy now transient_world)))
    <> Ok 0.
Proof.
  cbv zeta. repeat split; try (vm_compute; reflexivity).
  vm_compute. discriminate.
Qed.

(** C3, amended: in a well-formed world (proper and distinct entry names,
    distinct keys, each listed key being the prefix followed by its base
    name) whose listed keys fit in one page of [listObjectsV2] and in which
    no request to the object store fails, the first sweep deletes and
    counts every expired artifact, and a second sweep right after it,
    before any further artifact passes the cutoff, returns 0 and changes
    nothing. *)
Theorem second_sweep_returns_zero (w : World) (now1 now2 : Z) :
  well_formed w ->
  one_page w ->
  s3_faults w = [] ->
  none_newly_expired w
    (retentionDate (time_zone w) now1 (Config.retentionDays (backupConfig w)))
    (retentionDate (time_zone w) now2 (Config.retentionDays (backupConfig w))) ->
  exists n1 w1,
    applyRetentionPolicy now1 w = (Ok n1, w1) /\
    n1 = length (filter (expired (retentionDate (time_zone w) now1
                                    (Config.retentionDays (backupConfig w))))
                        (listing w)) /\
    applyRetentionPolicy now2 w1 = (Ok 0, w1).
Proof.
  intros Hwf Hpage Hf Hnew.
  destruct (sweep_without_failure w now1 Hwf Hf)
    as (w1 & Hrun & Hst & Hf1 & Hfiles & Hobjs & Hzone).
  eexists _, w1. split; [exact Hrun|]. split; [reflexivity|].
  unfold applyRetentionPolicy, bind.
  rewrite (listAllBackups_no_faults w1 Hf1).
  destruct (store_config w1 w Hst) as (-> & _ & _). rewrite Hzone.
  apply retention_loop_nothing_expired.
  intros b Hb.
  destruct (remaining_not_expired w w1 _ Hwf Hpage Hst Hfiles Hobjs b Hb)
    as [Hex Hdate].
  destruct (expired (retentionDate _ now2 _) b) eqn:E; [|reflexivity].
  rewrite (Hnew b Hdate E) in Hex. discriminate Hex.
Qed.

Ltac distinct_strings :=
  repeat (apply NoDup_cons;
          [simpl; intros H; repeat (destruct H as [H|H]; [discriminate H|]); exact H|]);
  apply NoDup_nil.

Lemma steady_world_well_formed : well_formed steady_world.
Proof.
  unfold well_formed. split; [|split; [|split]].
  - repeat constructor.
  - simpl. distinct_strings.
  - simpl. distinct_strings.
  - intros o Hin _. simpl in Hin.
    destruct Hin as [<-|[<-|[]]]; reflexivity.
Qed.

Lemma steady_world_one_page : one_page steady_world.
Proof. vm_compute. repeat constructor. Qed.

Lemma second_sweep_returns_zero_witness :
  exists n1 w1,
    applyRetentionPolicy 1000000000 steady_world = (Ok n1, w1) /\
    n1 = 3 /\
    applyRetentionPolicy 1000000000 w1 = (Ok 0, w1).
Proof.
  destruct (second_sweep_returns_zero steady_world 1000000000 1000000000
              steady_world_well_formed steady_world_one_page eq_refl
              (fun b _ H => H))
    as (n1 & w1 & Hrun & Hn & Hagain).
  exists n1, w1. split; [exact Hrun|]. split; [|exact Hagain].
  rewrite Hn. vm_compute. reflexivity.
Defined.

(** The sweep deletes the key made of the prefix and the base name: an
    object stored under a longer key is listed again and counted again by
    every later sweep. *)
Lemma nested_key_is_counted_again :
  let w := world_of "remote" [] [nested_a] [] in
  let now := 1000000000%Z in
  fst (applyRetentionPolicy now w) = Ok 1 /\
  objects (snd (applyRetentionPolicy now w)) = [nested_a] /\
  fst (applyRetentionPolicy now (snd (applyRetentionPolicy now w))) = Ok 1.
Proof. cbv zeta. repeat split; vm_compute; reflexivity. Qed.

(** The sweep sees the first page of the listing only: of 1001 expired
    objects the first sweep deletes 1000, and the second sweep finds the
    one that the first page did not hold. *)
Lemma second_page_is_swept_later :
  let w := world_of "remote" [] (map numbered_object (seq 1000 1001)) [] in
  let now := 1000000000%Z in
  well_formed w /\ ~ one_page w /\
  exists w1,
    applyRetentionPolicy now w = (Ok 1000, w1) /\
    map Key (objects w1) = ["backup_2000.sql"] /\
    fst (applyRetentionPolicy now w1) = Ok 1.
Proof.
  cbv zeta. split; [|split].
  - set (w := world_of "remote" [] (map numbered_object (seq 1000 1001)) []).
    unfold well_formed. split; [constructor|]. split; [constructor|]. split.
    + apply (NoDup_map_inv (fun k => JS.parseInt (substring 7 8 k))).
      assert (E : map (fun k => JS.parseInt (substring 7 8 k)) (map Key (objects w))
                  = map (fun n => Some (Z.of_nat n)) (seq 1000 1001))
        by (vm_compute; reflexivity).
      rewrite E. apply (NoDup_map_transfer (fun n => n)).
      * rewrite map_id. apply seq_NoDup.
      * intros x y _ _ [= H]. lia.
    + assert (F : forallb (fun o => Key o =? key_prefix w ++ Path.basename (Key o))
                          (objects w) = true) by (vm_compute; reflexivity).
      rewrite forallb_forall in F.
      intros o Hin _. apply String.eqb_eq, F, Hin.
  - unfold one_page. vm_compute. lia.
  - eexists. split; [vm_compute; reflexivity|].
    split; vm_compute; reflexivity.
Qed.

(** * Further properties of the configuration store *)

Lemma is_prefix_split (p s : string) :
  JS.is_prefix p s = true -> exists r, s = (p ++ r)%string.
Proof.
  revert s; induction p as [|a p IH]; intros s H.
  - exists s; reflexivity.
  - destruct s as [|b s]; [discriminate|].
    simpl in H. apply andb_true_iff in H as [Hab Hp].
    apply Ascii.eqb_eq in Hab; subst b.
    destruct (IH _ Hp) as [r ->]. exists r; reflexivity.
Qed.

Lemma includes_contains (s sub : string) :
  JS.includes s sub = true -> contains s sub.
Proof.
  induction s as [|c s IH]; cbn [JS.includes]; intros H.
  - rewrite orb_false_r in H. destruct (is_prefix_split _ _ H) as [r Hr].
    exists "", r. exact Hr.
  - apply orb_true_iff in H as [H|H].
    + destruct (is_prefix_split _ _ H) as [r Hr]. exists "", r; exact Hr.
    + destruct (IH H) as (a & b & ->). exists (String c a), b; reflexivity.
Qed.

Lemma shouldForcePathStyle_lower (e : string) :
  Config.shouldForcePathStyle (Some e) = true <->
  exists service, In service Config.forcePathStyleServices /\
                  contains (JS.toLowerCase e) service.
Proof.
  split.
  - destruct e as [|c r]; [discriminate|].
    unfold Config.shouldForcePathStyle. intros H.
    apply existsb_exists in H as (service & Hin & Hinc).
    exists service; split; [exact Hin|]. apply includes_contains; exact Hinc.
  - intros (service & Hin & a & b & Heq).
    destruct e as [|c r].
    + destruct a; [|discriminate Heq].
      destruct service; [|discriminate Heq].
      simpl in Hin.
      repeat (destruct Hin as [Hin|Hin]; [discriminate Hin|]). contradiction.
    + unfold Config.shouldForcePathStyle. apply existsb_exists.
      exists service; split; [exact Hin|].
      rewrite Heq. apply includes_app.
Qed.

Lemma capital_shifted (n : nat) :
  capital n = true -> capital (n + 32) = false /\ (n + 32 < 256)%nat.
Proof.
  unfold capital. intros H.
  assert (Hn : (65 <= n <= 90 \/ 192 <= n <= 222)%nat).
  { apply orb_true_iff in H as [H|H].
    - apply andb_true_iff in H as [H1 H2]. apply Nat.leb_le in H1, H2. lia.
    - apply andb_true_iff in H as [H _]. apply andb_true_iff in H as [H1 H2].
      apply Nat.leb_le in H1, H2. lia. }
  split; [|lia].
  apply orb_false_iff. split.
  - apply andb_false_iff. right. apply Nat.leb_gt. lia.
  - apply andb_false_iff. left. apply andb_false_iff.
    destruct Hn as [Hn|Hn]; [left | right]; apply Nat.leb_gt; lia.
Qed.

Lemma same_letter_lower (c d : ascii) :
  same_letter c d = true -> JS.lower_ascii c = JS.lower_ascii d.
Proof.
  assert (Hshift : forall x y : ascii,
             capital (nat_of_ascii x) = true ->
             nat_of_ascii y = (nat_of_ascii x + 32)%nat ->
             JS.lower_ascii x = JS.lower_ascii y).
  { intros x y Hx Hy. destruct (capital_shifted _ Hx) as [Hs _].
    rewrite <- Hy in Hs. unfold JS.lower_ascii.
    change (JS.is_upper (nat_of_ascii x)) with (capital (nat_of_ascii x)).
    change (JS.is_upper (nat_of_ascii y)) with (capital (nat_of_ascii y)).
    rewrite Hx, Hs, <- Hy. apply ascii_nat_embedding. }
  unfold same_letter. cbv zeta. intros H.
  apply orb_true_iff in H as [H|H]; [apply orb_true_iff in H as [H|H]|].
  - apply Nat.eqb_eq in H. f_equal.
    rewrite <- (ascii_nat_embedding c), <- (ascii_nat_embedding d). now rewrite H.
  - apply andb_true_iff in H as [Hc Hn]. apply Nat.eqb_eq in Hn.
    now apply Hshift.
  - apply andb_true_iff in H as [Hd Hn]. apply Nat.eqb_eq in Hn.
    symmetry. now apply Hshift.
Qed.

Lemma same_letter_lower_ascii (c : ascii) : same_letter c (JS.lower_ascii c) = true.
Proof.
  unfold same_letter, JS.lower_ascii. cbv zeta.
  change (JS.is_upper (nat_of_ascii c)) with (capital (nat_of_ascii c)).
  destruct (capital (nat_of_ascii c)) eqn:Hc.
  - destruct (capital_shifted _ Hc) as [_ Hlt].
    rewrite (nat_ascii_embedding _ Hlt), Nat.eqb_refl.
    cbn [andb]. apply orb_true_iff. left. apply orb_true_r.
  - now rewrite Nat.eqb_refl.
Qed.

Lemma same_text_lower (a b : string) :
  same_text a b = true -> JS.toLowerCase a = JS.toLowerCase b.
Proof.
  revert b. induction a as [|c a IH]; intros [|d b] H; try discriminate H.
  - reflexivity.
  - cbn [same_text] in H. apply andb_true_iff in H as [Hc Ht].
    cbn [JS.toLowerCase]. now rewrite (same_letter_lower c d Hc), (IH b Ht).
Qed.

Lemma same_text_toLowerCase (a : string) : same_text a (JS.toLowerCase a) = true.
Proof.
  induction a as [|c a IH]; [reflexivity|].
  cbn [JS.toLowerCase same_text]. now rewrite same_letter_lower_ascii, IH.
Qed.

Lemma toLowerCase_split (e a r : string) :
  JS.toLowerCase e = (a ++ r)%string ->
  exists a' r', e = (a' ++ r')%string /\ JS.toLowerCase a' = a /\
                JS.toLowerCase r' = r.
Proof.
  revert e. induction a as [|c a IH]; intros e H.
  - exists "", e. now repeat split.
  - destruct e as [|d e]; [discriminate H|].
    cbn [JS.toLowerCase append] in H. injection H as Hc He.
    destruct (IH e He) as (a' & r' & -> & Ha & Hr).
    exists (String d a'), r'. cbn [JS.toLowerCase append].
    now rewrite Hc, Ha.
Qed.

(** X1: the detection of [shouldForcePathStyle] does not depend on the
    case of the letters of the endpoint.  It answers [true] exactly for
    the endpoints that contain one of the five service names written in
    any mix of capital and small letters (the empty endpoint contains
    none), and two endpoints that differ by the case of their letters
    only get the same answer. *)
Theorem shouldForcePathStyle_any_case (e : string) :
  (Config.shouldForcePathStyle (Some e) = true <->
   exists service x,
     In service ["supabase.co"; "minio"; "localhost"; "127.0.0.1";
                 "digitaloceanspaces.com"] /\
     same_text x service = true /\ contains e x) /\
  (forall e', same_text e e' = true ->
     Config.shouldForcePathStyle (Some e') = Config.shouldForcePathStyle (Some e)).
Proof.
  split.
  - rewrite shouldForcePathStyle_lower. split.
    + intros (service & Hin & a & b & Heq).
      destruct (toLowerCase_split e a (service ++ b) Heq) as (a' & r & -> & _ & Hr).
      destruct (toLowerCase_split r service b Hr) as (x & b' & -> & Hx & _).
      exists service, x. split; [exact Hin|]. split.
      * rewrite <- Hx. apply same_text_toLowerCase.
      * now exists a', b'.
    + intros (service & x & Hin & Hx & a & b & ->).
      exists service. split; [exact Hin|].
      apply same_text_lower in Hx.
      assert (Hl : JS.toLowerCase service = service).
      { pose proof services_lower as F. rewrite Forall_forall in F. now apply F. }
      rewrite !toLowerCase_app, Hx, Hl. now eexists _, _.
  - intros e' H. pose proof (same_text_lower e e' H) as Hl.
    destruct e as [|c r], e' as [|c' r']; try discriminate H; [reflexivity|].
    unfold Config.shouldForcePathStyle. now rewrite Hl.
Qed.

Lemma shouldForcePathStyle_capitals :
  Config.shouldForcePathStyle (Some "HTTP://MINIO.INTERNAL:9000") = true /\
  Config.shouldForcePathStyle (Some "http://minio.internal:9000") = true.
Proof. split; reflexivity. Qed.

Lemma with_forcePathStyle_same (c : Config.S3Config) :
  Config.with_forcePathStyle (Config.s3ForcePathStyle c) c = c.
Proof. destruct c; reflexivity. Qed.

Lemma shouldForcePathStyle_falsy (e : option string) :
  JS.truthy e = false -> Config.shouldForcePathStyle e = false.
Proof. destruct e as [[|]|]; simpl; intros H; try discriminate H; reflexivity. Qed.

Lemma auto_detect_flag (c : Config.S3Config) :
  Config.auto_detect c =
  Config.with_forcePathStyle
    (Config.s3ForcePathStyle c || Config.shouldForcePathStyle (Config.endpoint c)) c.
Proof.
  unfold Config.auto_detect.
  destruct (Config.s3ForcePathStyle c) eqn:Hflag.
  - rewrite andb_false_r. cbn [orb]. rewrite <- Hflag.
    symmetry; apply with_forcePathStyle_same.
  - rewrite andb_true_r. cbn [orb].
    destruct (JS.truthy (Config.endpoint c)) eqn:He; [reflexivity|].
    rewrite (shouldForcePathStyle_falsy _ He), <- Hflag.
    symmetry; apply with_forcePathStyle_same.
Qed.

(** X2: the flag [getS3Config] returns is the configured flag or-ed with
    the detection on the configured endpoint (a flag set by the caller is
    never cleared), every other field is returned as configured, and a
    second call returns the same configuration. *)
Theorem getS3Config_flag (st : Config.Store) (c : Config.S3Config) :
  configured_s3 st = Some c ->
  fst (Config.getS3Config st) =
    Config.with_forcePathStyle
      (Config.s3ForcePathStyle c || Config.shouldForcePathStyle (Config.endpoint c)) c /\
  fst (Config.getS3Config (snd (Config.getS3Config st))) = fst (Config.getS3Config st).
Proof.
  intros Hc. split.
  - rewrite (getS3Config_configured _ _ Hc). apply auto_detect_flag.
  - exact (proj1 (getS3Config_again st)).
Qed.

Lemma getS3Config_flag_witness :
  fst (Config.getS3Config (Config.initial supabase_env)) =
  Config.with_forcePathStyle true (Config.env_s3 (Config.initial supabase_env)).
Proof.
  exact (proj1 (getS3Config_flag (Config.initial supabase_env)
                  (Config.env_s3 (Config.initial supabase_env)) eq_refl)).
Defined.

Lemma truthy_or_default (s : option string) (d : string) :
  JS.truthy s = true -> s = Some (JS.or_default s d) /\ JS.or_default s d <> "".
Proof.
  destruct s as [[|c r]|]; simpl; intros H; try discriminate H.
  split; [reflexivity|discriminate].
Qed.

Lemma or_default_not_empty (s : option string) (d : string) :
  d <> "" -> JS.or_default s d <> "".
Proof. destruct s as [[|c r]|]; simpl; intros H; try exact H; discriminate. Qed.

Lemma num_or_not_zero (n : option Z) (d : Z) : d <> 0%Z -> JS.num_or n d <> 0%Z.
Proof.
  intros Hd. destruct n as [[|p|p]|]; simpl; try exact Hd; discriminate.
Qed.

(** X3: in manual mode [setManualDatabaseConfig] stores a configuration
    exactly when host, user and database are given and non-empty; it then
    returns what the next [getDatabaseConfig] returns, with these three
    fields as given and a port that is a non-zero number: 5432 when the
    given port is missing, not a number or 0, and the number that
    [parseInt] reads otherwise.  The backup and S3 configuration are left
    as they were.  Otherwise it throws the required-fields error and the
    store is unchanged. *)
Theorem setManualDatabaseConfig_round_trip (config : Config.DatabaseInput)
    (st : Config.Store) :
  Config.configMode st = "manual" ->
  if JS.truthy (Config.in_host config) && JS.truthy (Config.in_user config)
     && JS.truthy (Config.in_database config)
  then exists d st',
      Config.setManualDatabaseConfig config st = (Ok d, st') /\
      Config.getDatabaseConfig st' = Ok d /\
      Config.in_host config = Some (Config.host d) /\
      Config.in_user config = Some (Config.user d) /\
      Config.in_database config = Some (Config.database d) /\
      (exists p, Config.port d = Some p /\ p <> 0%Z) /\
      (Config.in_port config = None \/
       Config.parseInt_opt (Config.in_port config) = None \/
       Config.parseInt_opt (Config.in_port config) = Some 0%Z ->
       Config.port d = Some 5432%Z) /\
      (forall n, Config.parseInt_opt (Config.in_port config) = Some n ->
                 n <> 0%Z -> Config.port d = Some n) /\
      Config.getBackupConfig st' = Config.getBackupConfig st /\
      fst (Config.getS3Config st') = fst (Config.getS3Config st)
  else Config.setManualDatabaseConfig config st = (Throw RequiredDatabaseFields, st).
Proof.
  intros Hmode.
  unfold Config.setManualDatabaseConfig. rewrite Hmode. cbn [String.eqb negb].
  change ("manual" =? "manual") with true. cbn [negb].
  destruct (JS.truthy (Config.in_host config)) eqn:Hh;
    [|reflexivity].
  destruct (JS.truthy (Config.in_user config)) eqn:Hu;
    [|reflexivity].
  destruct (JS.truthy (Config.in_database config)) eqn:Hd;
    [|reflexivity].
  cbn [negb orb andb].
  eexists _, _. split; [reflexivity|].
  unfold Config.getDatabaseConfig, Config.getBackupConfig, Config.getS3Config,
    Config.set_manual; cbn [Config.configMode Config.manualConfig
                            Config.manual_database Config.manual_backup
                            Config.manual_s3 Config.host Config.user
                            Config.database Config.port fst snd].
  rewrite Hmode. change ("manual" =? "manual") with true. cbn iota.
  split; [reflexivity|].
  split; [exact (proj1 (truthy_or_default _ "" Hh))|].
  split; [exact (proj1 (truthy_or_default _ "" Hu))|].
  split; [exact (proj1 (truthy_or_default _ "" Hd))|].
  split; [eexists; split; [reflexivity|]; apply num_or_not_zero; discriminate|].
  split; [|split; [|split]].
  - intros [H|[H|H]]; [rewrite H|rewrite H..]; reflexivity.
  - intros n Hn Hz. rewrite Hn. destruct n; [now elim Hz|reflexivity..].
  - reflexivity.
  - destruct (Config.manual_s3 (Config.manualConfig st)); reflexivity.
Qed.

Lemma setManualDatabaseConfig_round_trip_witness :
  exists d st',
    Config.setManualDatabaseConfig database_input manual_store = (Ok d, st') /\
    Config.getDatabaseConfig st' = Ok d /\
    Config.port d = Some 5432%Z /\
    Config.excludeTables d = ["logs"; "sessions"].
Proof.
  pose proof (setManualDatabaseConfig_round_trip database_input manual_store eq_refl)
    as H.
  change (JS.truthy (Config.in_host database_input) &&
          JS.truthy (Config.in_user database_input) &&
          JS.truthy (Config.in_database database_input)) with true in H.
  destruct H as (d & st' & Hset & Hget & _ & _ & _ & _ & Hdefault & _).
  exists d, st'. split; [exact Hset|]. split; [exact Hget|].
  split; [apply Hdefault; right; left; reflexivity|].
  injection Hset as <- _. reflexivity.
Defined.

(** X4: in manual mode [setManualBackupConfig] always succeeds and returns
    what the next [getBackupConfig] returns; the stored schedule, storage
    mode, directory and format are never empty, and the stored retention
    is a non-zero number: 7 when the given value is missing, not a number
    or 0, and the number that [parseInt] reads otherwise (also a negative
    one).  The database and S3 configuration are left as they were. *)
Theorem setManualBackupConfig_round_trip (config : Config.BackupInput)
    (st : Config.Store) :
  Config.configMode st = "manual" ->
  exists b st',
    Config.setManualBackupConfig config st = (Ok b, st') /\
    Config.getBackupConfig st' = b /\
    Config.auto b = Config.in_auto config /\
    Config.schedule b <> "" /\ Config.storage b <> "" /\
    Config.localPath b <> "" /\ Config.format b <> "" /\
    (exists days, Config.retentionDays b = Some days /\ days <> 0%Z) /\
    (Config.in_retentionDays config = None \/
     Config.parseInt_opt (Config.in_retentionDays config) = None \/
     Config.parseInt_opt (Config.in_retentionDays config) = Some 0%Z ->
     Config.retentionDays b = Some 7%Z) /\
    (forall n, Config.parseInt_opt (Config.in_retentionDays config) = Some n ->
               n <> 0%Z -> Config.retentionDays b = Some n) /\
    Config.getDatabaseConfig st' = Config.getDatabaseConfig st /\
    fst (Config.getS3Config st') = fst (Config.getS3Config st).
Proof.
  intros Hmode.
  unfold Config.setManualBackupConfig. rewrite Hmode.
  change ("manual" =? "manual") with true. cbn [negb].
  eexists _, _. split; [reflexivity|].
  unfold Config.getDatabaseConfig, Config.getBackupConfig, Config.getS3Config,
    Config.set_manual; cbn [Config.configMode Config.manualConfig
                            Config.manual_database Config.manual_backup
                            Config.manual_s3 Config.auto Config.schedule
                            Config.storage Config.localPath Config.format
                            Config.retentionDays fst snd].
  rewrite Hmode. change ("manual" =? "manual") with true. cbn iota.
  split; [reflexivity|]. split; [reflexivity|].
  repeat (split; [apply or_default_not_empty; discriminate|]).
  split; [eexists; split; [reflexivity|]; apply num_or_not_zero; discriminate|].
  split; [|split; [|split]].
  - intros [H|[H|H]]; [rewrite H|rewrite H..]; reflexivity.
  - intros n Hn Hz. rewrite Hn. destruct n; [now elim Hz|reflexivity..].
  - reflexivity.
  - destruct (Config.manual_s3 (Config.manualConfig st)); reflexivity.
Qed.

Lemma setManualBackupConfig_round_trip_witness :
  exists b st',
    Config.setManualBackupConfig backup_input manual_store = (Ok b, st') /\
    Config.getBackupConfig st' = b /\
    Config.retentionDays b = Some 7%Z /\
    Config.localPath b = "./backups".
Proof.
  destruct (setManualBackupConfig_round_trip backup_input manual_store eq_refl)
    as (b & st' & Hset & Hget & _ & _ & _ & _ & _ & _ & Hdefault & _).
  exists b, st'. split; [exact Hset|]. split; [exact Hget|].
  split; [apply Hdefault; right; right; reflexivity|].
  injection Hset as <- _. reflexivity.
Defined.

Lemma truthy_or_null (s : option string) : JS.truthy (JS.or_null s) = JS.truthy s.
Proof. destruct s as [[|c r]|]; reflexivity. Qed.

Lemma or_null_truthy (s : option string) : JS.truthy s = true -> JS.or_null s = s.
Proof. unfold JS.or_null. intros ->. reflexivity. Qed.

(** X5: in manual mode [setManualS3Config] rejects an input that gives
    only one of access key and bucket, leaving the store unchanged, and
    accepts every other input (a secret is not asked for).  The object it
    then returns is what the next [getS3Config] returns, with no further
    change of the store; S3 counts as configured afterwards exactly when
    key, secret and bucket were all given and non-empty. *)
Theorem setManualS3Config_round_trip (config : Config.S3Input)
    (st : Config.Store) :
  Config.configMode st = "manual" ->
  if xorb (JS.truthy (Config.in_accessKeyId config))
          (JS.truthy (Config.in_bucket config))
  then Config.setManualS3Config config st = (Throw S3KeyAndBucketRequired, st)
  else exists c st',
      Config.setManualS3Config config st = (Ok c, st') /\
      Config.getS3Config st' = (c, st') /\
      JS.truthy (Config.accessKeyId c) && JS.truthy (Config.secretAccessKey c)
        && JS.truthy (Config.bucket c) =
      JS.truthy (Config.in_accessKeyId config)
        && JS.truthy (Config.in_secretAccessKey config)
        && JS.truthy (Config.in_bucket config) /\
      Config.getDatabaseConfig st' = Config.getDatabaseConfig st /\
      Config.getBackupConfig st' = Config.getBackupConfig st.
Proof.
  intros Hmode.
  unfold Config.setManualS3Config. rewrite Hmode.
  change ("manual" =? "manual") with true. cbn [negb].
  destruct (JS.truthy (Config.in_accessKeyId config)) eqn:Hk;
    destruct (JS.truthy (Config.in_bucket config)) eqn:Hb;
    cbn [xorb orb andb negb]; try reflexivity.
  all: eexists _, _; (split; [reflexivity|]).
  all: unfold Config.getDatabaseConfig, Config.getBackupConfig, Config.getS3Config,
         Config.set_manual;
       cbn [Config.configMode Config.manualConfig Config.manual_database
            Config.manual_backup Config.manual_s3 fst snd];
       rewrite Hmode; change ("manual" =? "manual") with true; cbn iota.
  all: rewrite auto_detect_flag;
       cbn [Config.s3ForcePathStyle Config.endpoint Config.accessKeyId
            Config.secretAccessKey Config.bucket Config.with_forcePathStyle
            Config.region Config.prefix].
  all: rewrite !truthy_or_null, ?Hk, ?Hb.
  all: assert (Hflag :
         (if JS.truthy (Config.in_endpoint config) &&
             negb (Config.in_s3ForcePathStyle config)
          then Config.shouldForcePathStyle (Config.in_endpoint config)
          else Config.in_s3ForcePathStyle config)
         || Config.shouldForcePathStyle (JS.or_null (Config.in_endpoint config))
         = (if JS.truthy (Config.in_endpoint config) &&
               negb (Config.in_s3ForcePathStyle config)
            then Config.shouldForcePathStyle (Config.in_endpoint config)
            else Config.in_s3ForcePathStyle config)).
  1,3: destruct (JS.truthy (Config.in_endpoint config)) eqn:He;
       [rewrite (or_null_truthy _ He);
        destruct (Config.in_s3ForcePathStyle config); cbn [andb negb orb];
        [reflexivity|apply orb_diag]
       |rewrite (shouldForcePathStyle_falsy (JS.or_null (Config.in_endpoint config)));
        [cbn [andb]; apply orb_false_r|rewrite truthy_or_null; exact He]].
  all: rewrite Hflag; repeat split; reflexivity.
Qed.

Lemma setManualS3Config_round_trip_witness :
  exists c st',
    Config.setManualS3Config s3_input manual_store = (Ok c, st') /\
    Config.getS3Config st' = (c, st') /\
    Config.s3ForcePathStyle c = true /\
    Config.secretAccessKey c = None.
Proof.
  pose proof (setManualS3Config_round_trip s3_input manual_store eq_refl) as H.
  change (xorb (JS.truthy (Config.in_accessKeyId s3_input))
               (JS.truthy (Config.in_bucket s3_input))) with false in H.
  destruct H as (c & st' & Hset & Hget & _).
  exists c, st'. split; [exact Hset|]. split; [exact Hget|].
  injection Hset as <- _. split; reflexivity.
Defined.

(** X6: the getters read one source only.  Outside manual mode what they
    return does not depend on the stored manual values; in manual mode it
    does not depend on the environment. *)
Theorem getters_read_one_source (st : Config.Store) :
  (Config.configMode st <> "manual" ->
   forall m,
     Config.getDatabaseConfig (Config.set_manual m st) = Config.getDatabaseConfig st /\
     Config.getBackupConfig (Config.set_manual m st) = Config.getBackupConfig st /\
     fst (Config.getS3Config (Config.set_manual m st)) = fst (Config.getS3Config st)) /\
  (Config.configMode st = "manual" ->
   forall e,
     Config.getDatabaseConfig (set_env e st) = Config.getDatabaseConfig st /\
     Config.getBackupConfig (set_env e st) = Config.getBackupConfig st /\
     fst (Config.getS3Config (set_env e st)) = fst (Config.getS3Config st)).
Proof.
  split.
  - intros Hmode m. apply String.eqb_neq in Hmode.
    unfold Config.getDatabaseConfig, Config.getBackupConfig, Config.getS3Config,
      Config.set_manual, Config.env_s3, Config.env.
    cbn [Config.configMode Config.process_env]. rewrite Hmode.
    repeat split; reflexivity.
  - intros Hmode e.
    unfold Config.getDatabaseConfig, Config.getBackupConfig, Config.getS3Config,
      set_env.
    cbn [Config.configMode Config.manualConfig]. rewrite Hmode.
    change ("manual" =? "manual") with true. cbn iota.
    repeat split; try reflexivity.
    destruct (Config.manual_s3 (Config.manualConfig st)); reflexivity.
Qed.

(** X7: [setConfigMode] changes the mode only.  The manual values stay
    stored while the store is in environment mode, so switching from manual
    mode to environment mode and back gives the store that was left. *)
Theorem setConfigMode_keeps_manual_values (st : Config.Store) :
  Config.configMode st = "manual" ->
  exists st1,
    Config.setConfigMode "env" st = (Ok "env", st1) /\
    Config.configMode st1 = "env" /\
    Config.manualConfig st1 = Config.manualConfig st /\
    Config.setConfigMode "manual" st1 = (Ok "manual", st).
Proof.
  intros Hmode. exists (Config.set_mode "env" st).
  repeat split.
  unfold Config.setConfigMode, Config.set_mode; cbn [negb andb].
  change ("manual" =? "env") with false. change ("manual" =? "manual") with true.
  cbn [negb andb Config.manualConfig Config.process_env].
  destruct st as [mode m e]. cbn in Hmode |- *. rewrite Hmode. reflexivity.
Qed.

Lemma setConfigMode_keeps_manual_values_witness :
  exists st1,
    Config.setConfigMode "env" manual_store = (Ok "env", st1) /\
    Config.setConfigMode "manual" st1 = (Ok "manual", manual_store).
Proof.
  destruct (setConfigMode_keeps_manual_values manual_store eq_refl)
    as (st1 & Henv & _ & _ & Hback).
  exists st1. split; [exact Henv|exact Hback].
Defined.

(** X8: outside manual mode [getDatabaseConfig] never throws, and the
    configuration it builds from the environment has a non-empty host,
    user and database (an unset or empty variable gives the default), a
    schema that is not the empty string, and no empty table name. *)
Theorem getDatabaseConfig_env_defaults (st : Config.Store) :
  Config.configMode st <> "manual" ->
  exists c,
    Config.getDatabaseConfig st = Ok c /\
    Config.host c <> "" /\ Config.user c <> "" /\ Config.database c <> "" /\
    Config.schema c <> Some "" /\
    ~ In "" (Config.excludeTables c) /\
    (JS.truthy (Config.env st "DB_HOST") = false -> Config.host c = "localhost") /\
    (JS.truthy (Config.env st "DB_USER") = false -> Config.user c = "postgres") /\
    (JS.truthy (Config.env st "DB_NAME") = false -> Config.database c = "postgres") /\
    (JS.truthy (Config.env st "DB_PORT") = false -> Config.port c = Some 5432%Z).
Proof.
  intros Hmode. apply String.eqb_neq in Hmode.
  unfold Config.getDatabaseConfig. rewrite Hmode.
  eexists. split; [reflexivity|].
  cbn [Config.host Config.user Config.database Config.schema Config.excludeTables
       Config.port].
  repeat (split; [apply or_default_not_empty; discriminate|]).
  split; [|split; [|repeat split]].
  - destruct (Config.env st "DB_SCHEMA") as [[|c r]|]; discriminate.
  - destruct (JS.or_default (Config.env st "DB_EXCLUDE_TABLES") "" =? "");
      [intros []|].
    unfold Config.parse_table_list. intros Hin.
    apply filter_In in Hin as [_ Hin]. discriminate Hin.
  - destruct (Config.env st "DB_HOST") as [[|c r]|]; intros H;
      try discriminate H; reflexivity.
  - destruct (Config.env st "DB_USER") as [[|c r]|]; intros H;
      try discriminate H; reflexivity.
  - destruct (Config.env st "DB_NAME") as [[|c r]|]; intros H;
      try discriminate H; reflexivity.
  - destruct (Config.env st "DB_PORT") as [[|c r]|]; intros H;
      try discriminate H; reflexivity.
Qed.

Lemma getDatabaseConfig_env_defaults_witness :
  exists c,
    Config.getDatabaseConfig (Config.initial [("DB_HOST", ""); ("DB_NAME", "app")])
      = Ok c /\
    Config.host c = "localhost" /\ Config.database c = "app".
Proof.
  destruct (getDatabaseConfig_env_defaults
              (Config.initial [("DB_HOST", ""); ("DB_NAME", "app")]))
    as (c & Hc & _ & _ & _ & _ & _ & Hhost & _).
  - discriminate.
  - exists c. split; [exact Hc|]. split; [exact (Hhost eq_refl)|].
    injection Hc as <-. reflexivity.
Defined.

(** * Further properties of the merged listing *)

Lemma keyed_map_set (k : string) (v : Backup) (m : BackupMap) :
  filename v = k -> keyed m -> keyed (map_set k v m).
Proof.
  intros Hv Hm k' v' Hin.
  destruct (map_set_In _ _ _ _ Hin) as [E|E].
  - injection E as -> ->. exact Hv.
  - exact (Hm _ _ E).
Qed.

Lemma merge_local_keyed (l : list Backup) (m : BackupMap) :
  keyed m -> keyed (merge_local l m).
Proof.
  revert m; induction l as [|b l IH]; intros m Hm; [exact Hm|].
  apply IH. apply keyed_map_set; [reflexivity|exact Hm].
Qed.

Lemma merge_remote_step_keyed (m : BackupMap) (b : Backup) :
  keyed m -> keyed (merge_remote_step m b).
Proof.
  intros Hm. unfold merge_remote_step.
  destruct (map_has (filename b) m) eqn:Hhas.
  - destruct (map_get (filename b) m) as [existing|] eqn:Hget; [|exact Hm].
    apply keyed_map_set; [|exact Hm].
    rewrite map_has_mem in Hhas. apply mem_In in Hhas.
    destruct (map_get_In _ _ Hhas) as (v & Hv & Hin).
    rewrite Hget in Hv. injection Hv as ->. exact (Hm _ _ Hin).
  - apply keyed_map_set; [reflexivity|exact Hm].
Qed.

Lemma merge_remote_step_NoDup (m : BackupMap) (b : Backup) :
  NoDup (keys m) -> NoDup (keys (merge_remote_step m b)).
Proof.
  intros Hm. unfold merge_remote_step.
  destruct (map_has (filename b) m).
  - destruct (map_get (filename b) m); [|exact Hm].
    apply NoDup_keys_map_set; exact Hm.
  - apply NoDup_keys_map_set; exact Hm.
Qed.

Lemma merge_remote_step_keys (m : BackupMap) (b : Backup) (k : string) :
  In k (keys (merge_remote_step m b)) <-> In k (keys m) \/ k = filename b.
Proof.
  unfold merge_remote_step.
  destruct (map_has (filename b) m) eqn:Hhas.
  - assert (Hin : In (filename b) (keys m))
      by (apply mem_In; rewrite <- map_has_mem; exact Hhas).
    destruct (map_get_In _ _ Hin) as (v & -> & _).
    rewrite keys_map_set, <- map_has_mem, Hhas.
    split; [tauto|]. intros [H| ->]; assumption.
  - rewrite keys_map_set, <- map_has_mem, Hhas, in_app_iff. simpl.
    intuition congruence.
Qed.

Lemma merge_remote_invariants (r : list Backup) (m : BackupMap) :
  keyed m -> NoDup (keys m) ->
  keyed (merge_remote r m) /\ NoDup (keys (merge_remote r m)) /\
  forall k, In k (keys (merge_remote r m)) <-> In k (keys m) \/ In k (names r).
Proof.
  revert m; induction r as [|b r IH]; intros m Hk Hnd.
  - split; [exact Hk|]. split; [exact Hnd|]. intros k; simpl; tauto.
  - destruct (IH (merge_remote_step m b) (merge_remote_step_keyed _ _ Hk)
                (merge_remote_step_NoDup _ _ Hnd)) as (Hk' & Hnd' & Hkeys).
    split; [exact Hk'|]. split; [exact Hnd'|].
    intros k. change (merge_remote (b :: r) m)
      with (merge_remote r (merge_remote_step m b)).
    rewrite Hkeys, merge_remote_step_keys. simpl. intuition congruence.
Qed.

Lemma names_values_keyed (m : BackupMap) :
  keyed m -> names (map_values m) = keys m.
Proof.
  unfold names, map_values, keys. rewrite map_map. intros Hm.
  apply map_ext_in. intros [k v] Hin. exact (Hm _ _ Hin).
Qed.

Lemma merged_map_invariants (l r : list Backup) :
  keyed (merged_map l r) /\ NoDup (keys (merged_map l r)) /\
  forall k, In k (keys (merged_map l r)) <-> In k (names l) \/ In k (names r).
Proof.
  assert (Hk : keyed (merge_local l [])) by (apply merge_local_keyed; intros k v []).
  assert (Hnd : NoDup (keys (merge_local l [])))
    by (apply merge_local_NoDup; constructor).
  destruct (merge_remote_invariants r _ Hk Hnd) as (Hk' & Hnd' & Hkeys).
  split; [exact Hk'|]. split; [exact Hnd'|].
  intros k. unfold merged_map. rewrite Hkeys, merge_local_nil_keys. tauto.
Qed.

Lemma names_mergeBackups (l r : list Backup) :
  Permutation (names (mergeBackups l r)) (keys (merged_map l r)).
Proof.
  destruct (merged_map_invariants l r) as (Hk & _ & _).
  rewrite <- (names_values_keyed _ Hk). unfold names.
  apply Permutation_map. apply sort_by_date_desc_perm.
Qed.

Lemma fetch_local_files (w : World) :
  fetch_local w = [] \/ fetch_local w = listLocalBackups w.
Proof.
  unfold fetch_local.
  destruct ((Config.storage (backupConfig w) =? "local")
            || (Config.storage (backupConfig w) =? "both")); auto.
Qed.

(** X9: whatever the two archives list (also when the remote listing
    repeats a file name), the list that [listAllBackups] returns has
    pairwise distinct file names, holds exactly the file names of the two
    listings it fetched, has no more entries than these together, and is
    ordered newest first. *)
Theorem listAllBackups_names (w : World) :
  exists remoteBackups all w',
    fetch_remote w = (Ok remoteBackups, w') /\
    listAllBackups w = (Ok all, w') /\
    NoDup (names all) /\
    StronglySorted newer_first all /\
    (forall f, In f (names all) <->
               In f (names (fetch_local w)) \/ In f (names remoteBackups)) /\
    length all <= length (fetch_local w) + length remoteBackups.
Proof.
  destruct (fetch_remote_returns w) as (r & w' & Hr).
  exists r, (mergeBackups (fetch_local w) r), w'.
  split; [exact Hr|].
  split; [unfold listAllBackups, bind, ret; rewrite Hr; reflexivity|].
  destruct (merged_map_invariants (fetch_local w) r) as (Hk & Hnd & Hkeys).
  pose proof (names_mergeBackups (fetch_local w) r) as Hperm.
  split; [|split; [|split]].
  - apply (Permutation_NoDup (Permutation_sym Hperm)). exact Hnd.
  - apply sort_by_date_desc_sorted.
  - intros f. rewrite <- Hkeys. split; apply Permutation_in;
      [exact Hperm|apply Permutation_sym; exact Hperm].
  - rewrite <- (length_map filename (mergeBackups (fetch_local w) r)).
    fold (names (mergeBackups (fetch_local w) r)).
    rewrite (Permutation_length Hperm).
    rewrite <- (length_map filename (fetch_local w)),
            <- (length_map filename r), <- length_app.
    apply NoDup_incl_length; [exact Hnd|].
    intros k Hin. apply in_app_iff. apply Hkeys. exact Hin.
Qed.

Lemma count_location_app (loc : Location) (a b : list Backup) :
  count_location loc (a ++ b) = count_location loc a + count_location loc b.
Proof. unfold count_location. rewrite filter_app, length_app. reflexivity. Qed.

Lemma count_location_perm (loc : Location) (a b : list Backup) :
  Permutation a b -> count_location loc a = count_location loc b.
Proof.
  unfold count_location. induction 1 as [|x a b _ IH|x y a|a b c _ IH1 _ IH2]; simpl.
  - reflexivity.
  - destruct (Location_eqb (location x) loc); simpl; congruence.
  - destruct (Location_eqb (location x) loc), (Location_eqb (location y) loc);
      reflexivity.
  - congruence.
Qed.

Lemma sum_sizes_app (a b : list Backup) :
  sum_sizes (a ++ b) = (sum_sizes a + sum_sizes b)%Z.
Proof. induction a as [|x a IH]; simpl; [reflexivity|]. rewrite IH. lia. Qed.

Lemma sum_sizes_perm (a b : list Backup) :
  Permutation a b -> sum_sizes a = sum_sizes b.
Proof.
  induction 1 as [|x a b _ IH|x y a|a b c _ IH1 _ IH2]; simpl; lia.
Qed.

Lemma filter_split_length {A} (p : A -> bool) (l : list A) :
  length (filter p l) + length (filter (fun x => negb (p x)) l) = length l.
Proof.
  induction l as [|x l IH]; simpl; [reflexivity|].
  destruct (p x); simpl; lia.
Qed.

Lemma shared_names_length (l r : list Backup) :
  NoDup (names l) -> NoDup (names r) ->
  length (filter (present_in (names r)) l) = length (filter (present_in (names l)) r).
Proof.
  intros Hl Hr.
  assert (Hmap : forall (ks : list string) (bs : list Backup),
             names (filter (present_in ks) bs) =
             filter (fun k => mem k ks) (names bs)).
  { intros ks bs. induction bs as [|b bs IH]; simpl; [reflexivity|].
    unfold present_in at 1. destruct (mem (filename b) ks); simpl; congruence. }
  rewrite <- (length_map filename (filter _ l)), <- (length_map filename (filter _ r)).
  fold (names (filter (present_in (names r)) l)).
  fold (names (filter (present_in (names l)) r)).
  rewrite !Hmap. apply Permutation_length. apply NoDup_Permutation.
  - apply NoDup_filter; exact Hl.
  - apply NoDup_filter; exact Hr.
  - intros k. rewrite !filter_In, !mem_In. tauto.
Qed.

Lemma merged_values_distinct (l r : list Backup) :
  NoDup (names l) -> NoDup (names r) ->
  map_values (merged_map l r) =
  map (fun x => with_location (if present_in (names r) x then both else local) x) l ++
  map (with_location remote) (filter (absent_from (names l)) r).
Proof.
  intros Hl Hr. rewrite (merged_map_distinct l r Hr).
  rewrite (merge_local_distinct l []) by exact Hl. cbn [app].
  rewrite keys_local_entries. unfold map_values.
  rewrite map_app, !map_map. f_equal.
  apply map_ext. intros x. unfold mark_both, local_entry, present_in. cbn [fst snd].
  destruct (mem (filename x) (names r)); cbn [snd];
    [apply with_location_twice|reflexivity].
Qed.

Lemma count_local_values (ks : list string) (l : list Backup) :
  let values :=
    map (fun x => with_location (if present_in ks x then both else local) x) l in
  count_location local values + count_location both values = length l /\
  count_location both values = length (filter (present_in ks) l) /\
  count_location remote values = 0 /\
  sum_sizes values = sum_sizes l.
Proof.
  cbv zeta. unfold count_location.
  induction l as [|x l (IH1 & IH2 & IH3 & IH4)]; simpl; [repeat split|].
  destruct (present_in ks x); simpl; repeat split; lia.
Qed.

Lemma count_remote_values (l : list Backup) :
  let values := map (with_location remote) l in
  count_location local values = 0 /\ count_location both values = 0 /\
  count_location remote values = length l /\
  sum_sizes values = sum_sizes l.
Proof.
  cbv zeta. unfold count_location.
  induction l as [|x l (IH1 & IH2 & IH3 & IH4)]; simpl; repeat split; lia.
Qed.

(** X10: when neither listing repeats a file name, the statistics count
    the listings themselves: the local counter is the length of the local
    listing, the remote counter the length of the remote listing, [total]
    counts a name in both listings once, and [totalSize] adds the sizes of
    the local entries and of the remote entries that have no local
    entry (for a file in both archives the local size is the one
    counted). *)
Theorem getBackupStats_counts_listings (w : World) (remoteBackups : list Backup)
    (w' : World) :
  fetch_remote w = (Ok remoteBackups, w') ->
  NoDup (names (fetch_local w)) ->
  NoDup (names remoteBackups) ->
  exists stats,
    getBackupStats w = (Ok stats, w') /\
    stats_local stats = length (fetch_local w) /\
    stats_remote stats = length remoteBackups /\
    total stats + length (filter (present_in (names remoteBackups)) (fetch_local w))
      = length (fetch_local w) + length remoteBackups /\
    totalSize stats =
      (sum_sizes (fetch_local w) +
       sum_sizes (filter (absent_from (names (fetch_local w))) remoteBackups))%Z.
Proof.
  intros Hr Hl Hnd.
  set (L := fetch_local w) in *.
  exists (stats_of (mergeBackups L remoteBackups)).
  split.
  { unfold getBackupStats, listAllBackups, bind, ret. rewrite Hr. reflexivity. }
  pose proof (stats_fold (mergeBackups L remoteBackups)
                {| total := length (mergeBackups L remoteBackups);
                   stats_local := 0; stats_remote := 0; totalSize := 0 |}) as Hs.
  cbv zeta in Hs. fold (stats_of (mergeBackups L remoteBackups)) in Hs.
  destruct Hs as (Ht & Hsl & Hsr & Hsz). cbn [total stats_local stats_remote totalSize] in *.
  assert (Hperm : Permutation (mergeBackups L remoteBackups)
                    (map_values (merged_map L remoteBackups)))
    by apply sort_by_date_desc_perm.
  rewrite (merged_values_distinct L remoteBackups Hl Hnd) in Hperm.
  destruct (count_local_values (names remoteBackups) L) as (Ha1 & Ha2 & Ha3 & Ha4).
  destruct (count_remote_values (filter (absent_from (names L)) remoteBackups))
    as (Hb1 & Hb2 & Hb3 & Hb4).
  rewrite !(count_location_perm _ _ _ Hperm), !count_location_app in Hsl.
  rewrite !(count_location_perm _ _ _ Hperm), !count_location_app in Hsr.
  rewrite (sum_sizes_perm _ _ Hperm), sum_sizes_app in Hsz.
  rewrite (Permutation_length Hperm), length_app, !length_map in Ht.
  pose proof (filter_split_length (present_in (names L)) remoteBackups) as Hsplit.
  change (fun x => negb (present_in (names L) x)) with (absent_from (names L)) in Hsplit.
  pose proof (shared_names_length L remoteBackups Hl Hnd) as Hshared.
  repeat split; lia.
Qed.

Lemma getBackupStats_counts_listings_witness :
  exists stats,
    getBackupStats both_world = (Ok stats, both_world) /\
    stats_local stats = 2 /\ stats_remote stats = 2 /\ total stats = 3.
Proof.
  assert (Hf : fetch_remote both_world = (Ok both_world_remote, both_world))
    by (vm_compute; reflexivity).
  assert (Hl : NoDup (names (fetch_local both_world)))
    by (vm_compute; distinct_strings).
  assert (Hr : NoDup (names both_world_remote))
    by (vm_compute; distinct_strings).
  destruct (getBackupStats_counts_listings both_world _ _ Hf Hl Hr)
    as (stats & Hs & H1 & H2 & H3 & _).
  exists stats. split; [exact Hs|].
  rewrite H1, H2. split; [reflexivity|]. split; [reflexivity|].
  change (total stats + 1 = 2 + 2) in H3. lia.
Defined.

(** * Further properties of listing and sweep *)

Lemma fetch_remote_spec (w : World) :
  fetch_remote w =
  if remote_gate w then
    match s3_faults w with
    | Some _ :: rest =>
        (Ok [], add_log (error "Failed to list S3 backups") (set_faults rest w))
    | None :: rest =>
        (Ok (map to_remote (first_page (filter (listed w) (objects w)))),
         set_faults rest w)
    | [] => (Ok (map to_remote (first_page (filter (listed w) (objects w)))), w)
    end
  else (Ok [], w).
Proof.
  unfold fetch_remote, remote_gate.
  destruct (_ || _); cbn [andb]; [|reflexivity].
  destruct (isS3Configured w) eqn:Hc; [|reflexivity].
  unfold listS3Backups. rewrite Hc. cbn [negb]. unfold_m.
  destruct (s3_faults w) as [|[reason|] rest]; reflexivity.
Qed.

Lemma listAllBackups_gate_closed (w : World) :
  remote_gate w = false ->
  listAllBackups w = (Ok (mergeBackups (fetch_local w) []), w).
Proof.
  intros Hg. unfold listAllBackups, bind, ret.
  rewrite fetch_remote_spec, Hg. reflexivity.
Qed.

Lemma sweep_gate_closed (w : World) (now : Z) :
  remote_gate w = false ->
  exists n w2,
    applyRetentionPolicy now w = (Ok n, w2) /\
    objects w2 = objects w /\ s3_faults w2 = s3_faults w.
Proof.
  intros Hg.
  destruct (retention_loop_local_only
              (retentionDate (time_zone w) now (Config.retentionDays (backupConfig w)))
              (mergeBackups (fetch_local w) [])) with (c := 0) (u := w)
    as (n & w2 & Hrun & Ho & Hf).
  { intros b Hb _. apply mergeBackups_no_remote in Hb.
    unfold remote_side. rewrite Hb. reflexivity. }
  exists n, w2. split; [|split; assumption].
  unfold applyRetentionPolicy, bind.
  rewrite (listAllBackups_gate_closed w Hg). exact Hrun.
Qed.

Lemma names_mergeBackups_iff (l r : list Backup) (f : string) :
  In f (names (mergeBackups l r)) <-> In f (names l) \/ In f (names r).
Proof.
  destruct (merged_map_invariants l r) as (_ & _ & Hkeys).
  rewrite <- Hkeys. pose proof (names_mergeBackups l r) as Hperm.
  split; apply Permutation_in; [exact Hperm|apply Permutation_sym; exact Hperm].
Qed.

(** X11: when S3 is not configured (access key, secret or bucket missing)
    no request is sent to the object store, whatever the storage mode:
    [listS3Backups] returns the empty list, [deleteFromS3] throws without
    a request, [listAllBackups] reports the file names of the local
    listing only, every artifact as [local], and the sweep leaves the
    bucket and the pending requests as they are. *)
Theorem s3_not_configured_no_request (w : World) (now : Z) :
  isS3Configured w = false ->
  listS3Backups w = (Ok [], w) /\
  (forall f, deleteFromS3 f w = (Throw S3NotConfigured, w)) /\
  exists all n w2,
    listAllBackups w = (Ok all, w) /\
    (forall f, In f (names all) <-> In f (names (fetch_local w))) /\
    (forall a, In a all -> location a = local) /\
    applyRetentionPolicy now w = (Ok n, w2) /\
    objects w2 = objects w /\ s3_faults w2 = s3_faults w.
Proof.
  intros Hc.
  assert (Hg : remote_gate w = false)
    by (unfold remote_gate; rewrite Hc; apply andb_false_r).
  split; [unfold listS3Backups; rewrite Hc; reflexivity|].
  split; [intros f; rewrite deleteFromS3_spec, Hc; reflexivity|].
  destruct (sweep_gate_closed w now Hg) as (n & w2 & Hrun & Ho & Hf).
  exists (mergeBackups (fetch_local w) []), n, w2.
  split; [apply listAllBackups_gate_closed; exact Hg|].
  split; [intros f; rewrite names_mergeBackups_iff; simpl; tauto|].
  split; [intros a; apply mergeBackups_no_remote|].
  split; [exact Hrun|]. split; assumption.
Qed.

Lemma s3_not_configured_no_request_witness :
  exists all n w2,
    listAllBackups no_secret_world = (Ok all, no_secret_world) /\
    names all = ["backup_a.sql"] /\
    applyRetentionPolicy 1000000000 no_secret_world = (Ok n, w2) /\
    objects w2 = [object_a; object_c] /\ s3_faults w2 = [Some "AccessDenied"].
Proof.
  destruct (s3_not_configured_no_request no_secret_world 1000000000 eq_refl)
    as (_ & _ & all & n & w2 & Hall & _ & _ & Hrun & Ho & Hf).
  exists all, n, w2. split; [exact Hall|].
  split; [|split; [exact Hrun|split; assumption]].
  assert (Hv : fst (listAllBackups no_secret_world) = Ok all)
    by (rewrite Hall; reflexivity).
  vm_compute in Hv. injection Hv as <-. reflexivity.
Defined.

(** X12: a storage mode other than ["local"], ["remote"] and ["both"]
    includes no archive: [listAllBackups] returns the empty list, the
    statistics are all zero and the sweep deletes nothing, without a
    request to the object store and whatever the directory and the bucket
    hold. *)
Theorem unknown_storage_lists_nothing (w : World) (now : Z) :
  Config.storage (backupConfig w) <> "local" ->
  Config.storage (backupConfig w) <> "remote" ->
  Config.storage (backupConfig w) <> "both" ->
  listAllBackups w = (Ok [], w) /\
  getBackupStats w =
    (Ok {| total := 0; stats_local := 0; stats_remote := 0; totalSize := 0 |}, w) /\
  applyRetentionPolicy now w = (Ok 0, w).
Proof.
  intros Hl Hr Hb.
  apply String.eqb_neq in Hl, Hr, Hb.
  assert (Hall : listAllBackups w = (Ok [], w)).
  { unfold listAllBackups, bind, ret, fetch_remote, fetch_local.
    rewrite Hl, Hr, Hb. reflexivity. }
  split; [exact Hall|]. split.
  - unfold getBackupStats, bind, ret. rewrite Hall. reflexivity.
  - unfold applyRetentionPolicy, bind. rewrite Hall. reflexivity.
Qed.

Lemma unknown_storage_lists_nothing_witness :
  listAllBackups (world_of "s3" [file_a] [object_a] []) =
    (Ok [], world_of "s3" [file_a] [object_a] []).
Proof.
  refine (proj1 (unknown_storage_lists_nothing (world_of "s3" [file_a] [object_a] [])
                   0 _ _ _)); discriminate.
Defined.

Lemma filter_none {A} (p : A -> bool) (l : list A) :
  (forall x, In x l -> p x = false) -> filter p l = [].
Proof.
  induction l as [|x l IH]; intros H; [reflexivity|].
  simpl. rewrite (H x (or_introl eq_refl)). apply IH.
  intros y Hy. apply H. right; exact Hy.
Qed.

(** X13: a failing listing request does not fail [listAllBackups]: when
    the mode includes the bucket, S3 is configured and the request is
    refused, the failure is logged once and the result is the merge of the
    local listing alone, so every artifact is reported as [local] and the
    statistics count no remote artifact, whatever the bucket holds. *)
Theorem listAllBackups_survives_listing_failure (w : World) (reason : string)
    (rest : list (option string)) :
  remote_gate w = true ->
  s3_faults w = Some reason :: rest ->
  let w' := add_log (error "Failed to list S3 backups") (set_faults rest w) in
  exists all stats,
    listAllBackups w = (Ok all, w') /\
    (forall f, In f (names all) <-> In f (names (fetch_local w))) /\
    (forall a, In a all -> location a = local) /\
    getBackupStats w = (Ok stats, w') /\
    stats_remote stats = 0 /\ stats_local stats = total stats.
Proof.
  intros Hg Hf w'.
  assert (Hall : listAllBackups w = (Ok (mergeBackups (fetch_local w) []), w')).
  { unfold listAllBackups, bind, ret. rewrite fetch_remote_spec, Hg, Hf. reflexivity. }
  exists (mergeBackups (fetch_local w) []), (stats_of (mergeBackups (fetch_local w) [])).
  split; [exact Hall|].
  split; [intros f; rewrite names_mergeBackups_iff; simpl; tauto|].
  split; [intros a; apply mergeBackups_no_remote|].
  split; [unfold getBackupStats, bind, ret; rewrite Hall; reflexivity|].
  pose proof (stats_fold (mergeBackups (fetch_local w) [])
                {| total := length (mergeBackups (fetch_local w) []);
                   stats_local := 0; stats_remote := 0; totalSize := 0 |}) as Hs.
  cbv zeta in Hs. fold (stats_of (mergeBackups (fetch_local w) [])) in Hs.
  destruct Hs as (Ht & Hsl & Hsr & _). cbn [total stats_local stats_remote] in *.
  assert (Hloc : forall loc, loc <> local ->
             count_location loc (mergeBackups (fetch_local w) []) = 0).
  { intros loc Hne. unfold count_location.
    rewrite filter_none; [reflexivity|].
    intros a Ha. apply mergeBackups_no_remote in Ha. rewrite Ha.
    destruct loc; try reflexivity. elim Hne; reflexivity. }
  assert (Hcount : count_location local (mergeBackups (fetch_local w) []) =
                   length (mergeBackups (fetch_local w) [])).
  { unfold count_location. rewrite filter_all; [reflexivity|].
    intros a Ha. apply mergeBackups_no_remote in Ha. rewrite Ha. reflexivity. }
  rewrite (Hloc remote), (Hloc both) in * by discriminate.
  split; lia.
Qed.

Lemma listAllBackups_survives_listing_failure_witness :
  exists all,
    fst (listAllBackups (world_of "both" [file_a] [object_a; object_c]
                           [Some "SlowDown"])) = Ok all /\
    names all = ["backup_a.sql"] /\
    logs (snd (listAllBackups (world_of "both" [file_a] [object_a; object_c]
                                 [Some "SlowDown"]))) =
      [error "Failed to list S3 backups"].
Proof.
  destruct (listAllBackups_survives_listing_failure
              (world_of "both" [file_a] [object_a; object_c] [Some "SlowDown"])
              "SlowDown" [] eq_refl eq_refl)
    as (all & stats & Hall & _).
  exists all. rewrite Hall. split; [reflexivity|]. split; [|reflexivity].
  assert (Hv : fst (listAllBackups (world_of "both" [file_a] [object_a; object_c]
                                      [Some "SlowDown"])) = Ok all)
    by (rewrite Hall; reflexivity).
  vm_compute in Hv. injection Hv as <-. reflexivity.
Defined.

(** X14: a retention that is not a number switches the sweep off: the
    cutoff is an invalid date, no artifact compares as older, and
    [applyRetentionPolicy] returns 0 having only listed the archives. *)
Theorem applyRetentionPolicy_without_retention (w : World) (now : Z) :
  Config.retentionDays (backupConfig w) = None ->
  exists all w1,
    listAllBackups w = (Ok all, w1) /\
    applyRetentionPolicy now w = (Ok 0, w1) /\
    files w1 = files w /\ objects w1 = objects w.
Proof.
  intros Hd.
  destruct (listAllBackups_returns w) as (all & w1 & Hall).
  exists all, w1. split; [exact Hall|]. split.
  - unfold applyRetentionPolicy, bind. rewrite Hall, Hd.
    apply retention_loop_nothing_expired. reflexivity.
  - revert Hall. unfold listAllBackups, bind, ret. rewrite fetch_remote_spec.
    destruct (remote_gate w); [|intros [= _ <-]; split; reflexivity].
    destruct (s3_faults w) as [|[r|] rest]; intros [= _ <-]; split; reflexivity.
Qed.

Lemma applyRetentionPolicy_without_retention_witness :
  exists all w1,
    listAllBackups no_retention_world = (Ok all, w1) /\
    length all = 2 /\
    applyRetentionPolicy 1000000000 no_retention_world = (Ok 0, w1) /\
    files w1 = [file_a] /\ objects w1 = [object_a; object_c].
Proof.
  destruct (applyRetentionPolicy_without_retention no_retention_world 1000000000
              eq_refl) as (all & w1 & Hall & Hrun & Hf & Ho).
  exists all, w1. split; [exact Hall|].
  split; [|split; [exact Hrun|split; assumption]].
  assert (Hv : fst (listAllBackups no_retention_world) = Ok all)
    by (rewrite Hall; reflexivity).
  vm_compute in Hv. injection Hv as <-. reflexivity.
Defined.

Lemma listAllBackups_spec (w : World) :
  exists r w1,
    listAllBackups w = (Ok (mergeBackups (fetch_local w) r), w1) /\
    (r = [] \/ r = remote_listing w) /\
    store w1 = store w /\ files w1 = files w /\ objects w1 = objects w.
Proof.
  unfold listAllBackups, bind, ret. rewrite fetch_remote_spec.
  unfold remote_listing.
  destruct (remote_gate w).
  - destruct (s3_faults w) as [|[reason|] rest]; eexists _, _;
      (split; [reflexivity|]); repeat split; auto.
  - eexists _, _. split; [reflexivity|]. repeat split; auto.
Qed.

Lemma swept_file_expired (w : World) (cutoff : option Z) (r : list Backup)
    (g : LocalFile) :
  Forall (fun g => valid_name (name g) = true) (files w) ->
  NoDup (map name (files w)) ->
  NoDup (names r) ->
  In g (files w) ->
  swept_file w cutoff (mergeBackups (fetch_local w) r) g = expired_file w cutoff g.
Proof.
  intros Hvalid Hnd Hr Hg.
  pose proof (NoDup_names_fetch_local w Hnd) as Hl.
  rewrite Forall_forall in Hvalid.
  apply eq_true_iff_eq. unfold swept_file, expired_file. split.
  - intros H. apply existsb_exists in H as (b & Hb & Hp).
    apply andb_true_iff in Hp as [Hp Hat]. apply andb_true_iff in Hp as [Hex Hside].
    apply (mergeBackups_elements _ _ _ Hl Hr) in Hb
      as [(x & Hx & ->)|(y & _ & _ & ->)]; [|discriminate Hside].
    apply In_fetch_local in Hx as (Hgate & g' & Hg' & Hbackup & ->).
    unfold file_at, local_path in Hat. cbn [filename with_location to_local] in Hat.
    apply String.eqb_eq in Hat.
    rewrite (basename_no_sep (name g')) in Hat
      by (apply valid_name_no_sep, Hvalid, Hg').
    apply join_valid_name_inj in Hat; [|apply Hvalid, Hg|apply Hvalid, Hg'].
    assert (g = g') by (apply (NoDup_map_eq name (files w)); assumption).
    subst g'. rewrite Hgate, Hbackup. cbn [andb].
    rewrite <- Hex. apply expired_same_date. reflexivity.
  - intros H. apply andb_true_iff in H as [H Hex]. apply andb_true_iff in H as [Hgate Hbackup].
    apply existsb_exists.
    exists (with_location (if mem (filename (to_local g)) (names r) then both else local)
                          (to_local g)).
    split.
    + apply (mergeBackups_elements _ _ _ Hl Hr). left.
      exists (to_local g). split; [|reflexivity].
      apply In_fetch_local. split; [exact Hgate|]. exists g. auto.
    + rewrite (file_at_own_path w g) by (try apply Hvalid; auto).
      rewrite andb_true_r. apply andb_true_iff. split.
      * rewrite <- Hex. apply expired_same_date. reflexivity.
      * destruct (mem _ _); reflexivity.
Qed.

(** X15: in a well-formed world, whatever requests to the object store
    fail and however many keys the bucket holds, the sweep removes from
    the directory exactly the listed backup files whose modification time
    is before the cutoff: a file that is not older than the cutoff, a
    file without the extension [.sql] or [.dump], and every file when the
    storage mode leaves the directory out, stays; when the cutoff is the
    invalid date (a retention that is not a number, or one that moves the
    cutoff out of the range of [Date]) nothing is counted and no file is
    removed.  The bucket only loses objects and the configuration is
    unchanged. *)
Theorem sweep_removes_expired_files (w : World) (now : Z) :
  well_formed w ->
  let cutoff :=
    retentionDate (time_zone w) now (Config.retentionDays (backupConfig w)) in
  exists n w2,
    applyRetentionPolicy now w = (Ok n, w2) /\
    files w2 = filter (fun g => negb (expired_file w cutoff g)) (files w) /\
    (forall g, In g (files w) -> expired cutoff (to_local g) = false -> In g (files w2)) /\
    (cutoff = None -> n = 0%nat /\ files w2 = files w) /\
    incl (objects w2) (objects w) /\
    store w2 = store w.
Proof.
  intros (Hvalid & Hnd & Hkeys & Hflat) cutoff.
  destruct (listAllBackups_spec w) as (r & w1 & Hall & Hr & Hst & Hfiles & Hobjects).
  assert (Hndr : NoDup (names r)).
  { destruct Hr as [->| ->]; [constructor|].
    apply NoDup_names_remote_listing; assumption. }
  destruct (retention_loop_spec w cutoff (mergeBackups (fetch_local w) r) 0 w1 Hst)
    as (n & w2 & outcomes & Hrun & Hst2 & Hlen & Hn & _ & Hf & Ho & _).
  assert (Hfilter : files w2 = filter (fun g => negb (expired_file w cutoff g)) (files w)).
  { rewrite Hf, Hfiles. apply filter_ext_in. intros g Hg.
    rewrite (swept_file_expired w cutoff r g Hvalid Hnd Hndr Hg). reflexivity. }
  exists n, w2.
  split; [unfold applyRetentionPolicy, bind; rewrite Hall; exact Hrun|].
  split; [exact Hfilter|].
  split; [|split; [|split; [rewrite <- Hobjects; exact Ho|exact Hst2]]].
  - intros g Hg Hex. rewrite Hfilter. apply filter_In. split; [exact Hg|].
    unfold expired_file. rewrite Hex. rewrite andb_false_r. reflexivity.
  - intros Hnone. split.
    + rewrite Hnone in Hlen.
      rewrite (filter_none (expired None) (mergeBackups (fetch_local w) r)) in Hlen
        by reflexivity.
      destruct outcomes; [exact Hn|discriminate Hlen].
    + rewrite Hfilter, Hnone. apply filter_all. intros g _.
      unfold expired_file, expired. now rewrite andb_false_r.
Qed.

Lemma sweep_removes_expired_files_witness :
  exists n w2,
    applyRetentionPolicy 1000000000 steady_world = (Ok n, w2) /\
    files w2 = [file_new].
Proof.
  destruct (sweep_removes_expired_files steady_world 1000000000
              steady_world_well_formed) as (n & w2 & Hrun & Hf & _).
  exists n, w2. split; [exact Hrun|]. rewrite Hf. reflexivity.
Defined.

(** * Further properties: file names *)

Lemma drop_prefix_app (p s : string) : drop_prefix p (p ++ s) = Some s.
Proof.
  induction p as [|a p IH]; [reflexivity|].
  cbn [append drop_prefix]. rewrite Ascii.eqb_refl. exact IH.
Qed.

Lemma drop_prefix_split (p s r : string) :
  drop_prefix p s = Some r -> s = (p ++ r)%string.
Proof.
  revert s; induction p as [|a p IH]; intros s H.
  - injection H as ->. reflexivity.
  - destruct s as [|b s]; [discriminate H|]. cbn [drop_prefix] in H.
    destruct (Ascii.eqb a b) eqn:E; [|discriminate H].
    apply Ascii.eqb_eq in E. subst b. rewrite (IH _ H). reflexivity.
Qed.

Lemma all_chars_app (p : ascii -> bool) (a b : string) :
  all_chars p (a ++ b) = all_chars p a && all_chars p b.
Proof.
  induction a as [|c a IH]; [reflexivity|].
  cbn [append all_chars]. rewrite IH. apply andb_assoc.
Qed.

Lemma word_run_extension_app (seen : bool) (x s : string) :
  all_chars is_word x = true ->
  word_run_extension seen (x ++ s) =
  word_run_extension (seen || negb (x =? "")) s.
Proof.
  revert seen; induction x as [|c x IH]; intros seen H.
  - cbn [append]. change ("" =? "") with true. cbn [negb]. rewrite orb_false_r.
    reflexivity.
  - cbn [all_chars] in H. apply andb_true_iff in H as [Hc Hx].
    cbn [append word_run_extension]. rewrite Hc, (IH true Hx).
    cbn [orb]. rewrite orb_true_r. reflexivity.
Qed.

Lemma word_run_extension_split (seen : bool) (s : string) :
  word_run_extension seen s = true ->
  exists x e, s = (x ++ "." ++ e)%string /\ all_chars is_word x = true /\
              (e = "sql" \/ e = "dump") /\ (seen = true \/ x <> "").
Proof.
  revert seen; induction s as [|c r IH]; intros seen H; [discriminate H|].
  cbn [word_run_extension] in H. destruct (is_word c) eqn:Hc.
  - destruct (IH true H) as (x & e & -> & Hx & He & _).
    exists (String c x), e. cbn [all_chars]. rewrite Hc, Hx.
    repeat split; auto. right; discriminate.
  - apply andb_true_iff in H as [H He]. apply andb_true_iff in H as [Hseen Hdot].
    apply Ascii.eqb_eq in Hdot. subst c.
    exists "", r. repeat split; auto.
    apply orb_true_iff in He as [He|He]; apply String.eqb_eq in He; auto.
Qed.

(** The language of the pattern. *)
Lemma backup_name_pattern_iff (f : string) :
  backup_name_pattern f = true <->
  exists x e, f = ("backup_" ++ x ++ "." ++ e)%string /\ x <> "" /\
              all_chars is_word x = true /\ (e = "sql" \/ e = "dump").
Proof.
  unfold backup_name_pattern. split.
  - destruct (drop_prefix "backup_" f) as [rest|] eqn:Hp; [|discriminate].
    intros H. apply drop_prefix_split in Hp.
    destruct (word_run_extension_split _ _ H) as (x & e & -> & Hx & He & Hne).
    exists x, e. repeat split; auto. destruct Hne as [Hne|Hne]; [discriminate Hne|exact Hne].
  - intros (x & e & -> & Hne & Hx & He).
    rewrite drop_prefix_app, (word_run_extension_app _ _ _ Hx).
    apply String.eqb_neq in Hne. rewrite Hne.
    destruct He as [-> | ->]; reflexivity.
Qed.

Lemma is_word_not_sep (c : ascii) : is_word c = true -> Ascii.eqb c Path.sep = false.
Proof.
  intros H. destruct (Ascii.eqb c Path.sep) eqn:E; [|reflexivity].
  apply Ascii.eqb_eq in E. subst c. discriminate H.
Qed.

Lemma all_words_no_sep (x : string) : all_chars is_word x = true -> has_sep x = false.
Proof.
  induction x as [|c x IH]; [reflexivity|].
  cbn [all_chars has_sep]. intros H. apply andb_true_iff in H as [Hc Hx].
  rewrite (is_word_not_sep _ Hc), (IH Hx). reflexivity.
Qed.

Lemma endsWith_app (a s : string) : JS.endsWith (a ++ s) s = true.
Proof. unfold JS.endsWith. rewrite string_rev_app. apply prefix_app. Qed.

Lemma trim_start_not_space (c : ascii) (r : string) :
  JS.is_space c = false -> JS.trim_start (String c r) = String c r.
Proof. intros H. cbn [JS.trim_start]. rewrite H. reflexivity. Qed.

Lemma trim_fixed (s : string) :
  (exists c r, s = String c r /\ JS.is_space c = false) ->
  (exists c r, JS.string_rev s = String c r /\ JS.is_space c = false) ->
  JS.trim s = s.
Proof.
  intros (c & r & Hs & Hc) (c' & r' & Hrev & Hc').
  unfold JS.trim. rewrite Hs, (trim_start_not_space _ _ Hc), <- Hs.
  rewrite Hrev, (trim_start_not_space _ _ Hc'), <- Hrev.
  apply string_rev_involutive.
Qed.

(** X16: a file name that matches the pattern of [validateFilename] (and
    of [validateRestore]) is a proper entry name: it has no slash and no
    white space around it, [path.basename] leaves it unchanged, it has the
    extension that the local listing asks for, and [getLocalBackupPath]
    resolves it to the entry of that name in the backup directory. *)
Theorem validated_name_is_safe (f : string) (w : World) :
  backup_name_pattern f = true ->
  validateFilename f = true /\
  JS.trim f = f /\
  valid_name f = true /\
  Path.basename f = f /\
  JS.endsWith f ".sql" || JS.endsWith f ".dump" = true /\
  getLocalBackupPath w f = (dir_base (Config.localPath (backupConfig w)) ++ f)%string /\
  Path.inside (Config.localPath (backupConfig w)) (getLocalBackupPath w f) = true.
Proof.
  intros Hp.
  destruct (proj1 (backup_name_pattern_iff f) Hp) as (x & e & Hf & Hne & Hx & He).
  assert (Hsep : has_sep f = false).
  { rewrite Hf, !has_sep_app, (all_words_no_sep _ Hx).
    destruct He as [-> | ->]; reflexivity. }
  assert (Hvalid : valid_name f = true).
  { unfold valid_name. rewrite Hsep, Hf. reflexivity. }
  assert (Hbase : Path.basename f = f) by (apply basename_no_sep; exact Hsep).
  assert (Htrim : JS.trim f = f).
  { apply trim_fixed.
    - rewrite Hf. eexists _, _. split; reflexivity.
    - rewrite Hf, <- !append_assoc, string_rev_app.
      destruct He as [-> | ->]; eexists _, _; split; reflexivity. }
  split.
  { unfold validateFilename. cbv zeta. rewrite Htrim, Hp, andb_true_r.
    rewrite Hf. reflexivity. }
  split; [exact Htrim|]. split; [exact Hvalid|]. split; [exact Hbase|].
  split.
  { rewrite Hf. destruct He as [-> | ->].
    - change ("backup_" ++ x ++ "." ++ "sql")%string
        with (("backup_" ++ x) ++ ".sql")%string.
      rewrite endsWith_app. reflexivity.
    - change ("backup_" ++ x ++ "." ++ "dump")%string
        with (("backup_" ++ x) ++ ".dump")%string.
      rewrite endsWith_app. apply orb_true_r. }
  assert (Hdots : Path.basename f <> "..").
  { rewrite Hbase, Hf. discriminate. }
  destruct (getLocalBackupPath_inside w f Hdots) as [Hpath Hin].
  split; [|exact Hin].
  rewrite Hpath, Hbase. apply join_valid_name. exact Hvalid.
Qed.

Lemma validated_name_is_safe_witness :
  getLocalBackupPath (world_of "local" [] [] []) "backup_app_2024-01-01T02-00-00-000Z.sql"
  = "backups/backup_app_2024-01-01T02-00-00-000Z.sql".
Proof.
  destruct (validated_name_is_safe "backup_app_2024-01-01T02-00-00-000Z.sql"
              (world_of "local" [] [] []) eq_refl)
    as (_ & _ & _ & _ & _ & Hpath & _).
  rewrite Hpath. reflexivity.
Defined.

Lemma string_length_app (a b : string) :
  String.length (a ++ b) = String.length a + String.length b.
Proof. induction a as [|c a IH]; simpl; [reflexivity|]. rewrite IH. reflexivity. Qed.

Lemma first_other_char (p : ascii -> bool) (s : string) :
  all_chars p s = false ->
  exists a c b, s = (a ++ String c b)%string /\ all_chars p a = true /\ p c = false.
Proof.
  induction s as [|c s IH]; [discriminate|].
  cbn [all_chars]. destruct (p c) eqn:Hc.
  - cbn [andb]. intros H. destruct (IH H) as (a & c' & b & -> & Ha & Hc').
    exists (String c a), c', b. cbn [all_chars]. rewrite Hc, Ha. auto.
  - intros _. exists "", c, s. auto.
Qed.

Lemma timestamp_words (iso : string) :
  all_chars iso_char iso = true ->
  all_chars is_word (JS.replace_all "." "-" (JS.replace_all ":" "-" iso)) = true.
Proof.
  induction iso as [|c iso IH]; [reflexivity|].
  cbn [all_chars JS.replace_all]. intros H. apply andb_true_iff in H as [Hc Hiso].
  rewrite (IH Hiso), andb_true_r. unfold iso_char in Hc.
  destruct (Ascii.eqb c ":") eqn:E1; [reflexivity|].
  destruct (Ascii.eqb c ".") eqn:E2; [reflexivity|].
  rewrite !orb_false_r in Hc. exact Hc.
Qed.

(** X17: the file name that [generateBackupFilename] builds (for a time
    stamp made of the characters of [toISOString]) matches the pattern of
    [validateFilename] exactly when the database name consists of letters,
    digits, [_] and [-]: the backups of a database named otherwise get
    names that the validated routes refuse. *)
Theorem generated_name_validates (iso database format : string) :
  all_chars iso_char iso = true ->
  (backup_name_pattern (generateBackupFilename iso database format) = true <->
   all_chars is_word database = true).
Proof.
  intros Hiso. unfold generateBackupFilename, backup_name_pattern. cbv zeta.
  pose proof (timestamp_words iso Hiso) as Hts.
  set (ts := JS.replace_all "." "-" (JS.replace_all ":" "-" iso)) in *.
  assert (Hext : (if format =? "dump" then "dump" else "sql") = "sql" \/
                 (if format =? "dump" then "dump" else "sql") = "dump")
    by (destruct (format =? "dump"); auto).
  set (ext := if format =? "dump" then "dump" else "sql") in *.
  rewrite drop_prefix_app. split.
  - intros H. destruct (all_chars is_word database) eqn:Hdb; [reflexivity|].
    destruct (first_other_char _ _ Hdb) as (a & c & b & -> & Ha & Hc).
    rewrite append_assoc, (word_run_extension_app _ _ _ Ha) in H.
    cbn [append word_run_extension] in H. rewrite Hc in H.
    apply andb_true_iff in H as [_ H].
    assert (Hlen : 5 <= String.length (b ++ String "_" (ts ++ String "." ext))).
    { rewrite string_length_app. cbn [String.length]. rewrite string_length_app.
      cbn [String.length]. destruct Hext as [-> | ->]; simpl; lia. }
    apply orb_true_iff in H as [H|H]; apply String.eqb_eq in H;
      rewrite H in Hlen; simpl in Hlen; lia.
  - intros Hdb.
    rewrite (word_run_extension_app _ _ _ Hdb).
    rewrite (word_run_extension_app _ "_" _ eq_refl).
    rewrite (word_run_extension_app _ _ _ Hts).
    change ("_" =? "") with false. cbn [negb]. rewrite orb_true_r. cbn [orb].
    destruct Hext as [-> | ->]; reflexivity.
Qed.

Lemma generated_name_validates_witness :
  backup_name_pattern
    (generateBackupFilename "2024-01-01T02:00:00.000Z" "app" "sql") = true /\
  backup_name_pattern
    (generateBackupFilename "2024-01-01T02:00:00.000Z" "my.db" "sql") = false.
Proof.
  split.
  - apply (generated_name_validates "2024-01-01T02:00:00.000Z" "app" "sql" eq_refl).
    reflexivity.
  - destruct (backup_name_pattern
                (generateBackupFilename "2024-01-01T02:00:00.000Z" "my.db" "sql")) eqn:E;
      [|reflexivity].
    apply (generated_name_validates "2024-01-01T02:00:00.000Z" "my.db" "sql" eq_refl) in E.
    discriminate E.
Defined.

(** * Further properties: creation and deletion in the directory *)

Lemma take_until_sep_app (x y : string) :
  has_sep x = false -> Path.take_until_sep (x ++ String Path.sep y) = x.
Proof.
  induction x as [|c x IH]; cbn [append has_sep Path.take_until_sep]; intros H.
  - rewrite Ascii.eqb_refl. reflexivity.
  - apply orb_false_iff in H as [Hc Hx]. rewrite Hc, (IH Hx). reflexivity.
Qed.

Lemma basename_after_sep (a n : string) :
  n <> "" -> has_sep n = false -> Path.basename ((a ++ "/") ++ n) = n.
Proof.
  intros Hne Hs. unfold Path.basename.
  rewrite !string_rev_app.
  change (JS.string_rev "/") with (String Path.sep "").
  change (String Path.sep "" ++ JS.string_rev a)%string
    with (String Path.sep (JS.string_rev a)).
  destruct (rev_last_char n Hne Hs) as (c & r & Hrev & Hc).
  assert (Hdrop : forall y, Path.drop_trailing_seps (JS.string_rev n ++ y)
                            = (JS.string_rev n ++ y)%string).
  { intros y. rewrite Hrev. cbn [append Path.drop_trailing_seps]. rewrite Hc.
    reflexivity. }
  rewrite Hdrop, take_until_sep_app by (rewrite has_sep_rev; exact Hs).
  apply string_rev_involutive.
Qed.

Lemma concat_dirs_shape (l : list string) :
  l <> [] ->
  exists a, String.concat "" (map (fun s => (s ++ "/")%string) l) = (a ++ "/")%string.
Proof.
  induction l as [|x l IH]; intros H; [elim H; reflexivity|].
  cbn [map]. rewrite concat_empty_cons.
  destruct l as [|y l].
  - exists x. cbn [map String.concat]. rewrite append_empty_r. reflexivity.
  - destruct IH as (a & Ha); [discriminate|]. rewrite Ha.
    exists ((x ++ "/") ++ a)%string. rewrite !append_assoc. reflexivity.
Qed.

Lemma dir_base_shape (dir : string) :
  dir_base dir = "" \/ exists a, dir_base dir = (a ++ "/")%string.
Proof.
  unfold dir_base. destruct (Path.segments dir) as [|x l] eqn:E.
  - cbn [map String.concat]. destruct (Path.isAbsolute dir); [right; exists ""|left];
      reflexivity.
  - right. destruct (concat_dirs_shape (x :: l)) as (a & Ha); [discriminate|].
    rewrite Ha. eexists. rewrite <- append_assoc. reflexivity.
Qed.

Lemma basename_join (dir n : string) :
  valid_name n = true -> Path.basename (Path.join dir n) = n.
Proof.
  intros Hv. rewrite (join_valid_name dir n Hv).
  destruct (dir_base_shape dir) as [-> | (a & ->)].
  - apply basename_no_sep, valid_name_no_sep, Hv.
  - apply basename_after_sep;
      [apply valid_name_not_empty|apply valid_name_no_sep]; exact Hv.
Qed.

Lemma find_put_file (dir p : string) (entry : LocalFile) (l : list LocalFile) :
  file_at dir p entry = true ->
  (forall g, In g l -> file_at dir p g = true -> name g = name entry) ->
  find (file_at dir p) (put_file entry l) = Some entry.
Proof.
  intros He. induction l as [|g l IH]; intros H; cbn [put_file find].
  - rewrite He. reflexivity.
  - destruct (name g =? name entry) eqn:E; cbn [find].
    + rewrite He. reflexivity.
    + destruct (file_at dir p g) eqn:Hg.
      * apply H in Hg; [|left; reflexivity]. apply String.eqb_neq in E. elim E; exact Hg.
      * apply IH. intros g' Hin. apply H. right; exact Hin.
Qed.

Lemma In_put_file (entry : LocalFile) (l : list LocalFile) : In entry (put_file entry l).
Proof.
  induction l as [|g l IH]; cbn [put_file]; [left; reflexivity|].
  destruct (name g =? name entry); [left; reflexivity|right; exact IH].
Qed.

Lemma names_put_file (entry : LocalFile) (l : list LocalFile) :
  map name (put_file entry l) =
  if mem (name entry) (map name l) then map name l else map name l ++ [name entry].
Proof.
  induction l as [|g l IH]; [reflexivity|].
  cbn [put_file map mem existsb]. fold (mem (name entry) (map name l)).
  rewrite (String.eqb_sym (name entry) (name g)).
  destruct (name g =? name entry) eqn:E; cbn [orb map].
  - apply String.eqb_eq in E. rewrite E. reflexivity.
  - rewrite IH. destruct (mem (name entry) (map name l)); reflexivity.
Qed.

Lemma NoDup_put_file (entry : LocalFile) (l : list LocalFile) :
  NoDup (map name l) -> NoDup (map name (put_file entry l)).
Proof.
  intros H. rewrite names_put_file.
  destruct (mem (name entry) (map name l)) eqn:E; [exact H|].
  apply NoDup_snoc; [exact H|]. apply mem_not_In; exact E.
Qed.

Lemma map_set_In_same (k : string) (v : Backup) (m : BackupMap) :
  In (k, v) (map_set k v m).
Proof.
  induction m as [|[k' v'] m IH]; cbn [map_set]; [left; reflexivity|].
  destruct (k' =? k); [left; reflexivity|right; exact IH].
Qed.

Lemma map_set_In_other (k : string) (v : Backup) (m : BackupMap) (e : string * Backup) :
  fst e <> k -> In e m -> In e (map_set k v m).
Proof.
  intros Hne. induction m as [|[k' v'] m IH]; cbn [map_set]; intros H; [contradiction|].
  destruct (k' =? k) eqn:E.
  - destruct H as [<-|H]; [|right; exact H].
    apply String.eqb_eq in E. elim Hne; exact E.
  - destruct H as [H|H]; [left; exact H|right; exact (IH H)].
Qed.

(** An entry of the local listing keeps its data under every remote
    listing. *)
Lemma merge_keeps_local (l r : list Backup) (x : Backup) :
  NoDup (names l) -> In x l ->
  exists a, In a (mergeBackups l r) /\
            filename a = filename x /\ size a = size x /\ date a = date x /\
            local_side a = true.
Proof.
  intros Hl Hx.
  set (good := fun v : Backup => size v = size x /\ date v = date x /\ local_side v = true).
  assert (Hstart : NoDup (keys (merge_local l [])) /\
                   exists v, In (filename x, v) (merge_local l []) /\ good v).
  { split; [apply merge_local_NoDup; constructor|].
    rewrite (merge_local_distinct l []) by exact Hl. cbn [app].
    exists (with_location local x). split; [|repeat split].
    change (filename x, with_location local x) with (local_entry x).
    apply in_map; exact Hx. }
  assert (Hend : forall m, NoDup (keys m) /\ (exists v, In (filename x, v) m /\ good v) ->
                 NoDup (keys (merge_remote r m)) /\
                 exists v, In (filename x, v) (merge_remote r m) /\ good v).
  { induction r as [|b r IH]; intros m Hm; [exact Hm|].
    change (merge_remote (b :: r) m) with (merge_remote r (merge_remote_step m b)).
    apply IH. destruct Hm as (Hnd & v & Hv & Hgood).
    split; [apply merge_remote_step_NoDup; exact Hnd|].
    unfold merge_remote_step.
    destruct (map_has (filename b) m) eqn:Hhas.
    - assert (Hin : In (filename b) (keys m))
        by (apply mem_In; rewrite <- map_has_mem; exact Hhas).
      destruct (map_get_In _ _ Hin) as (existing & -> & Hex).
      destruct (String.eqb_spec (filename b) (filename x)) as [E|E].
      + rewrite E in *. rewrite (NoDup_keys_functional m _ _ _ Hnd Hex Hv).
        exists (with_location both v). split; [apply map_set_In_same|].
        destruct Hgood as (H1 & H2 & _). repeat split; assumption.
      + exists v. split; [|exact Hgood].
        apply map_set_In_other; [|exact Hv]. cbn [fst]. congruence.
    - exists v. split; [|exact Hgood].
      apply map_set_In_other; [|exact Hv]. cbn [fst]. intros E.
      rewrite map_has_mem in Hhas. apply mem_not_In in Hhas. apply Hhas.
      rewrite <- E. change (filename x) with (fst (filename x, v)).
      apply in_map; exact Hv. }
  destruct (Hend _ Hstart) as (_ & v & Hv & Hs & Hd & Hside).
  destruct (merged_map_invariants l r) as (Hkeyed & _ & _).
  exists v. split.
  - unfold mergeBackups. apply sort_by_date_desc_In.
    change v with (snd (filename x, v)). apply in_map. exact Hv.
  - split; [exact (Hkeyed _ _ Hv)|]. repeat split; assumption.
Qed.

Lemma has_sep_replace_all (c : ascii) (s : string) :
  has_sep s = false -> has_sep (JS.replace_all c "-" s) = false.
Proof.
  induction s as [|x s IH]; [reflexivity|].
  cbn [has_sep JS.replace_all]. intros H. apply orb_false_iff in H as [Hx Hs].
  rewrite (IH Hs). destruct (Ascii.eqb x c); [reflexivity|].
  rewrite Hx. reflexivity.
Qed.

Lemma generated_name_valid (iso database format : string) :
  has_sep iso = false -> has_sep database = false ->
  let created := generateBackupFilename iso database format in
  valid_name created = true /\
  JS.endsWith created ".sql" || JS.endsWith created ".dump" = true.
Proof.
  intros Hiso Hdb. unfold generateBackupFilename. cbv zeta.
  set (ts := JS.replace_all "." "-" (JS.replace_all ":" "-" iso)).
  assert (Hts : has_sep ts = false) by (unfold ts; now do 2 apply has_sep_replace_all).
  split.
  - unfold valid_name. rewrite !has_sep_app, Hdb, Hts.
    destruct (format =? "dump"); reflexivity.
  - destruct (format =? "dump").
    + change ("backup_" ++ database ++ "_" ++ ts ++ "." ++ "dump")%string
        with ("backup_" ++ database ++ "_" ++ ts ++ ".dump")%string.
      rewrite <- !append_assoc, endsWith_app. apply orb_true_r.
    + change ("backup_" ++ database ++ "_" ++ ts ++ "." ++ "sql")%string
        with ("backup_" ++ database ++ "_" ++ ts ++ ".sql")%string.
      rewrite <- !append_assoc, endsWith_app. reflexivity.
Qed.

Lemma createBackup_done (pg_dump : DumpRequest -> DumpOutcome) (now : Z)
    (iso : string) (format : option string) (w : World)
    (dbConfig : Config.DatabaseConfig) (written : Z) :
  let backupFormat := backup_format format w in
  let dir := Config.localPath (backupConfig w) in
  let created := generateBackupFilename iso (Config.database dbConfig) backupFormat in
  let filepath := Path.join dir created in
  Config.getDatabaseConfig (store w) = Ok dbConfig ->
  has_sep (Config.database dbConfig) = false ->
  has_sep iso = false ->
  pg_dump (dump_request dbConfig backupFormat filepath) = DumpDone written ->
  Forall (fun g => valid_name (name g) = true) (files w) ->
  createBackup pg_dump now iso format w =
    (Ok {| result_filename := created; result_path := filepath;
           result_size := written; result_format := backupFormat |},
     set_files (put_file {| name := created; file_size := written; mtime := now |}
                         (files w)) w).
Proof.
  intros backupFormat dir created filepath Hdb Hsep Hiso Hdump Hvalid.
  destruct (generated_name_valid iso (Config.database dbConfig) backupFormat Hiso Hsep)
    as [Hname _]. fold created in Hname.
  unfold createBackup. rewrite Hdb.
  fold backupFormat. fold created. fold dir. fold filepath.
  unfold try_catch at 1. unfold bind at 1. unfold bind at 1.
  unfold exec_pg_dump. rewrite Hdump.
  change (dump_output (dump_request dbConfig backupFormat filepath)) with filepath.
  unfold fs_write. fold dir.
  assert (Hbase : Path.basename filepath = created) by (apply basename_join; exact Hname).
  rewrite Hbase.
  set (entry := {| name := created; file_size := written; mtime := now |}).
  assert (Hat : file_at dir filepath entry = true) by (apply String.eqb_refl).
  rewrite Hat. unfold bind at 1. unfold fs_stat.
  change (Config.localPath (backupConfig (set_files (put_file entry (files w)) w)))
    with dir.
  change (files (set_files (put_file entry (files w)) w)) with (put_file entry (files w)).
  rewrite (find_put_file dir filepath entry (files w) Hat).
  - reflexivity.
  - intros g Hg Hgat. rewrite Forall_forall in Hvalid.
    unfold file_at in Hgat. apply String.eqb_eq in Hgat.
    apply (join_valid_name_inj dir); [apply Hvalid; exact Hg|exact Hname|exact Hgat].
Qed.

(** X18: a creation that succeeds is listed.  When [pg_dump] writes its
    output (for a database name and a time stamp without a slash, in a
    directory with proper, pairwise distinct entry names), [createBackup]
    returns the generated file name, the path of that entry and the size
    written, the directory gains or replaces the entry of that name and
    nothing else changes; with a storage mode that includes the directory
    the next [listAllBackups] reports an artifact with this file name,
    size and time on the local side, whatever the bucket lists. *)
Theorem createBackup_is_listed (pg_dump : DumpRequest -> DumpOutcome) (now : Z)
    (iso : string) (format : option string) (w : World)
    (dbConfig : Config.DatabaseConfig) (written : Z) :
  let backupFormat := backup_format format w in
  let dir := Config.localPath (backupConfig w) in
  let created := generateBackupFilename iso (Config.database dbConfig) backupFormat in
  let filepath := Path.join dir created in
  Config.getDatabaseConfig (store w) = Ok dbConfig ->
  has_sep (Config.database dbConfig) = false ->
  has_sep iso = false ->
  pg_dump (dump_request dbConfig backupFormat filepath) = DumpDone written ->
  Forall (fun g => valid_name (name g) = true) (files w) ->
  NoDup (map name (files w)) ->
  exists w1,
    createBackup pg_dump now iso format w =
      (Ok {| result_filename := created; result_path := filepath;
             result_size := written; result_format := backupFormat |}, w1) /\
    files w1 = put_file {| name := created; file_size := written; mtime := now |}
                        (files w) /\
    store w1 = store w /\ objects w1 = objects w /\
    s3_faults w1 = s3_faults w /\ logs w1 = logs w /\
    (local_gate w = true ->
     forall all w2, listAllBackups w1 = (Ok all, w2) ->
       exists a, In a all /\ filename a = created /\ size a = written /\
                 date a = now /\ local_side a = true).
Proof.
  intros backupFormat dir created filepath Hdb Hsep Hiso Hdump Hvalid Hnd.
  pose proof (createBackup_done pg_dump now iso format w dbConfig written
                Hdb Hsep Hiso Hdump Hvalid) as Hrun.
  cbv zeta in Hrun. fold backupFormat dir created filepath in Hrun.
  set (entry := {| name := created; file_size := written; mtime := now |}) in *.
  exists (set_files (put_file entry (files w)) w).
  split; [exact Hrun|]. repeat (split; [reflexivity|]).
  intros Hgate all w2 Hall.
  set (w1 := set_files (put_file entry (files w)) w) in *.
  destruct (listAllBackups_spec w1) as (r & w2' & Hall' & _).
  rewrite Hall' in Hall. injection Hall as <- _.
  destruct (generated_name_valid iso (Config.database dbConfig) backupFormat Hiso Hsep)
    as [_ Hext]. fold created in Hext.
  destruct (merge_keeps_local (fetch_local w1) r (to_local entry)) as (a & Ha & Hf & Hs & Hd & Hside).
  - apply NoDup_names_fetch_local. apply NoDup_put_file. exact Hnd.
  - apply In_fetch_local. split; [exact Hgate|].
    exists entry. split; [apply In_put_file|]. split; [exact Hext|reflexivity].
  - exists a. repeat split; assumption.
Qed.

Lemma createBackup_is_listed_witness :
  exists r w1 all,
    createBackup done_pg_dump 5000 "2024-01-01T02:00:00.000Z" None
      (world_of "local" [file_a] [] []) = (Ok r, w1) /\
    result_filename r = "backup_postgres_2024-01-01T02-00-00-000Z.sql" /\
    result_size r = 2048%Z /\
    fst (listAllBackups w1) = Ok all /\
    In "backup_postgres_2024-01-01T02-00-00-000Z.sql" (names all).
Proof.
  destruct (createBackup_is_listed done_pg_dump 5000 "2024-01-01T02:00:00.000Z" None
              (world_of "local" [file_a] [] []) _ 2048 eq_refl eq_refl eq_refl eq_refl)
    as (w1 & Hrun & _ & _ & _ & _ & _ & Hlisted).
  - repeat constructor.
  - simpl. distinct_strings.
  - destruct (listAllBackups_returns w1) as (all & w2 & Hall).
    destruct (Hlisted eq_refl all w2 Hall) as (a & Ha & Hf & _).
    eexists _, w1, all. split; [exact Hrun|].
    split; [reflexivity|]. split; [reflexivity|].
    split; [rewrite Hall; reflexivity|].
    apply in_map_iff. exists a. split; [exact Hf|exact Ha].
Defined.

Lemma file_at_name (dir n : string) (g : LocalFile) :
  valid_name (name g) = true -> valid_name n = true ->
  file_at dir (Path.join dir n) g = (name g =? n).
Proof.
  intros Hg Hn. unfold file_at. apply eq_true_iff_eq.
  rewrite !String.eqb_eq. split.
  - apply join_valid_name_inj; assumption.
  - intros ->. reflexivity.
Qed.

Lemma mem_names (n : string) (l : list LocalFile) :
  mem n (map name l) = existsb (fun g => name g =? n) l.
Proof.
  induction l as [|g l IH]; [reflexivity|].
  cbn [map mem existsb]. fold (mem n (map name l)).
  rewrite IH, (String.eqb_sym n). reflexivity.
Qed.

Lemma filter_map_commute {A B} (f : A -> B) (p : B -> bool) (l : list A) :
  filter p (map f l) = map f (filter (fun x => p (f x)) l).
Proof.
  induction l as [|x l IH]; [reflexivity|].
  cbn [map filter]. destruct (p (f x)); cbn [map]; rewrite IH; reflexivity.
Qed.

Lemma existsb_agree {A} (p q : A -> bool) (l : list A) :
  (forall x, In x l -> p x = q x) -> existsb p l = existsb q l.
Proof.
  induction l as [|x l IH]; intros H; [reflexivity|].
  cbn [existsb]. rewrite (H x (or_introl eq_refl)), IH; [reflexivity|].
  intros y Hy. apply H. right; exact Hy.
Qed.

(** X19: deletion and listing in the directory (with proper entry names).
    [deleteLocalBackup] looks at the base name of its argument only: when
    the directory has an entry of that name, the entry is removed, the
    local listing loses exactly the artifact of that name, and the bucket,
    the configuration and the log are untouched; when it has none, the
    call throws the local-deletion error and changes nothing. *)
Theorem deleteLocalBackup_then_list (f : string) (w : World) :
  Forall (fun g => valid_name (name g) = true) (files w) ->
  valid_name (Path.basename f) = true ->
  if mem (Path.basename f) (map name (files w))
  then exists w',
      deleteLocalBackup f w = (Ok true, w') /\
      files w' = filter (fun g => negb (name g =? Path.basename f)) (files w) /\
      listLocalBackups w' =
        filter (fun b => negb (filename b =? Path.basename f)) (listLocalBackups w) /\
      store w' = store w /\ objects w' = objects w /\
      s3_faults w' = s3_faults w /\ logs w' = logs w
  else exists reason, deleteLocalBackup f w = (Throw (LocalDeleteFailed reason), w).
Proof.
  intros Hvalid Hn. rewrite Forall_forall in Hvalid.
  rewrite deleteLocalBackup_spec. cbv zeta.
  set (dir := Config.localPath (backupConfig w)).
  set (n := Path.basename f) in *.
  assert (Hex : existsb (file_at dir (Path.join dir n)) (files w) =
                mem n (map name (files w))).
  { rewrite mem_names. apply existsb_agree.
    intros g Hg. apply file_at_name; [apply Hvalid; exact Hg|exact Hn]. }
  assert (Hfil : filter (fun g => negb (file_at dir (Path.join dir n) g)) (files w) =
                 filter (fun g => negb (name g =? n)) (files w)).
  { apply filter_ext_in. intros g Hg.
    rewrite file_at_name; [reflexivity|apply Hvalid; exact Hg|exact Hn]. }
  rewrite Hex. destruct (mem n (map name (files w))).
  - eexists. split; [reflexivity|]. cbn [files store objects s3_faults logs set_files].
    split; [exact Hfil|]. split; [|repeat split].
    unfold listLocalBackups. cbn [files set_files]. rewrite Hfil.
    rewrite filter_map_commute. f_equal.
    rewrite !filter_filter. apply filter_ext. intros g.
    cbn [filename to_local]. apply andb_comm.
  - eexists. reflexivity.
Qed.

Lemma deleteLocalBackup_then_list_witness :
  exists w',
    deleteLocalBackup "../../tmp/backup_a.sql" (world_of "local" [file_a; file_b] [] [])
      = (Ok true, w') /\
    names (listLocalBackups w') = ["backup_b.sql"].
Proof.
  pose proof (deleteLocalBackup_then_list "../../tmp/backup_a.sql"
                (world_of "local" [file_a; file_b] [] [])) as H.
  change (mem (Path.basename "../../tmp/backup_a.sql")
              (map name (files (world_of "local" [file_a; file_b] [] [])))) with true in H.
  destruct H as (w' & Hrun & _ & Hlist & _).
  - repeat constructor.
  - reflexivity.
  - exists w'. split; [exact Hrun|]. rewrite Hlist. reflexivity.
Defined.

(** * Further properties: the bucket *)

Lemma In_insert_by_key (o x : S3Object) (l : list S3Object) :
  In o (insert_by_key x l) <-> o = x \/ In o l.
Proof.
  induction l as [|y l IH]; cbn [insert_by_key]; [simpl; intuition congruence|].
  destruct (String.ltb (Key y) (Key x)); simpl in *; intuition congruence.
Qed.

Lemma insert_by_key_perm (x : S3Object) (l : list S3Object) :
  Permutation (insert_by_key x l) (x :: l).
Proof.
  induction l as [|y l IH]; cbn [insert_by_key]; [apply Permutation_refl|].
  destruct (String.ltb (Key y) (Key x)); [|apply Permutation_refl].
  apply perm_trans with (y :: x :: l); [apply perm_skip; exact IH|apply perm_swap].
Qed.

Lemma In_put_object (o x : S3Object) (l : list S3Object) :
  In o (put_object x l) <-> o = x \/ (In o l /\ Key o <> Key x).
Proof.
  unfold put_object. rewrite In_insert_by_key, filter_In, negb_true_iff, String.eqb_neq.
  tauto.
Qed.

Lemma NoDup_put_object (x : S3Object) (l : list S3Object) :
  NoDup (map Key l) -> NoDup (map Key (put_object x l)).
Proof.
  intros H. unfold put_object.
  apply (Permutation_NoDup
           (Permutation_sym (Permutation_map Key (insert_by_key_perm x _)))).
  cbn [map]. constructor.
  - rewrite in_map_iff. intros (o & Hk & Ho). apply filter_In in Ho as [_ Ho].
    rewrite Hk, String.eqb_refl in Ho. discriminate Ho.
  - apply NoDup_map_filter. exact H.
Qed.

Lemma find_put_object (x : S3Object) (l : list S3Object) :
  find (fun o => Key o =? Key x) (put_object x l) = Some x.
Proof.
  unfold put_object.
  assert (H : Forall (fun o => (Key o =? Key x) = false)
                     (filter (fun o => negb (Key o =? Key x)) l)).
  { apply Forall_forall. intros o Ho. apply filter_In in Ho as [_ Ho].
    apply negb_true_iff. exact Ho. }
  induction H as [|y r Hy _ IH]; cbn [insert_by_key find].
  - rewrite String.eqb_refl. reflexivity.
  - destruct (String.ltb (Key y) (Key x)); cbn [find].
    + rewrite Hy. exact IH.
    + rewrite String.eqb_refl. reflexivity.
Qed.

Lemma filter_put_object (x : S3Object) (l : list S3Object) :
  filter (fun o => negb (Key o =? Key x)) (put_object x l) =
  filter (fun o => negb (Key o =? Key x)) l.
Proof.
  unfold put_object.
  set (keep := fun o => negb (Key o =? Key x)).
  assert (H : forall r, filter keep (insert_by_key x r) = filter keep r).
  { induction r as [|y r IH]; cbn [insert_by_key filter].
    - unfold keep. rewrite String.eqb_refl. reflexivity.
    - destruct (String.ltb (Key y) (Key x)); cbn [filter].
      + rewrite IH. reflexivity.
      + unfold keep at 1. rewrite String.eqb_refl. reflexivity. }
  rewrite H, filter_filter. apply filter_ext. intros o. apply andb_diag.
Qed.

Lemma is_prefix_app_same (p a b : string) :
  JS.is_prefix (p ++ a) (p ++ b) = JS.is_prefix a b.
Proof.
  induction p as [|c p IH]; [reflexivity|].
  cbn [append JS.is_prefix]. rewrite Ascii.eqb_refl. exact IH.
Qed.

Lemma key_prefix_shape (w : World) :
  key_prefix w = "" \/ exists a, key_prefix w = (a ++ "/")%string.
Proof.
  unfold key_prefix. destruct (Config.prefix (s3Config w) =? ""); [left|right; eexists];
    reflexivity.
Qed.

Lemma basename_key (w : World) (f : string) :
  f <> "" -> has_sep f = false -> Path.basename (key_prefix w ++ f) = f.
Proof.
  intros Hne Hs. destruct (key_prefix_shape w) as [-> | (a & ->)].
  - apply basename_no_sep; exact Hs.
  - apply basename_after_sep; assumption.
Qed.

Lemma uploadToS3_spec (time : Z) (filepath f : string) (w : World) :
  uploadToS3 time filepath f w =
  if negb (isS3Configured w) then (Throw S3NotConfigured, w)
  else match find (file_at (Config.localPath (backupConfig w)) filepath) (files w) with
       | None =>
           (Throw (SystemError ("ENOENT: no such file or directory, open '"
                                ++ filepath ++ "'")), w)
       | Some g =>
           let o := {| Key := key_prefix w ++ f; Size := file_size g;
                       LastModified := time |} in
           match s3_faults w with
           | Some reason :: rest =>
               (Throw (with_message ("S3 upload failed: " ++ reason)), set_faults rest w)
           | None :: rest =>
               (Ok true, set_objects (put_object o (objects w)) (set_faults rest w))
           | [] => (Ok true, set_objects (put_object o (objects w)) w)
           end
       end.
Proof.
  unfold uploadToS3. destruct (negb (isS3Configured w)); [reflexivity|].
  unfold bind at 1. unfold fs_readFile.
  destruct (find _ (files w)) as [g|]; [|reflexivity].
  unfold_m. destruct (s3_faults w) as [|[reason|] rest]; reflexivity.
Qed.

Lemma listS3Backups_no_faults (w : World) :
  isS3Configured w = true -> s3_faults w = [] ->
  listS3Backups w =
    (Ok (map to_remote (first_page (filter (listed w) (objects w)))), w).
Proof.
  intros Hc Hf. unfold listS3Backups. rewrite Hc. cbn [negb]. unfold_m.
  rewrite Hf. reflexivity.
Qed.

Lemma filter_twice_length {A} (p q : A -> bool) (l : list A) :
  (length (filter p (filter q l)) <= length (filter p l))%nat.
Proof.
  induction l as [|x l IH]; [apply le_n|].
  cbn [filter]. destruct (q x), (p x) eqn:E; cbn [filter length];
    rewrite ?E; cbn [length]; lia.
Qed.

(** A put adds at most one key to a page. *)
Lemma put_object_page (x : S3Object) (l : list S3Object) (p : S3Object -> bool) :
  (length (filter p (put_object x l)) <= S (length (filter p l)))%nat.
Proof.
  unfold put_object.
  set (rest := filter (fun o => negb (Key o =? Key x)) l).
  assert (Hperm : Permutation (filter p (insert_by_key x rest)) (filter p (x :: rest))).
  { clear. induction rest as [|y r IH]; cbn [insert_by_key]; [apply Permutation_refl|].
    destruct (String.ltb (Key y) (Key x)); [|apply Permutation_refl].
    cbn [filter] in *. destruct (p y), (p x); try exact IH.
    - apply perm_trans with (y :: x :: filter p r);
        [apply perm_skip; exact IH|apply perm_swap].
    - apply perm_skip; exact IH. }
  rewrite (Permutation_length Hperm). cbn [filter].
  pose proof (filter_twice_length p (fun o => negb (Key o =? Key x)) l) as H.
  fold rest in H. destruct (p x); cbn [length]; lia.
Qed.

(** X20: an upload is listed.  With S3 configured, the file at [filepath]
    present and no request failing, [uploadToS3] stores the content under
    the key made of the prefix and the file name, replacing the object of
    that key and no other; the directory, the configuration and the log
    are untouched.  For a file name that starts with [backup_] and has no
    slash, in a bucket that held fewer keys under the search prefix than a
    page of [listObjectsV2] takes, the next [listS3Backups] reports the
    artifact with that file name, the size of the file and the time of
    the upload; the keys still fit in one page, and a well-formed world
    stays well-formed. *)
Theorem uploadToS3_then_list (time : Z) (filepath f : string) (w : World)
    (g : LocalFile) :
  isS3Configured w = true ->
  find (file_at (Config.localPath (backupConfig w)) filepath) (files w) = Some g ->
  s3_faults w = [] ->
  JS.startsWith f "backup_" = true ->
  has_sep f = false ->
  (length (filter (listed w) (objects w)) < 1000)%nat ->
  let stored := {| Key := key_prefix w ++ f; Size := file_size g;
                   LastModified := time |} in
  exists w1,
    uploadToS3 time filepath f w = (Ok true, w1) /\
    (forall o, In o (objects w1) <->
               o = stored \/ (In o (objects w) /\ Key o <> Key stored)) /\
    files w1 = files w /\ store w1 = store w /\ logs w1 = logs w /\
    s3_faults w1 = [] /\
    (exists l, listS3Backups w1 = (Ok l, w1) /\
               In {| filename := f; size := file_size g; date := time;
                     location := remote; format := None |} l) /\
    one_page w1 /\
    (well_formed w -> well_formed w1).
Proof.
  intros Hc Hg Hf Hstart Hsep Hroom stored.
  assert (Hne : f <> "") by (intros ->; discriminate Hstart).
  set (w1 := set_objects (put_object stored (objects w)) w).
  exists w1.
  split; [rewrite uploadToS3_spec, Hc, Hg, Hf; reflexivity|].
  split; [intros o; apply In_put_object|].
  repeat (split; [first [reflexivity|exact Hf]|]).
  assert (Hlisted : listed w stored = true).
  { unfold listed, JS.startsWith. cbn [Key stored]. rewrite is_prefix_app_same.
    exact Hstart. }
  assert (Hpage : one_page w1).
  { unfold one_page. change (listed w1) with (listed w).
    change (objects w1) with (put_object stored (objects w)).
    pose proof (put_object_page stored (objects w) (listed w)) as H.
    change MaxKeys with 1000%nat. lia. }
  split; [|split; [exact Hpage|]].
  - exists (map to_remote (first_page (filter (listed w1) (objects w1)))).
    split; [apply listS3Backups_no_faults; [exact Hc|exact Hf]|].
    rewrite (first_page_all _ Hpage).
    apply in_map_iff. exists stored. split.
    + unfold to_remote. cbn [Key Size LastModified stored].
      rewrite (basename_key w f Hne Hsep). reflexivity.
    + apply filter_In. split; [|exact Hlisted].
      apply In_put_object. left; reflexivity.
  - intros (Hvalid & Hnd & Hkeys & Hflat).
    split; [exact Hvalid|]. split; [exact Hnd|].
    split; [apply NoDup_put_object; exact Hkeys|].
    intros o Ho Hl. apply In_put_object in Ho as [-> | [Ho _]].
    + cbn [Key stored]. change (key_prefix w1) with (key_prefix w).
      rewrite (basename_key w f Hne Hsep). reflexivity.
    + apply (Hflat o Ho Hl).
Qed.

Lemma uploadToS3_then_list_witness :
  exists w1 l,
    uploadToS3 7000 "backups/backup_a.sql" "backup_a.sql"
      (world_of "both" [file_a] [object_c] []) = (Ok true, w1) /\
    listS3Backups w1 = (Ok l, w1) /\
    names l = ["backup_a.sql"; "backup_c.dump"].
Proof.
  assert (Hroom : (length (filter (listed (world_of "both" [file_a] [object_c] []))
                             (objects (world_of "both" [file_a] [object_c] [])))
                   < 1000)%nat).
  { change (1 < 1000)%nat. lia. }
  destruct (uploadToS3_then_list 7000 "backups/backup_a.sql" "backup_a.sql"
              (world_of "both" [file_a] [object_c] []) file_a
              eq_refl eq_refl eq_refl eq_refl eq_refl Hroom)
    as (w1 & Hup & _ & _ & _ & _ & _ & (l & Hl & _) & _).
  exists w1, l. split; [exact Hup|]. split; [exact Hl|].
  injection Hup as <-. injection Hl as <-. reflexivity.
Defined.

(** X21: when [uploadToS3] throws, the bucket, the directory, the
    configuration and the log are as before, and it throws in three
    situations only: S3 is not configured (no request is sent), the file
    to upload does not exist (the error of the file system is passed on
    as it is, and no request is sent), or the store refuses the request
    (the message is [S3 upload failed: ] followed by the reason). *)
Theorem uploadToS3_failure (time : Z) (filepath f : string) (w w' : World)
    (e : Error) :
  uploadToS3 time filepath f w = (Throw e, w') ->
  objects w' = objects w /\ files w' = files w /\
  store w' = store w /\ logs w' = logs w /\
  ((e = S3NotConfigured /\ isS3Configured w = false /\ w' = w) \/
   (e = SystemError ("ENOENT: no such file or directory, open '" ++ filepath ++ "'") /\
    isS3Configured w = true /\ w' = w /\
    find (file_at (Config.localPath (backupConfig w)) filepath) (files w) = None) \/
   (exists reason,
      message e = ("S3 upload failed: " ++ reason)%string /\
      isS3Configured w = true /\
      s3_faults w = Some reason :: s3_faults w')).
Proof.
  rewrite uploadToS3_spec.
  destruct (isS3Configured w) eqn:Hc; cbn [negb].
  - destruct (find _ (files w)) as [g|] eqn:Hg.
    + cbv zeta. destruct (s3_faults w) as [|[reason|] rest] eqn:Hf; intros [= <- <-].
      repeat (split; [reflexivity|]). right. right.
      exists reason. repeat split.
    + intros [= <- <-]. repeat (split; [reflexivity|]). right. left. repeat split.
  - intros [= <- <-]. repeat (split; [reflexivity|]). left. repeat split.
Qed.

Lemma uploadToS3_failure_witness :
  exists e w',
    uploadToS3 7000 "backups/backup_a.sql" "backup_a.sql"
      (world_of "both" [file_a] [object_c] [Some "AccessDenied"]) = (Throw e, w') /\
    message e = "S3 upload failed: AccessDenied" /\
    objects w' = [object_c].
Proof.
  destruct (uploadToS3 7000 "backups/backup_a.sql" "backup_a.sql"
              (world_of "both" [file_a] [object_c] [Some "AccessDenied"]))
    as [[b|e] w'] eqn:Hrun.
  - vm_compute in Hrun. discriminate Hrun.
  - exists e, w'. split; [reflexivity|].
    destruct (uploadToS3_failure _ _ _ _ _ _ Hrun) as (Ho & _).
    split; [|exact Ho].
    vm_compute in Hrun. injection Hrun as <- _. reflexivity.
Defined.

Lemma filter_negb_all {A} (p : A -> bool) (l : list A) :
  existsb p l = false -> filter (fun x => negb (p x)) l = l.
Proof.
  induction l as [|x l IH]; [reflexivity|].
  cbn [existsb filter]. intros H. apply orb_false_iff in H as [Hx Hl].
  rewrite Hx, (IH Hl). reflexivity.
Qed.

Lemma find_none {A} (p : A -> bool) (l : list A) :
  existsb p l = false -> find p l = None.
Proof.
  induction l as [|x l IH]; [reflexivity|].
  cbn [existsb find]. intros H. apply orb_false_iff in H as [Hx Hl].
  rewrite Hx. exact (IH Hl).
Qed.

(** X22: with S3 configured and no request failing, [deleteFromS3]
    removes the object stored under the prefix followed by the file name
    and no other object, and touches nothing else; deleting a key that the
    bucket does not hold succeeds and changes nothing; and deleting after
    an upload of the same file name gives the bucket that deleting alone
    gives. *)
Theorem deleteFromS3_removes_key (f : string) (w : World) :
  isS3Configured w = true ->
  s3_faults w = [] ->
  let key := (key_prefix w ++ f)%string in
  exists w2,
    deleteFromS3 f w = (Ok true, w2) /\
    objects w2 = filter (fun o => negb (Key o =? key)) (objects w) /\
    has_object key w2 = false /\
    files w2 = files w /\ store w2 = store w /\ logs w2 = logs w /\
    (has_object key w = false -> w2 = w) /\
    (forall time filepath w1,
       uploadToS3 time filepath f w = (Ok true, w1) ->
       exists w3, deleteFromS3 f w1 = (Ok true, w3) /\ objects w3 = objects w2).
Proof.
  intros Hc Hf key.
  exists (set_objects (filter (fun o => negb (Key o =? key)) (objects w)) w).
  split; [rewrite deleteFromS3_spec, Hc, Hf; reflexivity|].
  split; [reflexivity|].
  split; [apply (existsb_filter_negb (fun o => Key o =? key))|].
  repeat (split; [reflexivity|]).
  split.
  - intros Hno. apply World_ext; try reflexivity.
    cbn [objects set_objects]. apply (filter_negb_all (fun o => Key o =? key)). exact Hno.
  - intros time filepath w1. rewrite uploadToS3_spec, Hc, Hf. cbn [negb].
    destruct (find _ (files w)) as [g|]; [|discriminate].
    cbv zeta. intros [= <-].
    eexists. split.
    + rewrite deleteFromS3_spec. change (isS3Configured (set_objects _ w))
        with (isS3Configured w). rewrite Hc. cbn [negb s3_faults set_objects].
      rewrite Hf. reflexivity.
    + cbn [objects set_objects]. change (key_prefix (set_objects _ w)) with (key_prefix w).
      apply (filter_put_object {| Key := key; Size := file_size g;
                                  LastModified := time |}).
Qed.

Lemma deleteFromS3_removes_key_witness :
  exists w2,
    deleteFromS3 "backup_c.dump" (world_of "both" [] [object_b; object_c] [])
      = (Ok true, w2) /\
    objects w2 = [object_b].
Proof.
  destruct (deleteFromS3_removes_key "backup_c.dump"
              (world_of "both" [] [object_b; object_c] []) eq_refl eq_refl)
    as (w2 & Hrun & Ho & _).
  exists w2. split; [exact Hrun|]. rewrite Ho. reflexivity.
Defined.

Lemma downloadFromS3_spec (time : Z) (f destinationPath : string) (w : World) :
  downloadFromS3 time f destinationPath w =
  if negb (isS3Configured w) then (Throw S3NotConfigured, w)
  else match s3_faults w with
       | Some reason :: rest =>
           (Throw (with_message ("S3 download failed: " ++ reason)), set_faults rest w)
       | faults =>
           let w' := set_faults (tl faults) w in
           match find (fun o => Key o =? key_prefix w ++ f) (objects w) with
           | Some data => (fs_write destinationPath (Size data) time ;;; ret true) w'
           | None =>
               (Throw (with_message
                         "S3 download failed: The specified key does not exist."), w')
           end
       end.
Proof.
  unfold downloadFromS3. destruct (negb (isS3Configured w)); [reflexivity|].
  unfold bind at 1. unfold s3_request.
  destruct (s3_faults w) as [|[reason|] rest] eqn:Hf; try reflexivity.
  cbv zeta. cbn [tl].
  replace (set_faults [] w) with w; [reflexivity|].
  apply World_ext; try reflexivity. exact Hf.
Qed.

(** X23: upload and download are inverse on the content.  With S3
    configured and no request failing, a file uploaded under a file name
    and downloaded again under that name to the path of an entry of the
    backup directory arrives there with the size it was uploaded with, the
    bucket being unchanged by the download; a download of a file name that
    the bucket does not hold throws and writes nothing. *)
Theorem upload_download_round_trip (t1 t2 : Z) (filepath f n : string)
    (w : World) (g : LocalFile) :
  let dir := Config.localPath (backupConfig w) in
  isS3Configured w = true ->
  find (file_at dir filepath) (files w) = Some g ->
  s3_faults w = [] ->
  valid_name n = true ->
  (exists w1 w2,
     uploadToS3 t1 filepath f w = (Ok true, w1) /\
     downloadFromS3 t2 f (Path.join dir n) w1 = (Ok true, w2) /\
     files w2 = put_file {| name := n; file_size := file_size g; mtime := t2 |}
                         (files w) /\
     objects w2 = objects w1) /\
  (forall f', has_object (key_prefix w ++ f') w = false ->
     exists e, downloadFromS3 t2 f' (Path.join dir n) w = (Throw e, w) /\
               message e = "S3 download failed: The specified key does not exist.").
Proof.
  intros dir Hc Hg Hf Hn. split.
  - set (stored := {| Key := key_prefix w ++ f; Size := file_size g;
                      LastModified := t1 |}).
    set (w1 := set_objects (put_object stored (objects w)) w).
    exists w1. eexists. split; [rewrite uploadToS3_spec, Hc; fold dir; rewrite Hg, Hf; reflexivity|].
    rewrite downloadFromS3_spec.
    change (isS3Configured w1) with (isS3Configured w). rewrite Hc. cbn [negb].
    change (s3_faults w1) with (s3_faults w). rewrite Hf. cbv zeta. cbn [tl].
    change (objects w1) with (put_object stored (objects w)).
    change (key_prefix w1 ++ f)%string with (Key stored).
    rewrite find_put_object. cbn [Size stored].
    unfold bind, fs_write, ret.
    change (Config.localPath (backupConfig (set_faults [] w1))) with dir.
    rewrite (basename_join dir n Hn).
    assert (Hat : file_at dir (Path.join dir n)
                    {| name := n; file_size := file_size g; mtime := t2 |} = true)
      by apply String.eqb_refl.
    rewrite Hat. split; [reflexivity|]. split; reflexivity.
  - intros f' Hno.
    exists (with_message "S3 download failed: The specified key does not exist.").
    rewrite downloadFromS3_spec, Hc, Hf. cbn [negb]. cbv zeta.
    rewrite (find_none _ _ Hno). cbn [tl]. split; [|reflexivity].
    f_equal. apply World_ext; try reflexivity. symmetry; exact Hf.
Qed.

Lemma upload_download_round_trip_witness :
  exists w1 w2,
    uploadToS3 7000 "backups/backup_a.sql" "backup_a.sql"
      (world_of "both" [file_a] [] []) = (Ok true, w1) /\
    downloadFromS3 8000 "backup_a.sql" "backups/restored.sql" w1 = (Ok true, w2) /\
    files w2 = [file_a; {| name := "restored.sql"; file_size := 10; mtime := 8000 |}].
Proof.
  destruct (upload_download_round_trip 7000 8000 "backups/backup_a.sql" "backup_a.sql"
              "restored.sql" (world_of "both" [file_a] [] []) file_a
              eq_refl eq_refl eq_refl eq_refl)
    as ((w1 & w2 & Hup & Hdown & Hfiles & _) & _).
  exists w1, w2. split; [exact Hup|]. split; [exact Hdown|]. rewrite Hfiles. reflexivity.
Defined.

(** * Further properties: handlers, jobs and the scheduler *)

(** X24: the handler of [DELETE /api/backups/:filename] always answers,
    with 200 or 404 and never with 500.  It tries the directory when the
    storage mode includes it and the bucket when the mode includes it and
    S3 is configured, each attempt on its own: a failure is logged and
    does not stop the other attempt.  The local attempt succeeds exactly
    when the directory has an entry at the resolved path; the remote
    attempt succeeds whenever the store accepts the request, also for a
    key it does not hold, so with the bucket included and reachable the
    answer is 200 for every file name.  The answer is 404 exactly when no
    attempt succeeded. *)
Theorem delete_backup_answers (param : string) (w : World) :
  let key := (key_prefix w ++ Path.basename param)%string in
  let dir := Config.localPath (backupConfig w) in
  let deletedLocal := local_gate w && has_file_at w (getLocalBackupPath w param) w in
  let deletedRemote := remote_gate w && next_request_succeeds w in
  exists w',
    delete_backup param w =
      (Ok (if deletedLocal || deletedRemote
           then Deleted deletedLocal deletedRemote
           else NotFound "Backup not found or could not be deleted"), w') /\
    files w' =
      (if deletedLocal
       then filter (fun g => negb (file_at dir (getLocalBackupPath w param) g)) (files w)
       else files w) /\
    objects w' =
      (if deletedRemote
       then filter (fun o => negb (Key o =? key)) (objects w)
       else objects w) /\
    s3_faults w' = (if remote_gate w then tl (s3_faults w) else s3_faults w) /\
    store w' = store w /\
    logs w' =
      (if remote_gate w && negb deletedRemote
       then [error "Failed to delete remote backup"] else []) ++
      (if local_gate w && negb deletedLocal
       then [error "Failed to delete local backup"] else []) ++ logs w.
Proof.
  cbv zeta. unfold delete_backup, getLocalBackupPath, has_file_at.
  unfold try_catch at 1. unfold bind at 1.
  fold (local_gate w).
  set (dir := Config.localPath (backupConfig w)).
  set (p := Path.join dir (Path.basename param)).
  assert (Hlocal : exists w1,
             (if local_gate w
              then try_catch (deleteLocalBackup (Path.basename param) ;;; ret true)
                     (fun _ => logger_error "Failed to delete local backup" ;;; ret false)
              else ret false) w =
             (Ok (local_gate w && existsb (file_at dir p) (files w)), w1) /\
             files w1 = (if local_gate w && existsb (file_at dir p) (files w)
                         then filter (fun g => negb (file_at dir p g)) (files w)
                         else files w) /\
             objects w1 = objects w /\ s3_faults w1 = s3_faults w /\
             store w1 = store w /\
             logs w1 = (if local_gate w &&
                           negb (local_gate w && existsb (file_at dir p) (files w))
                        then [error "Failed to delete local backup"] else []) ++ logs w).
  { destruct (local_gate w); cbn [andb negb].
    - unfold try_catch, bind at 1. rewrite deleteLocalBackup_spec. cbv zeta.
      rewrite basename_idempotent. fold dir. fold p.
      destruct (existsb (file_at dir p) (files w)); unfold_m; eexists;
        (split; [reflexivity|]); repeat split.
    - unfold ret. eexists. split; [reflexivity|]. repeat split. }
  destruct Hlocal as (w1 & -> & Hfiles & Hobjects & Hfaults & Hstore & Hlogs).
  unfold bind at 1.
  assert (Hgate : ((Config.storage (backupConfig w) =? "remote")
                   || (Config.storage (backupConfig w) =? "both")) && isS3Configured w1
                  = remote_gate w).
  { unfold remote_gate. rewrite (proj2 (proj2 (store_config w1 w Hstore))). reflexivity. }
  rewrite Hgate.
  assert (Hprefix : key_prefix w1 = key_prefix w)
    by exact (proj1 (proj2 (store_config w1 w Hstore))).
  unfold next_request_succeeds.
  destruct (remote_gate w) eqn:Hg; cbn [andb negb].
  - unfold try_catch, bind at 1. rewrite deleteFromS3_spec.
    assert (Hc : isS3Configured w1 = true).
    { rewrite (proj2 (proj2 (store_config w1 w Hstore))).
      unfold remote_gate in Hg. apply andb_true_iff in Hg as [_ Hg]. exact Hg. }
    rewrite Hc, Hfaults, Hprefix. cbn [negb].
    destruct (s3_faults w) as [|[reason|] rest]; unfold_m; cbn [tl negb];
      rewrite ?orb_true_r, ?orb_false_r;
      eexists; (split; [reflexivity|]);
      cbn [files objects s3_faults store logs set_objects set_faults add_log app];
      rewrite ?Hlogs, ?Hobjects; repeat split; auto.
  - unfold ret. rewrite orb_false_r. eexists. split; [reflexivity|].
    rewrite Hlogs. repeat split; auto.
Qed.

(** X25: the handler of [POST /api/backups] keeps the dump in the backup
    directory in every storage mode.  When [pg_dump] writes its output,
    the entry of the generated name is in the directory afterwards, also
    in the mode ["remote"], where the answer says [remote] and the
    listing leaves the directory out, and also when the upload is refused
    and the answer is 500 with the message of the upload; the object is
    stored under the prefix and the generated name exactly when the mode
    includes the bucket, S3 is configured and the store accepts the
    request. *)
Theorem post_backups_keeps_local_file (pg_dump : DumpRequest -> DumpOutcome)
    (now : Z) (iso : string) (uploaded : Z) (format : option string) (w : World)
    (dbConfig : Config.DatabaseConfig) (written : Z) :
  let backupFormat := backup_format format w in
  let dir := Config.localPath (backupConfig w) in
  let created := generateBackupFilename iso (Config.database dbConfig) backupFormat in
  let filepath := Path.join dir created in
  let entry := {| name := created; file_size := written; mtime := now |} in
  let stored := {| Key := key_prefix w ++ created; Size := written;
                   LastModified := uploaded |} in
  Config.getDatabaseConfig (store w) = Ok dbConfig ->
  has_sep (Config.database dbConfig) = false ->
  has_sep iso = false ->
  pg_dump (dump_request dbConfig backupFormat filepath) = DumpDone written ->
  Forall (fun g => valid_name (name g) = true) (files w) ->
  exists w',
    post_backups pg_dump now iso uploaded format w =
      (Ok (if remote_gate w
           then match s3_faults w with
                | Some reason :: _ => ServerError ("S3 upload failed: " ++ reason)
                | _ => Created created written backupFormat (answered_location w)
                end
           else Created created written backupFormat (answered_location w)), w') /\
    files w' = put_file entry (files w) /\
    objects w' = (if remote_gate w && next_request_succeeds w
                  then put_object stored (objects w) else objects w) /\
    store w' = store w.
Proof.
  intros backupFormat dir created filepath entry stored Hdb Hsep Hiso Hdump Hvalid.
  pose proof (createBackup_done pg_dump now iso format w dbConfig written
                Hdb Hsep Hiso Hdump Hvalid) as Hrun.
  cbv zeta in Hrun. fold backupFormat dir created filepath entry in Hrun.
  destruct (generated_name_valid iso (Config.database dbConfig) backupFormat Hiso Hsep)
    as [Hname _]. fold created in Hname.
  unfold post_backups. unfold try_catch at 1. unfold bind at 1. rewrite Hrun.
  unfold bind at 1. unfold logger_info at 1.
  cbn [result_filename result_path result_size result_format].
  set (w1 := add_log _ (set_files (put_file entry (files w)) w)).
  unfold bind at 1. unfold upload_created.
  change (((Config.storage (backupConfig w) =? "remote")
           || (Config.storage (backupConfig w) =? "both")) && isS3Configured w1)
    with (remote_gate w).
  unfold next_request_succeeds, answered_location.
  destruct (remote_gate w) eqn:Hg; cbn [andb].
  - unfold bind at 1. rewrite uploadToS3_spec.
    assert (Hc : isS3Configured w1 = true).
    { unfold remote_gate in Hg. apply andb_true_iff in Hg as [_ Hg]. exact Hg. }
    rewrite Hc. cbn [negb result_filename result_path result_size result_format].
    change (Config.localPath (backupConfig w1)) with dir.
    change (files w1) with (put_file entry (files w)).
    rewrite (find_put_file dir filepath entry (files w)).
    + cbv zeta. change (s3_faults w1) with (s3_faults w).
      change (key_prefix w1) with (key_prefix w). cbn [file_size entry].
      fold stored.
      destruct (s3_faults w) as [|[reason|] rest]; unfold_m;
        eexists; (split; [reflexivity|]); repeat split.
    + apply String.eqb_refl.
    + intros g Hin Hat. rewrite Forall_forall in Hvalid.
      unfold file_at in Hat. apply String.eqb_eq in Hat.
      apply (join_valid_name_inj dir); [apply Hvalid; exact Hin|exact Hname|exact Hat].
  - eexists. split; [reflexivity|]. repeat split.
Qed.

Lemma post_backups_keeps_local_file_witness :
  exists w',
    post_backups done_pg_dump 5000 "2024-01-01T02:00:00.000Z" 6000 None
      (world_of "remote" [] [] []) =
      (Ok (Created "backup_postgres_2024-01-01T02-00-00-000Z.sql" 2048 "sql" "remote"),
       w') /\
    map name (files w') = ["backup_postgres_2024-01-01T02-00-00-000Z.sql"] /\
    map Key (objects w') = ["backup_postgres_2024-01-01T02-00-00-000Z.sql"] /\
    fetch_local w' = [].
Proof.
  destruct (post_backups_keeps_local_file done_pg_dump 5000 "2024-01-01T02:00:00.000Z"
              6000 None (world_of "remote" [] [] []) _ 2048
              eq_refl eq_refl eq_refl eq_refl)
    as (w' & Hrun & Hfiles & Hobjects & Hstore).
  - constructor.
  - exists w'. split; [exact Hrun|].
    split; [rewrite Hfiles; reflexivity|].
    split; [rewrite Hobjects; reflexivity|].
    unfold fetch_local, backupConfig. rewrite Hstore. reflexivity.
Defined.

Lemma applyRetentionPolicy_returns (now : Z) (w : World) :
  exists n w', applyRetentionPolicy now w = (Ok n, w').
Proof.
  destruct (listAllBackups_spec w) as (r & w1 & Hall & _ & Hst & _).
  destruct (retention_loop_spec w
              (retentionDate (time_zone w) now (Config.retentionDays (backupConfig w)))
              (mergeBackups (fetch_local w) r) 0 w1 Hst)
    as (n & w2 & outcomes & Hrun & _).
  exists n, w2. unfold applyRetentionPolicy, bind. rewrite Hall. exact Hrun.
Qed.

Lemma fs_write_frame (p : string) (written time : Z) (w : World) :
  exists w1,
    fs_write p written time w = (Ok tt, w1) /\
    store w1 = store w /\ objects w1 = objects w /\
    s3_faults w1 = s3_faults w /\ logs w1 = logs w.
Proof.
  unfold fs_write. destruct (file_at _ _ _); eexists; (split; [reflexivity|]);
    repeat split.
Qed.

(** [createBackup] touches the directory only. *)
Lemma createBackup_frame (pg_dump : DumpRequest -> DumpOutcome) (now : Z)
    (iso : string) (format : option string) (w : World) :
  exists r w1,
    createBackup pg_dump now iso format w = (r, w1) /\
    store w1 = store w /\ objects w1 = objects w /\
    s3_faults w1 = s3_faults w /\ logs w1 = logs w.
Proof.
  unfold createBackup.
  destruct (Config.getDatabaseConfig (store w)) as [dbConfig|e];
    [|eexists _, _; split; [reflexivity|repeat split]].
  set (backupFormat := backup_format format w).
  set (filepath := Path.join _ _).
  assert (Hhandler : forall e u,
            store u = store w -> objects u = objects w ->
            s3_faults u = s3_faults w -> logs u = logs w ->
            exists r w1,
              (try_catch (fs_unlink filepath) (fun _ => ret tt) ;;;
               throw (BackupFailed (message e))) u = (r : Result BackupResult, w1) /\
              store w1 = store w /\ objects w1 = objects w /\
              s3_faults w1 = s3_faults w /\ logs w1 = logs w).
  { intros e u H1 H2 H3 H4.
    destruct (unlink_ignoring_errors filepath u)
      as (w' & Hun & _ & H1' & H2' & H3' & H4' & _).
    unfold bind. rewrite Hun. unfold throw. eexists _, _. split; [reflexivity|].
    repeat split; congruence. }
  unfold try_catch at 1. unfold bind at 1. unfold bind at 1. unfold exec_pg_dump.
  change (dump_output (dump_request dbConfig backupFormat filepath)) with filepath.
  destruct (pg_dump _) as [written|diagnostic partial].
  - destruct (fs_write_frame filepath written now w) as (u & -> & H1 & H2 & H3 & H4).
    unfold bind at 1. unfold fs_stat.
    destruct (find _ (files u)) as [g|].
    + unfold ret. eexists _, _. split; [reflexivity|]. repeat split; assumption.
    + apply Hhandler; assumption.
  - unfold bind at 1.
    destruct partial as [written|].
    + destruct (fs_write_frame filepath written now w) as (u & -> & H1 & H2 & H3 & H4).
      unfold throw at 1. apply Hhandler; assumption.
    + unfold ret at 1. unfold throw at 1. apply Hhandler; reflexivity.
Qed.

Lemma upload_created_frame (storage : string) (uploaded : Z) (result : BackupResult)
    (w : World) :
  exists r w1 entries,
    upload_created storage uploaded result w = (r, w1) /\
    store w1 = store w /\ files w1 = files w /\ logs w1 = entries ++ logs w /\
    (forall e, r = Throw e -> objects w1 = objects w).
Proof.
  unfold upload_created.
  destruct (_ && isS3Configured w);
    [|exists (Ok tt), w, []; repeat split].
  unfold bind at 1. rewrite uploadToS3_spec.
  destruct (negb (isS3Configured w));
    [eexists _, _, []; split; [reflexivity|repeat split]|].
  destruct (find _ (files w));
    [|eexists _, _, []; split; [reflexivity|repeat split]].
  cbv zeta. destruct (s3_faults w) as [|[reason|] rest]; unfold logger_info.
  - eexists _, _, [_]. split; [reflexivity|]. repeat split. intros e [=].
  - eexists _, _, []. split; [reflexivity|]. repeat split.
  - eexists _, _, [_]. split; [reflexivity|]. repeat split. intros e [=].
Qed.

Lemma applyRetentionPolicy_frame (now : Z) (w : World) :
  exists n w' entries,
    applyRetentionPolicy now w = (Ok n, w') /\
    store w' = store w /\ logs w' = entries ++ logs w.
Proof.
  destruct (listAllBackups_spec w) as (r & u & Hall & _ & Hst & _).
  assert (Hlu : exists entries, logs u = entries ++ logs w).
  { revert Hall. unfold listAllBackups, bind, ret. rewrite fetch_remote_spec.
    destruct (remote_gate w); [|intros [= _ <-]; exists []; reflexivity].
    destruct (s3_faults w) as [|[reason|] rest]; intros [= _ <-];
      first [exists []; reflexivity
            |exists [error "Failed to list S3 backups"]; reflexivity]. }
  destruct Hlu as (entries & Hlu).
  destruct (retention_loop_spec w
              (retentionDate (time_zone w) now (Config.retentionDays (backupConfig w)))
              (mergeBackups (fetch_local w) r) 0 u Hst)
    as (n & w' & outcomes & Hrun & Hst' & _ & _ & Hlogs & _).
  exists n, w'. eexists. split; [|split; [exact Hst'|]].
  - unfold applyRetentionPolicy, bind. rewrite Hall. exact Hrun.
  - rewrite Hlogs, Hlu, app_assoc. reflexivity.
Qed.

(** X26: [executeBackupJob] never throws: whatever the configuration,
    [pg_dump], the directory and the object store do, the job returns
    normally, a failure of any step being caught and logged; it leaves the
    configuration as it is and only adds to the log. *)
Theorem executeBackupJob_never_throws (pg_dump : DumpRequest -> DumpOutcome)
    (now : Z) (iso : string) (uploaded swept : Z) (w : World) :
  exists w' entries,
    executeBackupJob pg_dump now iso uploaded swept w = (Ok tt, w') /\
    store w' = store w /\
    logs w' = entries ++ info "Running scheduled backup..." :: logs w.
Proof.
  unfold executeBackupJob. unfold bind at 1. unfold logger_info at 1.
  set (started := add_log (info "Running scheduled backup...") w).
  unfold try_catch. unfold bind at 1.
  destruct (createBackup_frame pg_dump now iso None started)
    as (r & w1 & -> & Hst1 & _ & _ & Hlogs1).
  destruct r as [result|e].
  2:{ unfold logger_error. eexists _, [_]. split; [reflexivity|].
      split; [exact Hst1|]. cbn [logs add_log]. rewrite Hlogs1. reflexivity. }
  unfold bind at 1. unfold logger_info at 1.
  set (w2 := add_log _ w1).
  unfold bind at 1.
  destruct (upload_created_frame (Config.storage (backupConfig started)) uploaded
              result w2) as (r & w3 & entries1 & -> & Hst3 & _ & Hlogs3 & _).
  destruct r as [[]|e].
  2:{ unfold logger_error. eexists _, (_ :: entries1 ++ [_]). split; [reflexivity|].
      split; [cbn [store add_log]; rewrite Hst3; exact Hst1|].
      cbn [logs add_log]. rewrite Hlogs3. unfold w2. cbn [logs add_log].
      rewrite Hlogs1. cbn [app]. rewrite <- app_assoc. reflexivity. }
  unfold bind at 1.
  destruct (applyRetentionPolicy_frame swept w3) as (n & w4 & entries2 & -> & Hst4 & Hlogs4).
  unfold logger_info. eexists _, (_ :: entries2 ++ entries1 ++ [_]).
  split; [reflexivity|].
  split; [cbn [store add_log]; rewrite Hst4, Hst3; exact Hst1|].
  cbn [logs add_log]. rewrite Hlogs4, Hlogs3. unfold w2. cbn [logs add_log].
  rewrite Hlogs1. cbn [app]. rewrite <- !app_assoc. reflexivity.
Qed.

Lemma createBackup_unwinds (pg_dump : DumpRequest -> DumpOutcome) (now : Z)
    (iso : string) (format : option string) (w : World)
    (dbConfig : Config.DatabaseConfig) (diagnostic : string) (partial : option Z) :
  let backupFormat := backup_format format w in
  let dir := Config.localPath (backupConfig w) in
  let filepath :=
    Path.join dir (generateBackupFilename iso (Config.database dbConfig) backupFormat) in
  Config.getDatabaseConfig (store w) = Ok dbConfig ->
  pg_dump (dump_request dbConfig backupFormat filepath) = DumpFailed diagnostic partial ->
  exists w',
    createBackup pg_dump now iso format w = (Throw (BackupFailed diagnostic), w') /\
    files w' = filter (fun g => negb (file_at dir filepath g)) (files w) /\
    store w' = store w /\ objects w' = objects w /\
    s3_faults w' = s3_faults w /\ logs w' = logs w.
Proof.
  intros backupFormat dir filepath Hdb Hdump.
  unfold createBackup. rewrite Hdb.
  fold backupFormat. fold dir. fold filepath.
  unfold try_catch at 1. unfold bind at 1. unfold bind at 1.
  unfold exec_pg_dump. rewrite Hdump.
  change (dump_output (dump_request dbConfig backupFormat filepath)) with filepath.
  assert (Hpre : exists u,
            (match partial with
             | Some written => fs_write filepath written now
             | None => ret tt
             end) w = (Ok tt, u) /\
            store u = store w /\ objects u = objects w /\
            s3_faults u = s3_faults w /\ logs u = logs w /\
            filter (fun g => negb (file_at dir filepath g)) (files u) =
            filter (fun g => negb (file_at dir filepath g)) (files w)).
  { destruct partial as [written|]; [|exists w; repeat split].
    unfold fs_write. fold dir.
    destruct (file_at dir filepath _) eqn:E; [|exists w; repeat split].
    eexists. split; [reflexivity|]. cbn [store objects s3_faults logs files set_files].
    repeat split. apply put_file_filter; [exact E|].
    intros g Hg. unfold file_at in *. cbn [name] in *. rewrite Hg. exact E. }
  destruct Hpre as (u & Hu & Hst & Hob & Hfa & Hlo & Hfil).
  unfold bind at 1. rewrite Hu. unfold throw at 1. unfold bind at 1.
  destruct (unlink_ignoring_errors filepath u)
    as (w' & Hun & Hfiles & Hst' & Hob' & Hfa' & Hlo' & _).
  rewrite Hun. unfold throw. cbn [message].
  assert (Hdir : Config.localPath (backupConfig u) = dir)
    by (unfold dir, backupConfig; rewrite Hst; reflexivity).
  rewrite Hdir, Hfil in Hfiles.
  exists w'. split; [reflexivity|]. split; [exact Hfiles|].
  repeat split; congruence.
Qed.

(** X27: a failed dump ends the scheduled job.  When [pg_dump] fails,
    [executeBackupJob] uploads nothing and does not run the sweep: no
    request is sent to the object store, the bucket is as before, the
    directory only loses what the failed dump left at its output path (no
    expired backup is removed), and the log gains the start of the job
    and the failure. *)
Theorem executeBackupJob_failed_dump (pg_dump : DumpRequest -> DumpOutcome)
    (now : Z) (iso : string) (uploaded swept : Z) (w : World)
    (dbConfig : Config.DatabaseConfig) (diagnostic : string) (partial : option Z) :
  let backupFormat := backup_format None w in
  let dir := Config.localPath (backupConfig w) in
  let filepath :=
    Path.join dir (generateBackupFilename iso (Config.database dbConfig) backupFormat) in
  Config.getDatabaseConfig (store w) = Ok dbConfig ->
  pg_dump (dump_request dbConfig backupFormat filepath) = DumpFailed diagnostic partial ->
  exists w',
    executeBackupJob pg_dump now iso uploaded swept w = (Ok tt, w') /\
    files w' = filter (fun g => negb (file_at dir filepath g)) (files w) /\
    objects w' = objects w /\ s3_faults w' = s3_faults w /\ store w' = store w /\
    logs w' = error "Scheduled backup failed" :: info "Running scheduled backup..."
              :: logs w.
Proof.
  intros backupFormat dir filepath Hdb Hdump.
  unfold executeBackupJob. unfold bind at 1. unfold logger_info at 1.
  set (started := add_log (info "Running scheduled backup...") w).
  destruct (createBackup_unwinds pg_dump now iso None started dbConfig diagnostic partial
              Hdb Hdump) as (w1 & Hrun & Hfiles & Hst & Hob & Hfa & Hlo).
  unfold try_catch. unfold bind at 1. rewrite Hrun. unfold logger_error.
  eexists. split; [reflexivity|].
  cbn [files objects s3_faults store logs add_log].
  rewrite Hfiles, Hob, Hfa, Hst, Hlo. repeat split.
Qed.

Lemma executeBackupJob_failed_dump_witness :
  exists w',
    executeBackupJob failing_pg_dump 5000 "2024-01-01T02:00:00.000Z" 6000 1000000000
      (world_of "both" [file_a] [object_a] []) = (Ok tt, w') /\
    files w' = [file_a] /\ objects w' = [object_a] /\
    logs w' = [error "Scheduled backup failed"; info "Running scheduled backup..."].
Proof.
  destruct (executeBackupJob_failed_dump failing_pg_dump 5000 "2024-01-01T02:00:00.000Z"
              6000 1000000000 (world_of "both" [file_a] [object_a] []) _ _ _
              eq_refl eq_refl)
    as (w' & Hrun & Hfiles & Hobjects & _ & _ & Hlogs).
  exists w'. split; [exact Hrun|]. split; [rewrite Hfiles; reflexivity|].
  split; [exact Hobjects|exact Hlogs].
Defined.

Lemma stop_task_alone (t : Task) : stop_task t [t] = [].
Proof. unfold stop_task. cbn [filter]. rewrite Nat.eqb_refl. reflexivity. Qed.

Lemma stopScheduler_stops (s : Scheduler) (w : World) :
  one_task s ->
  let s' := fst (snd (stopScheduler s w)) in
  schedulerTask s' = None /\ isRunning s' = false /\ currentSchedule s' = None /\
  started_tasks s' = [] /\ next_task s' = next_task s.
Proof.
  intros (Htasks & _ & _). cbv zeta. unfold stopScheduler. cbn [fst snd schedulerTask
    isRunning currentSchedule started_tasks next_task].
  repeat split. rewrite Htasks.
  destruct (schedulerTask s) as [t|]; [apply stop_task_alone|reflexivity].
Qed.

(** The state in which [startScheduler] validates the schedule. *)
Lemma startScheduler_stops_first (s : Scheduler) (w : World) :
  one_task s ->
  let sw := if isRunning s then snd (stopScheduler s w) else (s, w) in
  schedulerTask (fst sw) = None /\ isRunning (fst sw) = false /\
  currentSchedule (fst sw) = None /\ started_tasks (fst sw) = [] /\
  store (snd sw) = store w /\
  logs (snd sw) = (if isRunning s then [info "Scheduler stopped"] else []) ++ logs w.
Proof.
  intros Hone. cbv zeta. destruct (isRunning s) eqn:Hrun.
  - destruct (stopScheduler_stops s w Hone) as (H1 & H2 & H3 & H4 & _).
    repeat split; assumption.
  - destruct Hone as (Htasks & Hflag & Hsched). cbn [fst snd].
    rewrite Hrun in Hflag.
    destruct (schedulerTask s) as [t|]; [discriminate Hflag|].
    repeat split; assumption.
Qed.

Lemma startScheduler_spec (cron_validate : string -> bool) (schedule : option string)
    (s : Scheduler) (w : World) :
  let sw := if isRunning s then snd (stopScheduler s w) else (s, w) in
  let scheduleToUse := JS.or_default schedule (Config.schedule (backupConfig w)) in
  let task := {| task_id := next_task (fst sw); expression := scheduleToUse |} in
  startScheduler cron_validate schedule s w =
  if cron_validate scheduleToUse
  then (Ok {| running := true; status_schedule := Some scheduleToUse |},
        ({| schedulerTask := Some task; isRunning := true;
            currentSchedule := Some scheduleToUse;
            started_tasks := task :: started_tasks (fst sw);
            next_task := S (next_task (fst sw)) |},
         add_log (info ("Scheduler started with schedule: " ++ scheduleToUse)) (snd sw)))
  else (Throw (with_message ("Invalid cron schedule: " ++ scheduleToUse)), sw).
Proof.
  cbv zeta. unfold startScheduler.
  destruct (isRunning s); cbn [stopScheduler fst snd];
    change (backupConfig (add_log (info "Scheduler stopped") w)) with (backupConfig w);
    destruct (cron_validate _); reflexivity.
Qed.

(** X28: the scheduler never runs two tasks.  From a state in which the
    started tasks are the one the module holds (as in the initial state),
    [startScheduler], [stopScheduler] and [initializeScheduler] lead to
    such a state again, whether they succeed or throw; after a successful
    [startScheduler] exactly one task is started, with the schedule given
    or, when none is given, the configured one, and that schedule passed
    [cron.validate]; after [stopScheduler] none is. *)
Theorem scheduler_keeps_one_task (cron_validate : string -> bool)
    (schedule : option string) (s : Scheduler) (w : World) :
  one_task s ->
  one_task (fst (snd (startScheduler cron_validate schedule s w))) /\
  one_task (fst (snd (stopScheduler s w))) /\
  one_task (fst (initializeScheduler cron_validate s w)) /\
  started_tasks (fst (snd (stopScheduler s w))) = [] /\
  (forall status s' w',
     startScheduler cron_validate schedule s w = (Ok status, (s', w')) ->
     exists task,
       started_tasks s' = [task] /\ schedulerTask s' = Some task /\
       isRunning s' = true /\
       expression task = JS.or_default schedule (Config.schedule (backupConfig w)) /\
       cron_validate (expression task) = true /\
       status = {| running := true; status_schedule := Some (expression task) |}).
Proof.
  intros Hone.
  assert (Hstart : forall sch, one_task (fst (snd (startScheduler cron_validate sch s w)))).
  { intros sch. rewrite startScheduler_spec. cbv zeta.
    destruct (startScheduler_stops_first s w Hone) as (H1 & H2 & H3 & H4 & _).
    destruct (cron_validate _); cbn [fst snd].
    - unfold one_task. cbn [started_tasks schedulerTask isRunning currentSchedule
                             option_map expression]. rewrite H4. repeat split.
    - unfold one_task. rewrite H1, H2, H3, H4. repeat split. }
  assert (Hstop : one_task (fst (snd (stopScheduler s w)))).
  { destruct (stopScheduler_stops s w Hone) as (H1 & H2 & H3 & H4 & _).
    unfold one_task. rewrite H1, H2, H3, H4. repeat split. }
  split; [apply Hstart|]. split; [exact Hstop|]. split; [|split].
  - unfold initializeScheduler. cbv zeta.
    destruct (Config.auto (backupConfig w)); [|exact Hone].
    specialize (Hstart (Some (Config.schedule (backupConfig w)))).
    destruct (startScheduler cron_validate _ s w) as [[status|e] [s' w']]; exact Hstart.
  - exact (proj1 (proj2 (proj2 (proj2 (stopScheduler_stops s w Hone))))).
  - intros status s' w'. rewrite startScheduler_spec. cbv zeta.
    destruct (startScheduler_stops_first s w Hone) as (_ & _ & _ & H4 & _).
    cbv zeta in H4.
    set (sw := if isRunning s then snd (stopScheduler s w) else (s, w)) in *.
    destruct (cron_validate _) eqn:Hv; [|discriminate].
    intros [= <- <- <-]. eexists. cbn [started_tasks schedulerTask isRunning expression].
    rewrite H4. repeat split. exact Hv.
Qed.

Lemma scheduler_keeps_one_task_witness :
  exists status s' w',
    startScheduler five_fields (Some "*/5 * * * *") idle (world_of "local" [] [] [])
      = (Ok status, (s', w')) /\
    map expression (started_tasks s') = ["*/5 * * * *"] /\
    one_task s'.
Proof.
  destruct (startScheduler five_fields (Some "*/5 * * * *") idle
              (world_of "local" [] [] [])) as [[status|e] [s' w']] eqn:Hrun;
    [|vm_compute in Hrun; discriminate Hrun].
  assert (Hidle : one_task idle) by (repeat split).
  destruct (scheduler_keeps_one_task five_fields (Some "*/5 * * * *") idle
              (world_of "local" [] [] []) Hidle) as (Hone & _ & _ & _ & Hstarted).
  destruct (Hstarted status s' w' Hrun) as (task & Htasks & _ & _ & Hexpr & _).
  exists status, s', w'. split; [reflexivity|]. split.
  - rewrite Htasks. cbn [map]. rewrite Hexpr. reflexivity.
  - rewrite Hrun in Hone. exact Hone.
Defined.

(** X29: a restart with a schedule that [cron.validate] rejects leaves
    the scheduler stopped: [startScheduler] stops the running task before
    it validates, so it throws the invalid-schedule error with no task
    started, the flag off and the stop logged; a scheduler that was not
    running is left as it was. *)
Theorem startScheduler_invalid_stops (cron_validate : string -> bool)
    (schedule : option string) (s : Scheduler) (w : World) :
  let scheduleToUse := JS.or_default schedule (Config.schedule (backupConfig w)) in
  one_task s ->
  cron_validate scheduleToUse = false ->
  exists s' w',
    startScheduler cron_validate schedule s w =
      (Throw (with_message ("Invalid cron schedule: " ++ scheduleToUse)), (s', w')) /\
    started_tasks s' = [] /\ schedulerTask s' = None /\ isRunning s' = false /\
    currentSchedule s' = None /\
    logs w' = (if isRunning s then [info "Scheduler stopped"] else []) ++ logs w /\
    (isRunning s = false -> s' = s /\ w' = w).
Proof.
  intros scheduleToUse Hone Hinvalid.
  rewrite startScheduler_spec. cbv zeta. fold scheduleToUse. rewrite Hinvalid.
  destruct (startScheduler_stops_first s w Hone) as (H1 & H2 & H3 & H4 & _ & H6).
  eexists _, _. split; [apply f_equal, surjective_pairing|].
  repeat (split; [assumption|]).
  intros Hrun. rewrite Hrun. split; reflexivity.
Qed.

Lemma startScheduler_invalid_stops_witness :
  exists e s' w',
    startScheduler five_fields (Some "every night") nightly (world_of "local" [] [] [])
      = (Throw e, (s', w')) /\
    message e = "Invalid cron schedule: every night" /\
    isRunning s' = false /\ started_tasks s' = [].
Proof.
  assert (Hone : one_task nightly) by (repeat split).
  destruct (startScheduler_invalid_stops five_fields (Some "every night") nightly
              (world_of "local" [] [] []) Hone eq_refl)
    as (s' & w' & Hrun & Htasks & _ & Hflag & _).
  eexists _, s', w'. split; [exact Hrun|]. split; [reflexivity|].
  split; assumption.
Defined.

(** * Further properties: the listing after a sweep *)

Lemma insert_by_date_head (x : Backup) (l : list Backup) :
  (forall z, In z l -> (date z <= date x)%Z) -> insert_by_date x l = x :: l.
Proof.
  destruct l as [|y l]; [reflexivity|]. intros H. cbn [insert_by_date].
  rewrite (proj2 (Z.leb_le _ _) (H y (or_introl eq_refl))). reflexivity.
Qed.

Lemma insert_by_date_filter (p : Backup -> bool) (x : Backup) (l : list Backup) :
  StronglySorted newer_first l ->
  filter p (insert_by_date x l) =
  if p x then insert_by_date x (filter p l) else filter p l.
Proof.
  induction 1 as [|y l Hs IH Hy]; cbn [insert_by_date filter].
  - destruct (p x); reflexivity.
  - rewrite Forall_forall in Hy. unfold newer_first in Hy.
    destruct (date y <=? date x)%Z eqn:E.
    + cbn [filter]. destruct (p x); [|reflexivity].
      rewrite insert_by_date_head; [reflexivity|].
      apply Z.leb_le in E. intros z Hz.
      assert (Hin : In z (y :: l)).
      { destruct (p y); [|right; exact (proj1 (proj1 (filter_In _ _ _) Hz))].
        destruct Hz as [<-|Hz]; [left; reflexivity|].
        right; exact (proj1 (proj1 (filter_In _ _ _) Hz)). }
      destruct Hin as [<-|Hin]; [exact E|]. specialize (Hy z Hin). lia.
    + cbn [filter]. rewrite IH.
      destruct (p y), (p x); try reflexivity.
      cbn [insert_by_date]. rewrite E. reflexivity.
Qed.

Lemma sort_by_date_desc_filter (p : Backup -> bool) (l : list Backup) :
  filter p (sort_by_date_desc l) = sort_by_date_desc (filter p l).
Proof.
  induction l as [|x l IH]; [reflexivity|].
  change (sort_by_date_desc (x :: l)) with (insert_by_date x (sort_by_date_desc l)).
  rewrite insert_by_date_filter by apply sort_by_date_desc_sorted.
  cbn [filter]. destruct (p x); rewrite IH; reflexivity.
Qed.

Lemma unexpired_with_location (cutoff : option Z) (loc : Location) (b : Backup) :
  unexpired cutoff (with_location loc b) = unexpired cutoff b.
Proof. unfold unexpired. destruct cutoff; reflexivity. Qed.

Lemma decides_present (l : list Backup) (x y : Backup) :
  NoDup (names l) -> In x l -> filename x = filename y -> decides l y = x.
Proof.
  intros Hnd Hx Hf. unfold decides.
  rewrite (find_by_name (filename y) l x Hnd Hx Hf). reflexivity.
Qed.

Lemma decides_absent (l : list Backup) (y : Backup) :
  ~ In (filename y) (names l) -> decides l y = y.
Proof.
  intros H. unfold decides. rewrite (find_by_name_none _ _ H). reflexivity.
Qed.

Lemma names_filter_In (p : Backup -> bool) (l : list Backup) (f : string) :
  In f (names (filter p l)) -> In f (names l).
Proof.
  unfold names. rewrite !in_map_iff. intros (b & Hb & Hin).
  apply filter_In in Hin as [Hin _]. exists b. auto.
Qed.

Lemma In_names (l : list Backup) (f : string) :
  In f (names l) <-> exists b, In b l /\ filename b = f.
Proof.
  unfold names. rewrite in_map_iff. split; intros (b & H1 & H2); exists b; auto.
Qed.

(** The merge of the listings that a sweep leaves is the merge of the
    listings it found, without the expired artifacts. *)
Lemma mergeBackups_unexpired (cutoff : option Z) (l r : list Backup) :
  NoDup (names l) -> NoDup (names r) ->
  mergeBackups (filter (unexpired cutoff) l)
               (filter (fun y => unexpired cutoff (decides l y)) r) =
  filter (unexpired cutoff) (mergeBackups l r).
Proof.
  intros Hl Hr.
  set (l1 := filter (unexpired cutoff) l).
  set (r1 := filter (fun y => unexpired cutoff (decides l y)) r).
  assert (Hl1 : NoDup (names l1)) by (apply NoDup_names_filter; exact Hl).
  assert (Hr1 : NoDup (names r1)) by (apply NoDup_names_filter; exact Hr).
  unfold mergeBackups. rewrite sort_by_date_desc_filter. f_equal.
  fold (merged_map l1 r1). fold (merged_map l r).
  rewrite (merged_values_distinct l1 r1 Hl1 Hr1), (merged_values_distinct l r Hl Hr).
  rewrite filter_app. f_equal.
  - rewrite filter_map_commute.
    rewrite (filter_ext (fun x => unexpired cutoff
                          (with_location (if present_in (names r) x then both else local) x))
                        (unexpired cutoff))
      by (intros x; apply unexpired_with_location).
    fold l1. apply map_ext_in. intros x Hx.
    apply filter_In in Hx as [Hx Hux].
    assert (E : present_in (names r1) x = present_in (names r) x).
    { unfold present_in. apply eq_true_iff_eq. rewrite !mem_In. split.
      - apply names_filter_In.
      - intros Hin. apply In_names in Hin as (y & Hy & Hf).
        apply In_names. exists y. split; [|exact Hf].
        apply filter_In. split; [exact Hy|].
        rewrite (decides_present l x y Hl Hx (eq_sym Hf)). exact Hux. }
    rewrite E. reflexivity.
  - rewrite filter_map_commute.
    rewrite (filter_ext (fun y => unexpired cutoff (with_location remote y))
                        (unexpired cutoff))
      by (intros y; apply unexpired_with_location).
    f_equal. unfold r1. rewrite !filter_filter. apply filter_ext_in.
    intros y Hy. unfold absent_from.
    destruct (mem (filename y) (names l)) eqn:E; cbn [negb andb].
    + apply mem_In in E. apply In_names in E as (x & Hx & Hf).
      rewrite (decides_present l x y Hl Hx Hf).
      destruct (unexpired cutoff x) eqn:Hux; [|reflexivity]. cbn [andb].
      apply negb_false_iff. apply mem_In. apply In_names. exists x. split; [|exact Hf].
      apply filter_In. auto.
    + apply mem_not_In in E. rewrite (decides_absent l y E).
      destruct (unexpired cutoff y); [|reflexivity]. cbn [andb].
      apply negb_true_iff. apply mem_not_In. intros Hin. apply E.
      apply (names_filter_In _ _ _ Hin).
Qed.

Lemma fetch_local_after_sweep (w w1 : World) (cutoff : option Z) :
  well_formed w ->
  store w1 = store w ->
  files w1 = filter (fun g => negb (swept_file w cutoff (listing w) g)) (files w) ->
  fetch_local w1 = filter (unexpired cutoff) (fetch_local w).
Proof.
  intros (Hvalid & Hnd & Hkeys & Hflat) Hst Hfiles.
  rewrite !fetch_local_eq.
  replace (local_gate w1) with (local_gate w)
    by (unfold local_gate, backupConfig; rewrite Hst; reflexivity).
  destruct (local_gate w) eqn:Hgate; [|reflexivity].
  rewrite Hfiles, filter_map_commute. f_equal.
  rewrite !filter_filter. apply filter_ext_in. intros g Hg.
  unfold listing.
  rewrite (swept_file_expired w cutoff (remote_listing w) g Hvalid Hnd
             (NoDup_names_remote_listing w Hkeys Hflat) Hg).
  unfold expired_file, unexpired. rewrite Hgate. cbn [andb].
  destruct (is_backup_file g), (expired cutoff (to_local g)); reflexivity.
Qed.

Lemma swept_object_expired (w : World) (cutoff : option Z) (o : S3Object) :
  well_formed w -> one_page w -> remote_gate w = true ->
  In o (objects w) -> listed w o = true ->
  swept_object w cutoff (listing w) o =
  expired cutoff (decides (fetch_local w) (to_remote o)).
Proof.
  intros (Hvalid & Hnd & Hkeys & Hflat) Hpage Hgate Ho Hlisted.
  pose proof (NoDup_names_fetch_local w Hnd) as Hl.
  pose proof (NoDup_names_remote_listing w Hkeys Hflat) as Hr.
  assert (Hy : In (to_remote o) (remote_listing w)).
  { apply In_remote_listing; [exact Hpage|]. split; [exact Hgate|]. exists o. auto. }
  assert (Hkey : Key o = (key_prefix w ++ filename (to_remote o))%string)
    by (apply Hflat; assumption).
  apply eq_true_iff_eq. unfold swept_object. split.
  - intros H. apply existsb_exists in H as (b & Hb & Hp).
    apply andb_true_iff in Hp as [Hp Hat]. apply andb_true_iff in Hp as [Hex Hside].
    apply String.eqb_eq in Hat. unfold remote_key in Hat.
    rewrite Hkey in Hat. apply append_inv_head in Hat.
    apply (mergeBackups_elements _ _ _ Hl Hr) in Hb
      as [(x & Hx & ->)|(y & Hyin & Habsent & ->)].
    + cbn [filename with_location] in Hat.
      rewrite (decides_present _ x _ Hl Hx (eq_sym Hat)).
      rewrite <- Hex. apply expired_same_date. reflexivity.
    + cbn [filename with_location] in Hat.
      apply mem_not_In in Habsent. rewrite <- Hat in Habsent.
      rewrite (decides_absent _ _ Habsent).
      assert (y = to_remote o).
      { apply (NoDup_map_eq filename (remote_listing w)); auto. }
      subst y. rewrite <- Hex. apply expired_same_date. reflexivity.
  - intros Hex. apply existsb_exists.
    destruct (mem (filename (to_remote o)) (names (fetch_local w))) eqn:E.
    + apply mem_In in E. apply In_names in E as (x & Hx & Hf).
      rewrite (decides_present _ x _ Hl Hx Hf) in Hex.
      exists (with_location both x). split.
      * apply (mergeBackups_elements _ _ _ Hl Hr). left. exists x. split; [exact Hx|].
        replace (mem (filename x) (names (remote_listing w))) with true; [reflexivity|].
        symmetry. apply mem_In. apply In_names. exists (to_remote o). auto.
      * apply andb_true_iff. split; [apply andb_true_iff; split|].
        -- rewrite <- Hex. apply expired_same_date. reflexivity.
        -- reflexivity.
        -- unfold remote_key. cbn [filename with_location]. rewrite Hf, <- Hkey.
           apply String.eqb_refl.
    + exists (with_location remote (to_remote o)). split.
      * apply (mergeBackups_elements _ _ _ Hl Hr). right. exists (to_remote o). auto.
      * apply mem_not_In in E. rewrite (decides_absent _ _ E) in Hex.
        apply andb_true_iff. split; [apply andb_true_iff; split|].
        -- rewrite <- Hex. apply expired_same_date. reflexivity.
        -- reflexivity.
        -- unfold remote_key. cbn [filename with_location]. rewrite <- Hkey.
           apply String.eqb_refl.
Qed.

(** A world that only lost objects still fits in one page. *)
Lemma one_page_filter (w u : World) (q : S3Object -> bool) :
  store u = store w -> objects u = filter q (objects w) ->
  one_page w -> one_page u.
Proof.
  intros Hst Ho Hp. destruct (store_config u w Hst) as (_ & Hprefix & _).
  unfold one_page in *.
  replace (listed u) with (listed w) by (unfold listed; rewrite Hprefix; reflexivity).
  rewrite Ho. pose proof (filter_twice_length (listed w) q (objects w)). lia.
Qed.

Lemma remote_listing_after_sweep (w w1 : World) (cutoff : option Z) :
  well_formed w ->
  one_page w ->
  store w1 = store w ->
  objects w1 = filter (fun o => negb (swept_object w cutoff (listing w) o)) (objects w) ->
  remote_listing w1 =
  filter (fun y => unexpired cutoff (decides (fetch_local w) y)) (remote_listing w).
Proof.
  intros Hwf Hpage Hst Hobjects.
  destruct (store_config w1 w Hst) as (Hconfig & Hprefix & Hconfigured).
  rewrite (remote_listing_one_page w Hpage).
  rewrite (remote_listing_one_page w1 (one_page_filter w w1 _ Hst Hobjects Hpage)).
  replace (remote_gate w1) with (remote_gate w)
    by (unfold remote_gate; rewrite Hconfig, Hconfigured; reflexivity).
  destruct (remote_gate w) eqn:Hgate; [|reflexivity].
  replace (listed w1) with (listed w) by (unfold listed; rewrite Hprefix; reflexivity).
  rewrite Hobjects, filter_map_commute. f_equal.
  rewrite !filter_filter. apply filter_ext_in. intros o Ho.
  destruct (listed w o) eqn:Hlisted; [|apply andb_false_r].
  rewrite (swept_object_expired w cutoff o Hwf Hpage Hgate Ho Hlisted).
  unfold unexpired. rewrite andb_true_r. reflexivity.
Qed.

(** X30: in a well-formed world whose listed keys fit in one page of
    [listObjectsV2] and without failing requests, a sweep leaves exactly
    the artifacts that are not older than the cutoff: the count it returns
    is the number of expired artifacts of the merged list, and the next
    [listAllBackups] returns that list without them, every remaining
    artifact with the location, size and date it had.  (An artifact in
    both archives is judged by the date of its local copy, and both
    copies go or stay together.) *)
Theorem sweep_leaves_unexpired (w : World) (now : Z) :
  well_formed w ->
  one_page w ->
  s3_faults w = [] ->
  let cutoff :=
    retentionDate (time_zone w) now (Config.retentionDays (backupConfig w)) in
  exists all w1,
    listAllBackups w = (Ok all, w) /\
    applyRetentionPolicy now w = (Ok (length (filter (expired cutoff) all)), w1) /\
    listAllBackups w1 = (Ok (filter (unexpired cutoff) all), w1) /\
    well_formed w1 /\ one_page w1.
Proof.
  intros Hwf Hpage Hf cutoff.
  destruct (sweep_without_failure w now Hwf Hf)
    as (w1 & Hrun & Hst & Hf1 & Hfiles & Hobjects & _).
  fold cutoff in Hrun, Hfiles, Hobjects.
  exists (listing w), w1.
  split; [apply listAllBackups_no_faults; exact Hf|].
  split; [exact Hrun|].
  split; [|split; [exact (well_formed_filter w w1 _ _ Hst Hfiles Hobjects Hwf)
                  |exact (one_page_filter w w1 _ Hst Hobjects Hpage)]].
  rewrite (listAllBackups_no_faults w1 Hf1). f_equal. f_equal.
  unfold listing at 1.
  rewrite (fetch_local_after_sweep w w1 cutoff Hwf Hst Hfiles).
  rewrite (remote_listing_after_sweep w w1 cutoff Hwf Hpage Hst Hobjects).
  destruct Hwf as (Hvalid & Hnd & Hkeys & Hflat).
  apply mergeBackups_unexpired.
  - apply NoDup_names_fetch_local; exact Hnd.
  - apply NoDup_names_remote_listing; assumption.
Qed.

Lemma sweep_leaves_unexpired_witness :
  exists all w1,
    listAllBackups steady_world = (Ok all, steady_world) /\
    names all = ["backup_new.dump"; "backup_b.sql"; "backup_c.dump"; "backup_a.sql"] /\
    applyRetentionPolicy 1000000000 steady_world = (Ok 3, w1) /\
    fst (listAllBackups w1) = Ok [to_local file_new].
Proof.
  destruct (sweep_leaves_unexpired steady_world 1000000000 steady_world_well_formed
              steady_world_one_page eq_refl) as (all & w1 & Hall & Hrun & Hnext & _).
  exists all, w1. split; [exact Hall|].
  assert (Hv : fst (listAllBackups steady_world) = Ok all) by (rewrite Hall; reflexivity).
  vm_compute in Hv. injection Hv as <-.
  split; [reflexivity|]. split; [exact Hrun|]. rewrite Hnext. reflexivity.
Defined.
